(** * Grid Snake: a shallow embedding of [grid_snake.py]

    The program searches a Hamiltonian path on a [rows] x [cols] grid by
    depth-first backtracking, once with the call stack ([_recursive]) and
    once with an explicit stack of direction indices ([_non_recursive]),
    and draws a found path as text ([print_path]).

    Python integers are [Z], a grid point is a pair of them, the NumPy
    arrays are rows of lists carrying their [shape], Python lists are
    lists in the same order (append at the back), and a raised exception
    is a [Raise] outcome that every later statement propagates.  The
    call stack of the interpreter is finite: a recursion that would pass
    its limit ends in [RecursionError]. *)

From Stdlib Require Import ZArith Lia String Bool.
From stdpp Require Import base list.

Local Open Scope Z_scope.

(** ** Outcomes of a Python computation *)

(** The exceptions the program can meet.  The three [ValueError]s of
    [solve_snake] keep the data of their messages; NumPy answers a
    negative dimension with a [ValueError] of its own; CPython answers a
    call that would make the stack deeper than [sys.getrecursionlimit()]
    with [RecursionError]. *)
Inductive Message :=
| InvalidStartPosition (pos : Z * Z)   (* "Invalid start position: {start_pos}" *)
| InvalidEndPosition (pos : Z * Z)     (* "Invalid end position: {end_pos}" *)
| StartEqualsEnd                       (* "Start and end positions must be different." *)
| UnknownMethod (method : string)      (* "Unknown method: {method}" *)
| NegativeDimensions.                  (* numpy: "negative dimensions are not allowed" *)

Inductive Exn :=
| ValueError (msg : Message)
| IndexError
| RecursionError.

(** [OutOfFuel] is not a Python outcome: it marks a run of [while True]
    cut off by the budget of passes that makes the loop structural. *)
Inductive Outcome (A : Type) :=
| Ok (a : A)
| Raise (e : Exn)
| OutOfFuel.
Arguments Ok {A} a.
Arguments Raise {A} e.
Arguments OutOfFuel {A}.

Definition bind {A B : Type} (m : Outcome A) (k : A -> Outcome B) : Outcome B :=
  match m with
  | Ok a => k a
  | Raise e => Raise e
  | OutOfFuel => OutOfFuel
  end.

Notation "'let*' x ':=' m 'in' k" := (bind m (fun x => k))
  (at level 10, x name, m at level 100, k at level 200).

(** ** Grid points and directions *)

(** [type GridPt = tuple[int, int]] *)
Abbreviation GridPt := (Z * Z)%type.

Definition _search_dirns : list GridPt := [(1, 0); (-1, 0); (0, 1); (0, -1)].

(** Tuple equality [pos == end_pos]. *)
Definition pt_eqb (a b : GridPt) : bool := (a.1 =? b.1) && (a.2 =? b.2).

(** [valid_pos]: [(0 <= pos[0] < size[0]) and (0 <= pos[1] < size[1])]. *)
Definition valid_pos (pos size : GridPt) : bool :=
  ((0 <=? pos.1) && (pos.1 <? size.1)) && ((0 <=? pos.2) && (pos.2 <? size.2)).

(** ** Python lists *)

(** [l[i]] with Python's rule: a negative index counts from the back, an
    index outside [-len, len) raises [IndexError]. *)
Definition list_getitem {A : Type} (l : list A) (i : Z) : Outcome A :=
  let n := Z.of_nat (length l) in
  let j := if i <? 0 then n + i else i in
  if (0 <=? j) && (j <? n)
  then match l !! Z.to_nat j with Some x => Ok x | None => Raise IndexError end
  else Raise IndexError.

(** [l[i] = x]. *)
Definition list_setitem {A : Type} (l : list A) (i : Z) (x : A) : Outcome (list A) :=
  let n := Z.of_nat (length l) in
  let j := if i <? 0 then n + i else i in
  if (0 <=? j) && (j <? n) then Ok (<[Z.to_nat j := x]> l) else Raise IndexError.

(** [l.pop()]: the list without its last item; [IndexError] on []. *)
Definition list_pop {A : Type} (l : list A) : Outcome (list A) :=
  match l with
  | [] => Raise IndexError
  | _ => Ok (removelast l)
  end.

(** [not l] *)
Definition list_is_empty {A : Type} (l : list A) : bool :=
  match l with [] => true | _ => false end.

(** ** NumPy arrays of two dimensions *)

Record ndarray (A : Type) := mk_ndarray { shape : Z * Z; items : list (list A) }.
Arguments mk_ndarray {A} shape items.
Arguments shape {A} _.
Arguments items {A} _.

(** How NumPy reads an index [i] on an axis of length [n]: offsets
    [0 .. n-1] as they are, [-n .. -1] from the back, anything else is an
    [IndexError] ([None]). *)
Definition np_index (n i : Z) : option nat :=
  if (0 <=? i) && (i <? n) then Some (Z.to_nat i)
  else if (- n <=? i) && (i <? 0) then Some (Z.to_nat (n + i))
  else None.

(** A checking rule used only to state that the wrap-around is never
    exercised: every index outside [0, n) is refused. *)
Definition strict_index (n i : Z) : option nat :=
  if (0 <=? i) && (i <? n) then Some (Z.to_nat i) else None.

(** [np.full(size, x)]; [np.zeros(size, dtype=bool)] is [np_full size false]. *)
Definition np_full {A : Type} (size : Z * Z) (x : A) : Outcome (ndarray A) :=
  if (size.1 <? 0) || (size.2 <? 0) then Raise (ValueError NegativeDimensions)
  else Ok (mk_ndarray size (replicate (Z.to_nat size.1) (replicate (Z.to_nat size.2) x))).

Definition np_zeros (size : Z * Z) : Outcome (ndarray bool) := np_full size false.

Section Indexed.
(** The rule that turns an index into an offset; the program runs with
    [np_index]. *)
Variable ix : Z -> Z -> option nat.

(** [a[i, j]] *)
Definition getitem {A : Type} (a : ndarray A) (pos : Z * Z) : Outcome A :=
  match ix (shape a).1 pos.1, ix (shape a).2 pos.2 with
  | Some r, Some c =>
      match items a !! r with
      | Some row => match row !! c with Some x => Ok x | None => Raise IndexError end
      | None => Raise IndexError
      end
  | _, _ => Raise IndexError
  end.

(** [a[i, j] = x] *)
Definition setitem {A : Type} (a : ndarray A) (pos : Z * Z) (x : A) : Outcome (ndarray A) :=
  match ix (shape a).1 pos.1, ix (shape a).2 pos.2 with
  | Some r, Some c =>
      match items a !! r with
      | Some row =>
          if decide (c < length row)%nat
          then Ok (mk_ndarray (shape a) (<[r := <[c := x]> row]> (items a)))
          else Raise IndexError
      | None => Raise IndexError
      end
  | _, _ => Raise IndexError
  end.

(** ** The recursive strategy *)

(** The two objects [_recursive] mutates in place. *)
Record SearchState := mk_state { visited : ndarray bool; path : list GridPt }.

(** [for δ in dirns: if call(next_pos): return True]; the flag tells
    whether the loop was left by that [return]. *)
Fixpoint for_dirns (call : GridPt -> SearchState -> Outcome (bool * SearchState))
    (pos : GridPt) (dirns : list GridPt) (st : SearchState)
    : Outcome (bool * SearchState) :=
  match dirns with
  | [] => Ok (false, st)
  | δ :: rest =>
      let next_pos := (pos.1 + δ.1, pos.2 + δ.2) in
      let* r := call next_pos st in
      if r.1 then Ok (true, r.2) else for_dirns call pos rest r.2
  end.

(** [_recursive(pos, end_pos, visited, path)].  [depth] is the number of
    calls of [_recursive] that the interpreter still lets nest below this
    one and run: what [sys.getrecursionlimit()] (1000 unless changed,
    and the program does not change it) leaves once the frames in use,
    and the frame that every call needs for its own call of [valid_pos],
    are taken off.  A call that needs one more nested call ends in
    [RecursionError]: CPython raises it at the call that would pass the
    limit, before that call has touched [visited] or [path], and no
    statement of the program catches it. *)
Fixpoint _recursive (depth : nat) (pos end_pos : GridPt) (st : SearchState)
    : Outcome (bool * SearchState) :=
  let size := shape (visited st) in
  if negb (valid_pos pos size) then Ok (false, st) else
  let* seen := getitem (visited st) pos in
  if seen : bool then Ok (false, st) else
  let* visited1 := setitem (visited st) pos true in
  let path1 := path st ++ [pos] in
  if pt_eqb pos end_pos && (Z.of_nat (length path1) =? size.1 * size.2)
  then Ok (true, mk_state visited1 path1)
  else
    match depth with
    | O => Raise RecursionError
    | S d =>
        let* r := for_dirns (fun p s => _recursive d p end_pos s) pos _search_dirns
                    (mk_state visited1 path1) in
        if r.1 then Ok (true, r.2) else
        let* visited2 := setitem (visited r.2) pos false in
        let* path2 := list_pop (path r.2) in
        Ok (false, mk_state visited2 path2)
    end.

(** ** The non-recursive strategy *)

Record LoopState := mk_loop {
  l_path : list GridPt;
  path_dirn : list Z;
  l_visited : ndarray bool }.

Inductive Ctl :=
| Continue (s : LoopState)       (* back to [while True] *)
| Return (p : list GridPt).      (* [return p] *)

Definition n_dirns : Z := Z.of_nat (length _search_dirns).

(** [path_dirn[-1] += 1; continue] *)
Definition advance (s : LoopState) : Outcome Ctl :=
  let* d := list_getitem (path_dirn s) (-1) in
  let* ds := list_setitem (path_dirn s) (-1) (d + 1) in
  Ok (Continue (mk_loop (l_path s) ds (l_visited s))).

(** One pass through the body of [while True]. *)
Definition loop_body (end_pos size : GridPt) (s : LoopState) : Outcome Ctl :=
  let* pos := list_getitem (l_path s) (-1) in
  if pt_eqb pos end_pos && (Z.of_nat (length (l_path s)) =? size.1 * size.2)
  then Ok (Return (l_path s))
  else
    let* d := list_getitem (path_dirn s) (-1) in
    if n_dirns <=? d then
      let* visited1 := setitem (l_visited s) pos false in
      let* path1 := list_pop (l_path s) in
      let* dirn1 := list_pop (path_dirn s) in
      if list_is_empty path1 then Ok (Return [])
      else advance (mk_loop path1 dirn1 visited1)
    else
      let* δ := list_getitem _search_dirns d in
      let next_pos := (pos.1 + δ.1, pos.2 + δ.2) in
      if negb (valid_pos next_pos size) then advance s else
      let* seen := getitem (l_visited s) next_pos in
      if seen : bool then advance s else
      let path1 := l_path s ++ [next_pos] in
      let dirn1 := path_dirn s ++ [0] in
      let* visited1 := setitem (l_visited s) next_pos true in
      Ok (Continue (mk_loop path1 dirn1 visited1)).

(** [n] passes, stopping at the first [return]. *)
Fixpoint iterate (n : nat) (body : LoopState -> Outcome Ctl) (s : LoopState)
    : Outcome Ctl :=
  match n with
  | O => Ok (Continue s)
  | S n' =>
      let* c := body s in
      match c with
      | Continue s' => iterate n' body s'
      | Return p => Ok (Return p)
      end
  end.

(** Up to [2^k] passes, stopping at the first [return]. *)
Fixpoint iterate_pow2 (k : nat) (body : LoopState -> Outcome Ctl) (s : LoopState)
    : Outcome Ctl :=
  match k with
  | O => body s
  | S k' =>
      let* c := iterate_pow2 k' body s in
      match c with
      | Continue s' => iterate_pow2 k' body s'
      | Return p => Ok (Return p)
      end
  end.

(** [while True: body] with room for [2^k] passes. *)
Definition while_true (k : nat) (body : LoopState -> Outcome Ctl) (s : LoopState)
    : Outcome (list GridPt) :=
  let* c := iterate_pow2 k body s in
  match c with
  | Return p => Ok p
  | Continue _ => OutOfFuel
  end.

(** The loop is given [4^(rows*cols+1)] passes. *)
Definition loop_budget (size : GridPt) : nat :=
  (2 * (Z.to_nat (size.1 * size.2) + 1))%nat.

(** [_non_recursive(start_pos, end_pos, size)] *)
Definition _non_recursive (start_pos end_pos size : GridPt) : Outcome (list GridPt) :=
  let path := [start_pos] in
  let path_dirn := [0] in
  let* visited0 := np_zeros size in
  let* visited1 := setitem visited0 start_pos true in
  while_true (loop_budget size) (loop_body end_pos size)
    (mk_loop path path_dirn visited1).

(** ** The entry point *)

(** [solve_snake(start_pos, end_pos, size, method)]; Python's default
    for [method] is ['recursive'].  [limit] is not an argument of the
    Python function: it is what the interpreter grants the call, the
    number of calls of [_recursive] that may nest below the first.  The
    calls that [solve_snake] makes itself ([valid_pos], the first call
    of [_recursive], [_non_recursive] and its calls of [valid_pos]) nest
    two frames deep and are taken to fit. *)
Definition solve_snake (limit : nat) (start_pos end_pos size : GridPt) (method : string)
    : Outcome (list GridPt) :=
  if negb (valid_pos start_pos size)
  then Raise (ValueError (InvalidStartPosition start_pos))
  else if negb (valid_pos end_pos size)
  then Raise (ValueError (InvalidEndPosition end_pos))
  else if pt_eqb start_pos end_pos
  then Raise (ValueError StartEqualsEnd)
  else if String.eqb method "recursive" then
    let* visited0 := np_zeros size in
    let path0 := [] in
    let* r := _recursive limit start_pos end_pos (mk_state visited0 path0) in
    Ok (if r.1 then path r.2 else [])
  else if String.eqb method "non-recursive" then
    _non_recursive start_pos end_pos size
  else Raise (ValueError (UnknownMethod method)).

End Indexed.

(** ** Notions used in the statements *)

(** An index rule is lawful when it reads the offsets [0 .. n-1] as they
    are; both [np_index] and [strict_index] do. *)
Definition lawful (ix : Z -> Z -> option nat) : Prop :=
  forall n i, 0 <= i < n -> ix n i = Some (Z.to_nat i).

(** The item lists agree with the shape. *)
Definition well_shaped {A : Type} (a : ndarray A) : Prop :=
  length (items a) = Z.to_nat (shape a).1 /\
  Forall (fun row => length row = Z.to_nat (shape a).2) (items a).

(** The item at a position with non-negative coordinates. *)
Definition peek {A : Type} (a : ndarray A) (pos : Z * Z) : option A :=
  match items a !! Z.to_nat pos.1 with
  | Some row => row !! Z.to_nat pos.2
  | None => None
  end.

(** The array with the item at a position replaced. *)
Definition poke {A : Type} (a : ndarray A) (pos : Z * Z) (x : A) : ndarray A :=
  match items a !! Z.to_nat pos.1 with
  | Some row =>
      mk_ndarray (shape a) (<[Z.to_nat pos.1 := <[Z.to_nat pos.2 := x]> row]> (items a))
  | None => a
  end.


(** [b] lies one step from [a] in one of the four directions. *)
Definition unit_step (a b : GridPt) : Prop :=
  exists δ, δ ∈ _search_dirns /\ b = (a.1 + δ.1, a.2 + δ.2).

(** Every cell of the sequence is one unit step from the one before. *)
Fixpoint chain (p : list GridPt) : Prop :=
  match p with
  | a :: (b :: _) as rest => unit_step a b /\ chain rest
  | _ => True
  end.

(** A Hamiltonian path of the grid from [start_pos] to [end_pos]. *)
Definition hamiltonian (size start_pos end_pos : GridPt) (p : list GridPt) : Prop :=
  Z.of_nat (length p) = size.1 * size.2 /\
  head p = Some start_pos /\
  last p = Some end_pos /\
  NoDup p /\
  (forall c, valid_pos c size = true -> c ∈ p) /\
  chain p.

(** The cells of the grid, row by row. *)
Definition all_cells (size : GridPt) : list GridPt :=
  list_prod (seqZ 0 size.1) (seqZ 0 size.2).

(** What holds of the array and the path between the steps of a search:
    the array has the shape of the grid, the path is made of distinct
    cells of the grid, and a cell is marked exactly when it is on the
    path. *)
Record search_inv (size : GridPt) (v : ndarray bool) (p : list GridPt) : Prop :=
  mk_search_inv {
    inv_shape : shape v = size;
    inv_well_shaped : well_shaped v;
    inv_valid : Forall (fun c => valid_pos c size = true) p;
    inv_nodup : NoDup p;
    inv_marks : forall c, valid_pos c size = true -> (peek v c = Some true <-> c ∈ p) }.

(** The sequences a search looks for: they fill the grid with distinct
    cells, move by unit steps and stop at [end_pos]. *)
Definition goal (size end_pos : GridPt) (q : list GridPt) : Prop :=
  Z.of_nat (length q) = size.1 * size.2 /\
  last q = Some end_pos /\
  NoDup q /\
  Forall (fun c => valid_pos c size = true) q /\
  chain q.

(** The success test at the top of the loop and after a commit:
    [pos == end_pos and len(path) == size[0] * size[1]]. *)
Definition arrived (size end_pos pos : GridPt) (p : list GridPt) : bool :=
  pt_eqb pos end_pos && (Z.of_nat (length p) =? size.1 * size.2).

(** Passes of the loop that simulate one call with [d] nested calls
    below it. *)
Fixpoint call_passes (d : nat) : nat :=
  match d with
  | O => 2
  | S d' => 4 * call_passes d' + 2
  end.

(** What holds of the three objects of [_non_recursive] at the top of
    its loop: the invariant of the search, a path that is not empty, and
    one direction index, not negative, for every cell of the path. *)
Definition loop_inv (size : GridPt) (s : LoopState) : Prop :=
  search_inv size (l_visited s) (l_path s) /\
  l_path s <> [] /\
  length (path_dirn s) = length (l_path s) /\
  Forall (fun d => 0 <= d) (path_dirn s).

(** ** The recursive search under observation *)

(** [_recursive] once more, statement by statement, returning beside its
    outcome what an observer sees between its steps: the array and the
    path at the entry of every call and at its return, in the order of
    the run.  The outcome is that of [_recursive] itself. *)
Definition exit_of (r : Outcome (bool * SearchState)) : list SearchState :=
  match r with
  | Ok r => [r.2]
  | _ => []
  end.

Fixpoint for_dirns_obs
    (call : GridPt -> SearchState -> list SearchState * Outcome (bool * SearchState))
    (pos : GridPt) (dirns : list GridPt) (st : SearchState)
    : list SearchState * Outcome (bool * SearchState) :=
  match dirns with
  | [] => ([], Ok (false, st))
  | δ :: rest =>
      let next_pos := (pos.1 + δ.1, pos.2 + δ.2) in
      let made := call next_pos st in
      match made.2 with
      | Ok r =>
          if r.1 then (made.1, Ok (true, r.2))
          else
            let more := for_dirns_obs call pos rest r.2 in
            (made.1 ++ more.1, more.2)
      | Raise e => (made.1, Raise e)
      | OutOfFuel => (made.1, OutOfFuel)
      end
  end.

Fixpoint _recursive_obs (ix : Z -> Z -> option nat) (depth : nat)
    (pos end_pos : GridPt) (st : SearchState)
    : list SearchState * Outcome (bool * SearchState) :=
  let size := shape (visited st) in
  let inner : list SearchState * Outcome (bool * SearchState) :=
    if negb (valid_pos pos size) then ([], Ok (false, st)) else
    match getitem ix (visited st) pos with
    | Ok true => ([], Ok (false, st))
    | Ok false =>
        match setitem ix (visited st) pos true with
        | Ok visited1 =>
            let path1 := path st ++ [pos] in
            if pt_eqb pos end_pos && (Z.of_nat (length path1) =? size.1 * size.2)
            then ([], Ok (true, mk_state visited1 path1))
            else
              match depth with
              | O => ([], Raise RecursionError)
              | S d =>
                  let nested :=
                    for_dirns_obs (fun p s => _recursive_obs ix d p end_pos s) pos
                      _search_dirns (mk_state visited1 path1) in
                  (nested.1,
                   let* r := nested.2 in
                   if r.1 then Ok (true, r.2) else
                   let* visited2 := setitem ix (visited r.2) pos false in
                   let* path2 := list_pop (path r.2) in
                   Ok (false, mk_state visited2 path2))
              end
        | Raise e => ([], Raise e)
        | OutOfFuel => ([], OutOfFuel)
        end
    | Raise e => ([], Raise e)
    | OutOfFuel => ([], OutOfFuel)
    end in
  (st :: inner.1 ++ exit_of inner.2, inner.2).

(** [visited[c] == True] exactly for the cells [c] on the path. *)
Definition marks_agree (size : GridPt) (v : ndarray bool) (p : list GridPt) : Prop :=
  forall c, (valid_pos c size = true /\ peek v c = Some true) <-> c ∈ p.

(** ** The path renderer *)

(** A character of a NumPy array of [dtype=str] is its Unicode code
    point; a line of text is the list of its characters. *)
Abbreviation char := N.

Definition chr_space : char := 32%N.       (* ' ' *)
Definition chr_point : char := 9675%N.     (* U+25CB, the white circle *)
Definition chr_S : char := 83%N.           (* 'S' *)
Definition chr_E : char := 69%N.           (* 'E' *)
Definition chr_down : char := 8595%N.      (* U+2193 *)
Definition chr_up : char := 8593%N.        (* U+2191 *)
Definition chr_right : char := 8594%N.     (* U+2192 *)
Definition chr_left : char := 8592%N.      (* U+2190 *)

(** [a[0:rows:row_step, 0:cols:col_step] = x] on an array of [rows] by
    [cols] items: every [row_step]-th row and [col_step]-th column from
    the first. *)
Definition set_strided {A : Type} (a : ndarray A) (row_step col_step : nat) (x : A)
    : ndarray A :=
  mk_ndarray (shape a)
    (imap (fun r row =>
             if (r mod row_step =? 0)%nat
             then imap (fun c y => if (c mod col_step =? 0)%nat then x else y) row
             else row)
          (items a)).

(** [match δ: case (1, 0): chrs[symbol_pos] = ...]: the arrow of the
    step when it is one of the four directions, nothing otherwise. *)
Definition write_arrow (ix : Z -> Z -> option nat) (chrs : ndarray char)
    (δ symbol_pos : Z * Z) : Outcome (ndarray char) :=
  match δ with
  | (1, 0) => setitem ix chrs symbol_pos chr_down
  | (-1, 0) => setitem ix chrs symbol_pos chr_up
  | (0, 1) => setitem ix chrs symbol_pos chr_right
  | (0, -1) => setitem ix chrs symbol_pos chr_left
  | _ => Ok chrs
  end.

(** [for pt1, pt2 in zip(path, path[1:])]: the arrow of every step is
    written between its two points. *)
Fixpoint draw_steps (ix : Z -> Z -> option nat) (chrs : ndarray char)
    (steps : list (GridPt * GridPt)) : Outcome (ndarray char) :=
  match steps with
  | [] => Ok chrs
  | (pt1, pt2) :: rest =>
      let δ := (pt2.1 - pt1.1, pt2.2 - pt1.2) in
      let symbol_pos := (pt1.1 * 2 + δ.1, pt1.2 * 4 + δ.2 * 2) in
      let* chrs1 := write_arrow ix chrs δ symbol_pos in
      draw_steps ix chrs1 rest
  end.

(** [print_path(path, size)]; the result is what it prints, line by
    line: an empty line, the rows of the character grid, an empty line. *)
Definition print_path (ix : Z -> Z -> option nat) (path : list GridPt) (size : GridPt)
    : Outcome (list (list char)) :=
  let chrs_size := (2 * size.1 - 1, 4 * size.2 - 3) in
  let* chrs0 := np_full chrs_size chr_space in
  let chrs1 := set_strided chrs0 2 4 chr_point in
  let* first := list_getitem path 0 in
  let* chrs2 := setitem ix chrs1 (first.1 * 2, first.2 * 4) chr_S in
  let* last := list_getitem path (-1) in
  let* chrs3 := setitem ix chrs2 (last.1 * 2, last.2 * 4) chr_E in
  let* chrs4 := draw_steps ix chrs3 (zip path (tail path)) in
  Ok ([[]] ++ items chrs4 ++ [[]]).

(** How often a character stands in the lines of a grid. *)
Definition count_char (x : char) (lines : list (list char)) : nat :=
  count_occ N.eq_dec (concat lines) x.

(** The places of the grid points in the character grid: even rows,
    every fourth column. *)
Definition on_lattice (p : Z * Z) : Prop := p.1 mod 2 = 0 /\ p.2 mod 4 = 0.

(** What holds of the character grid while the arrows are drawn: it has
    its shape, and an 'S' or an 'E' stands on the lattice only. *)
Definition drawn_inv (chrs_size : Z * Z) (chrs : ndarray char) : Prop :=
  shape chrs = chrs_size /\
  well_shaped chrs /\
  forall p, valid_pos p chrs_size = true ->
    peek chrs p = Some chr_S \/ peek chrs p = Some chr_E -> on_lattice p.

(** ** Notions used to describe the rendering *)

(** The place between two points where [print_path] writes the symbol of
    the step from the first to the second. *)
Definition symbol_pos (pt1 pt2 : GridPt) : Z * Z :=
  (pt1.1 * 2 + (pt2.1 - pt1.1), pt1.2 * 4 + (pt2.2 - pt1.2) * 2).

(** The arrow [print_path] has for a difference of two points. *)
Definition arrow_of (δ : Z * Z) : option char :=
  match δ with
  | (1, 0) => Some chr_down
  | (-1, 0) => Some chr_up
  | (0, 1) => Some chr_right
  | (0, -1) => Some chr_left
  | _ => None
  end.

(** The arrow that the last of the steps writing at [q] writes there. *)
Fixpoint last_arrow (steps : list (GridPt * GridPt)) (q : Z * Z) : option char :=
  match steps with
  | [] => None
  | (pt1, pt2) :: rest =>
      match last_arrow rest q with
      | Some y => Some y
      | None =>
          if decide (symbol_pos pt1 pt2 = q)
          then arrow_of (pt2.1 - pt1.1, pt2.2 - pt1.2)
          else None
      end
  end.

(** ** Notions used to describe the order of the search *)

(** The place in [dirns] of the first direction that leads from [a] to
    [b]; the length of [dirns] when none does. *)
Fixpoint rank_in (dirns : list GridPt) (a b : GridPt) : nat :=
  match dirns with
  | [] => 0
  | δ :: rest =>
      if pt_eqb b (a.1 + δ.1, a.2 + δ.2) then 0 else S (rank_in rest a b)
  end.

(** The place of the step from [a] to [b] in the order in which the
    search tries the directions. *)
Definition step_rank (a b : GridPt) : nat := rank_in _search_dirns a b.

(** [p] comes before [q] in the order of the search: where the two part,
    [p] takes the direction that is tried first. *)
Definition tried_earlier (p q : list GridPt) : Prop :=
  exists pre a b b' r r',
    p = pre ++ a :: b :: r /\ q = pre ++ a :: b' :: r' /\
    (step_rank a b < step_rank a b')%nat.

(** ** The two stacks of the loop *)

(** [path_dirn] records how [path] was built: the index kept for a cell
    below the top is the index in [_search_dirns] of the step to the next
    cell, and the index kept for the top, the next direction to try,
    lies between [0] and [n_dirns]. *)
Definition frames_encode (p : list GridPt) (ds : list Z) : Prop :=
  length ds = length p /\
  (forall d, last ds = Some d -> 0 <= d <= n_dirns) /\
  (forall (i : nat) a b d,
     p !! i = Some a -> p !! S i = Some b -> ds !! i = Some d ->
     0 <= d < n_dirns /\
     exists δ, list_getitem _search_dirns d = Ok δ /\ b = (a.1 + δ.1, a.2 + δ.2)).

(** ** The grid of one row *)

(** The cells [(0, 0), (0, 1), ..., (0, n - 1)] of a grid of one row,
    from left to right. *)
Definition row_line (n : Z) : list GridPt := (fun j => (0, j)) <$> seqZ 0 n.

(** ** Room for the recursion *)

(** The limit lets the method run to its end on a grid of this size: the
    recursive method may nest a call for every cell, the non-recursive
    method nests none. *)
Definition room_for (limit : nat) (size : GridPt) (method : string) : Prop :=
  String.eqb method "recursive" = true -> (Z.to_nat (size.1 * size.2) <= limit)%nat.
(** * Elementary facts *)

Lemma pt_eqb_eq (a b : GridPt) : pt_eqb a b = true <-> a = b.
Proof.
  unfold pt_eqb. destruct a as [a1 a2], b as [b1 b2]. simpl.
  rewrite andb_true_iff, !Z.eqb_eq. split.
  - intros [-> ->]. reflexivity.
  - intros [= -> ->]. split; reflexivity.
Qed.

Lemma pt_eqb_neq (a b : GridPt) : pt_eqb a b = false <-> a <> b.
Proof.
  rewrite <- pt_eqb_eq. destruct (pt_eqb a b); split; congruence.
Qed.

Lemma valid_pos_spec (pos size : GridPt) :
  valid_pos pos size = true <-> (0 <= pos.1 < size.1 /\ 0 <= pos.2 < size.2).
Proof.
  unfold valid_pos. rewrite !andb_true_iff, !Z.leb_le, !Z.ltb_lt. tauto.
Qed.

Lemma list_getitem_last {A : Type} (l : list A) (x : A) :
  list_getitem (l ++ [x]) (-1) = Ok x.
Proof.
  unfold list_getitem. rewrite length_app. simpl.
  replace (Z.of_nat (length l + 1)%nat + -1) with (Z.of_nat (length l)) by lia.
  replace ((0 <=? Z.of_nat (length l)) && (Z.of_nat (length l) <? Z.of_nat (length l + 1)%nat))
    with true by (symmetry; apply andb_true_iff; split; [apply Z.leb_le | apply Z.ltb_lt]; lia).
  rewrite Nat2Z.id, list_lookup_middle by reflexivity. reflexivity.
Qed.

Lemma list_setitem_last {A : Type} (l : list A) (x y : A) :
  list_setitem (l ++ [x]) (-1) y = Ok (l ++ [y]).
Proof.
  unfold list_setitem. rewrite length_app. simpl.
  replace (Z.of_nat (length l + 1)%nat + -1) with (Z.of_nat (length l)) by lia.
  replace ((0 <=? Z.of_nat (length l)) && (Z.of_nat (length l) <? Z.of_nat (length l + 1)%nat))
    with true by (symmetry; apply andb_true_iff; split; [apply Z.leb_le | apply Z.ltb_lt]; lia).
  rewrite Nat2Z.id. f_equal.
  replace (length l) with (length l + 0)%nat at 1 by lia.
  rewrite insert_app_r. reflexivity.
Qed.

Lemma list_pop_snoc {A : Type} (l : list A) (x : A) : list_pop (l ++ [x]) = Ok l.
Proof.
  unfold list_pop. rewrite removelast_last. destruct l; reflexivity.
Qed.

Lemma search_dirns_getitem (d : Z) :
  0 <= d < n_dirns ->
  exists δ, list_getitem _search_dirns d = Ok δ /\ _search_dirns !! Z.to_nat d = Some δ.
Proof.
  unfold n_dirns. simpl. intros Hd.
  assert (d = 0 \/ d = 1 \/ d = 2 \/ d = 3) as [-> | [-> | [-> | ->]]] by lia;
    eexists; split; reflexivity.
Qed.

(** ** Arrays read and written inside their bounds *)

Lemma np_index_lawful : lawful np_index.
Proof.
  intros n i Hi. unfold np_index.
  destruct (Z.leb_spec 0 i), (Z.ltb_spec i n); simpl; try lia. reflexivity.
Qed.

Lemma strict_index_lawful : lawful strict_index.
Proof.
  intros n i Hi. unfold strict_index.
  destruct (Z.leb_spec 0 i), (Z.ltb_spec i n); simpl; try lia. reflexivity.
Qed.

Lemma shape_poke {A : Type} (a : ndarray A) pos x : shape (poke a pos x) = shape a.
Proof. unfold poke. destruct (items a !! _); reflexivity. Qed.

Lemma well_shaped_row {A : Type} (a : ndarray A) pos :
  well_shaped a -> valid_pos pos (shape a) = true ->
  exists row, items a !! Z.to_nat pos.1 = Some row /\
    length row = Z.to_nat (shape a).2 /\ (Z.to_nat pos.2 < length row)%nat.
Proof.
  intros [Hlen Hrows] Hv. apply valid_pos_spec in Hv.
  destruct (lookup_lt_is_Some_2 (items a) (Z.to_nat pos.1)) as [row Hrow]; [lia|].
  exists row. split; [exact Hrow|].
  rewrite Forall_forall in Hrows.
  assert (length row = Z.to_nat (shape a).2) as Hr
    by (apply Hrows, list_elem_of_lookup; eauto).
  split; [exact Hr | lia].
Qed.

Lemma peek_valid {A : Type} (a : ndarray A) pos :
  well_shaped a -> valid_pos pos (shape a) = true -> is_Some (peek a pos).
Proof.
  intros Hw Hv. destruct (well_shaped_row a pos Hw Hv) as (row & Hrow & _ & Hlt).
  unfold peek. rewrite Hrow. apply lookup_lt_is_Some_2, Hlt.
Qed.

Lemma getitem_valid {A : Type} ix (a : ndarray A) pos :
  lawful ix -> well_shaped a -> valid_pos pos (shape a) = true ->
  exists x, peek a pos = Some x /\ getitem ix a pos = Ok x.
Proof.
  intros Hix Hw Hv. destruct (peek_valid a pos Hw Hv) as [x Hx]. exists x.
  split; [exact Hx|]. unfold getitem, peek in *.
  apply valid_pos_spec in Hv. destruct Hv as [H1 H2].
  rewrite (Hix _ _ H1), (Hix _ _ H2).
  destruct (items a !! Z.to_nat pos.1); [|discriminate]. rewrite Hx. reflexivity.
Qed.

Lemma setitem_valid {A : Type} ix (a : ndarray A) pos x :
  lawful ix -> well_shaped a -> valid_pos pos (shape a) = true ->
  setitem ix a pos x = Ok (poke a pos x).
Proof.
  intros Hix Hw Hv. destruct (well_shaped_row a pos Hw Hv) as (row & Hrow & _ & Hlt).
  unfold setitem, poke. apply valid_pos_spec in Hv. destruct Hv as [H1 H2].
  rewrite (Hix _ _ H1), (Hix _ _ H2), Hrow.
  destruct (decide _); [reflexivity | contradiction].
Qed.

Lemma well_shaped_poke {A : Type} (a : ndarray A) pos x :
  well_shaped a -> well_shaped (poke a pos x).
Proof.
  intros [Hlen Hrows]. unfold poke, well_shaped.
  destruct (items a !! Z.to_nat pos.1) as [row|] eqn:Hrow; [|split; assumption].
  simpl. rewrite length_insert. split; [exact Hlen|].
  apply Forall_insert; [exact Hrows|]. rewrite length_insert.
  rewrite Forall_forall in Hrows. apply Hrows, list_elem_of_lookup. eauto.
Qed.

Lemma peek_poke_eq {A : Type} (a : ndarray A) pos x :
  well_shaped a -> valid_pos pos (shape a) = true -> peek (poke a pos x) pos = Some x.
Proof.
  intros Hw Hv. destruct (well_shaped_row a pos Hw Hv) as (row & Hrow & _ & Hlt).
  unfold peek, poke. rewrite Hrow. simpl.
  rewrite list_lookup_insert_eq by (apply lookup_lt_is_Some_1; eauto).
  apply list_lookup_insert_eq, Hlt.
Qed.

Lemma peek_poke_ne {A : Type} (a : ndarray A) p q x :
  0 <= p.1 -> 0 <= p.2 -> 0 <= q.1 -> 0 <= q.2 -> p <> q ->
  peek (poke a p x) q = peek a q.
Proof.
  intros Hp1 Hp2 Hq1 Hq2 Hne. unfold peek, poke.
  destruct (items a !! Z.to_nat p.1) as [row|] eqn:Hrow; [|reflexivity]. simpl.
  destruct (decide (Z.to_nat p.1 = Z.to_nat q.1)) as [Heq | Hr].
  - rewrite <- Heq, Hrow.
    rewrite list_lookup_insert_eq by (apply lookup_lt_is_Some_1; eauto).
    apply list_lookup_insert_ne. intros Hc. apply Hne.
    destruct p, q; simpl in *. f_equal; lia.
  - rewrite list_lookup_insert_ne by exact Hr. reflexivity.
Qed.

(** Writing back what was there undoes a write. *)
Lemma poke_restore {A : Type} (a : ndarray A) pos x y :
  peek a pos = Some x -> poke (poke a pos y) pos x = a.
Proof.
  unfold peek, poke. destruct a as [s its]. simpl.
  destruct (its !! Z.to_nat pos.1) as [row|] eqn:Hrow; [|discriminate].
  intros Hx. simpl.
  rewrite list_lookup_insert_eq by (apply lookup_lt_is_Some_1; eauto).
  rewrite list_insert_insert_eq, list_insert_insert_eq.
  rewrite (list_insert_id row) by exact Hx.
  rewrite list_insert_id by exact Hrow. reflexivity.
Qed.

Lemma np_full_ok {A : Type} (size : Z * Z) (x : A) :
  0 <= size.1 -> 0 <= size.2 ->
  exists a, np_full size x = Ok a /\ shape a = size /\ well_shaped a /\
    forall pos, valid_pos pos size = true -> peek a pos = Some x.
Proof.
  intros H1 H2. unfold np_full.
  destruct (Z.ltb_spec size.1 0), (Z.ltb_spec size.2 0); try lia. simpl.
  eexists. split; [reflexivity|]. split; [reflexivity|]. split.
  - split; simpl; [apply length_replicate|].
    apply Forall_forall. intros row Hrow.
    apply elem_of_replicate in Hrow as [-> _]. apply length_replicate.
  - intros pos Hv. apply valid_pos_spec in Hv. unfold peek. simpl.
    rewrite lookup_replicate_2 by lia. apply lookup_replicate_2. lia.
Qed.

(** ** Counting the cells of the grid *)

Lemma elem_of_all_cells (size c : GridPt) : c ∈ all_cells size <-> valid_pos c size = true.
Proof.
  unfold all_cells. destruct c as [r k].
  rewrite list_elem_of_In, in_prod_iff, <- !list_elem_of_In, !elem_of_seqZ, valid_pos_spec.
  simpl. lia.
Qed.

Lemma length_all_cells (size : GridPt) :
  0 <= size.1 -> 0 <= size.2 -> Z.of_nat (length (all_cells size)) = size.1 * size.2.
Proof.
  intros H1 H2. unfold all_cells. rewrite length_prod, !length_seqZ. lia.
Qed.

Lemma NoDup_all_cells (size : GridPt) : NoDup (all_cells size).
Proof.
  unfold all_cells. generalize (seqZ 0 size.2) (NoDup_seqZ 0 size.2).
  generalize (seqZ 0 size.1) (NoDup_seqZ 0 size.1).
  intros l Hl k Hk. induction Hl as [|a l Ha Hl IH]; simpl; [constructor|].
  apply NoDup_app. split; [|split; [|exact IH]].
  - clear -Hk. induction Hk as [|b k Hb Hk IH]; simpl; constructor; [|exact IH].
    rewrite list_elem_of_In, in_map_iff. intros (b' & [= ->] & Hin).
    apply Hb, list_elem_of_In, Hin.
  - intros [a' b'] H1 H2. apply list_elem_of_In, in_map_iff in H1 as (b'' & [= -> ->] & _).
    apply list_elem_of_In, in_prod_iff in H2 as [H2 _]. apply Ha, list_elem_of_In, H2.
Qed.

Lemma valid_cells_submseteq (size : GridPt) (l : list GridPt) :
  NoDup l -> Forall (fun c => valid_pos c size = true) l -> l ⊆+ all_cells size.
Proof.
  intros Hnd Hv. apply NoDup_submseteq; [exact Hnd|].
  intros c Hc. apply elem_of_all_cells. rewrite Forall_forall in Hv. auto.
Qed.

(** Distinct cells of the grid are at most [rows * cols]. *)
Lemma valid_cells_bound (size : GridPt) (l : list GridPt) :
  0 <= size.1 -> 0 <= size.2 ->
  NoDup l -> Forall (fun c => valid_pos c size = true) l ->
  Z.of_nat (length l) <= size.1 * size.2.
Proof.
  intros H1 H2 Hnd Hv. rewrite <- length_all_cells by assumption.
  apply inj_le, submseteq_length, valid_cells_submseteq; assumption.
Qed.

(** [rows * cols] distinct cells of the grid are all of them. *)
Lemma valid_cells_full (size : GridPt) (l : list GridPt) :
  0 <= size.1 -> 0 <= size.2 ->
  NoDup l -> Forall (fun c => valid_pos c size = true) l ->
  Z.of_nat (length l) = size.1 * size.2 ->
  forall c, valid_pos c size = true -> c ∈ l.
Proof.
  intros H1 H2 Hnd Hv Hlen c Hc.
  assert (l ≡ₚ all_cells size) as Hp.
  { apply submseteq_length_Permutation; [apply valid_cells_submseteq; assumption|].
    apply Nat2Z.inj_le. rewrite length_all_cells by assumption. lia. }
  rewrite Hp. apply elem_of_all_cells, Hc.
Qed.

(** A sequence that holds every cell of the grid and is no longer than
    the grid holds nothing else. *)
Lemma cover_valid (size : GridPt) (q : list GridPt) :
  0 <= size.1 -> 0 <= size.2 ->
  Z.of_nat (length q) = size.1 * size.2 ->
  (forall c, valid_pos c size = true -> c ∈ q) ->
  Forall (fun c => valid_pos c size = true) q.
Proof.
  intros H1 H2 Hlen Hall.
  assert (all_cells size ≡ₚ q) as Hp.
  { apply submseteq_length_Permutation.
    - apply NoDup_submseteq.
      + apply NoDup_all_cells.
      + intros c Hc. apply Hall, elem_of_all_cells, Hc.
    - apply Nat2Z.inj_le. rewrite length_all_cells by assumption. lia. }
  apply Forall_forall. intros c Hc. rewrite <- Hp in Hc.
  apply elem_of_all_cells, Hc.
Qed.

(** ** Chains *)

Lemma chain_app_r (l m : list GridPt) : chain (l ++ m) -> chain m.
Proof.
  induction l as [|a l IH]; [auto|]. simpl.
  destruct (l ++ m) eqn:E.
  - destruct m; [auto | destruct l; discriminate].
  - intros [_ H]. apply IH, H.
Qed.

Lemma chain_cons (a b : GridPt) (l : list GridPt) :
  chain (a :: b :: l) <-> unit_step a b /\ chain (b :: l).
Proof. reflexivity. Qed.

Lemma unit_step_dirn (pos δ : GridPt) :
  δ ∈ _search_dirns -> unit_step pos (pos.1 + δ.1, pos.2 + δ.2).
Proof. intros H. exists δ. auto. Qed.

(** ** Sequencing *)

Lemma bind_Ok {A B : Type} (m : Outcome A) (k : A -> Outcome B) (b : B) :
  bind m k = Ok b <-> exists a, m = Ok a /\ k a = Ok b.
Proof.
  destruct m; simpl; split; try (intros (? & ? & ?)); try discriminate; eauto.
  congruence.
Qed.

(** ** The invariant of the search *)

Lemma valid_pos_nonneg (size pos : GridPt) :
  valid_pos pos size = true -> 0 <= size.1 /\ 0 <= size.2.
Proof. intros H. apply valid_pos_spec in H. lia. Qed.

Lemma search_inv_unmarked size v p pos :
  search_inv size v p -> valid_pos pos size = true ->
  peek v pos <> Some true -> peek v pos = Some false /\ pos ∉ p.
Proof.
  intros [Hs Hw _ _ Hm] Hv Hn. split.
  - destruct (peek_valid v pos Hw) as [[|] Hx]; congruence.
  - intros Hin. apply Hn, Hm; assumption.
Qed.

(** Marking a free cell and appending it keeps the invariant. *)
Lemma search_inv_commit size v p pos :
  search_inv size v p -> valid_pos pos size = true -> peek v pos <> Some true ->
  search_inv size (poke v pos true) (p ++ [pos]).
Proof.
  intros Hinv Hv Hn.
  destruct (search_inv_unmarked _ _ _ _ Hinv Hv Hn) as [_ Hnotin].
  destruct Hinv as [Hs Hw Hval Hnd Hm]. split.
  - rewrite shape_poke. exact Hs.
  - apply well_shaped_poke, Hw.
  - apply Forall_app. split; [exact Hval | repeat constructor; exact Hv].
  - apply NoDup_app. split; [exact Hnd|]. split.
    + intros x Hx Hx'. apply list_elem_of_singleton in Hx'. congruence.
    + apply NoDup_singleton.
  - intros c Hc. rewrite elem_of_app, list_elem_of_singleton.
    destruct (decide (c = pos)) as [-> | Hne].
    + rewrite peek_poke_eq by congruence. tauto.
    + apply valid_pos_spec in Hv, Hc as Hc'.
      rewrite peek_poke_ne by (try lia; congruence).
      rewrite (Hm c Hc). tauto.
Qed.

Lemma search_inv_zeros size v :
  shape v = size -> well_shaped v ->
  (forall pos, valid_pos pos size = true -> peek v pos = Some false) ->
  search_inv size v [].
Proof.
  intros Hs Hw Hz. split; try assumption.
  - constructor.
  - constructor.
  - intros c Hc. rewrite (Hz c Hc). split; [discriminate|].
    intros H. apply elem_of_nil in H. contradiction.
Qed.

(** ** The loop over the directions *)

Section ForDirns.
Variable call : GridPt -> SearchState -> Outcome (bool * SearchState).
Variable pos : GridPt.
Variable st : SearchState.
(** A call that fails leaves the array and the path as it found them. *)
Hypothesis call_restores : forall p s', call p st = Ok (false, s') -> s' = st.

Lemma for_dirns_false dirns st' :
  for_dirns call pos dirns st = Ok (false, st') ->
  st' = st /\
  forall δ, δ ∈ dirns -> call (pos.1 + δ.1, pos.2 + δ.2) st = Ok (false, st).
Proof.
  induction dirns as [|δ rest IH]; simpl.
  - intros [= <-]. split; [reflexivity|]. intros δ H. apply elem_of_nil in H. contradiction.
  - intros H. apply bind_Ok in H as ([b s] & Hc & H). simpl in H.
    destruct b; [discriminate|].
    pose proof (call_restores _ _ Hc) as ->.
    destruct (IH H) as [-> Hall]. split; [reflexivity|].
    intros δ' Hin. apply elem_of_cons in Hin as [-> | Hin]; auto.
Qed.

Lemma for_dirns_true dirns st' :
  for_dirns call pos dirns st = Ok (true, st') ->
  exists δ, δ ∈ dirns /\ call (pos.1 + δ.1, pos.2 + δ.2) st = Ok (true, st').
Proof.
  induction dirns as [|δ rest IH]; simpl; [discriminate|].
  intros H. apply bind_Ok in H as ([b s] & Hc & H). simpl in H.
  destruct b.
  - injection H as <-. exists δ. split; [left | exact Hc].
  - pose proof (call_restores _ _ Hc) as ->.
    destruct (IH H) as (δ' & Hin & Hc'). exists δ'. split; [right; exact Hin | exact Hc'].
Qed.

Lemma for_dirns_total dirns :
  (forall p, exists r, call p st = Ok r) ->
  exists r, for_dirns call pos dirns st = Ok r.
Proof.
  intros Htot. induction dirns as [|δ rest IH]; simpl; [eauto|].
  destruct (Htot (pos.1 + δ.1, pos.2 + δ.2)) as ([b s] & Hc). rewrite Hc. simpl.
  destruct b; [eauto|]. rewrite (call_restores _ _ Hc). exact IH.
Qed.

End ForDirns.

(** Two calls that agree give the same loop. *)
Section ForDirnsRules.
Variables call1 call2 : GridPt -> SearchState -> Outcome (bool * SearchState).
Variable pos : GridPt.
Variable st : SearchState.
Hypothesis calls_agree : forall p, call1 p st = call2 p st.
Hypothesis call_restores : forall p s', call1 p st = Ok (false, s') -> s' = st.

Lemma for_dirns_ext dirns :
  for_dirns call1 pos dirns st = for_dirns call2 pos dirns st.
Proof.
  induction dirns as [|δ rest IH]; cbn [for_dirns]; [reflexivity|].
  rewrite <- calls_agree.
  destruct (call1 (pos.1 + δ.1, pos.2 + δ.2) st) as [[b s] | e |] eqn:Hc;
    cbn [bind fst snd]; try reflexivity.
  destruct b; [reflexivity|]. rewrite (call_restores _ _ Hc). exact IH.
Qed.

Lemma for_dirns_no_raise dirns e :
  (forall p, call1 p st <> Raise e) -> for_dirns call1 pos dirns st <> Raise e.
Proof.
  intros Hno. induction dirns as [|δ rest IH]; cbn [for_dirns]; [discriminate|].
  destruct (call1 (pos.1 + δ.1, pos.2 + δ.2) st) as [[b s] | e' |] eqn:Hc;
    cbn [bind fst snd]; try discriminate.
  - destruct b; [discriminate|]. rewrite (call_restores _ _ Hc). exact IH.
  - intros [= ->]. exact (Hno _ Hc).
Qed.

End ForDirnsRules.

(** The loop over the directions with two calls, the second of which
    returns whatever the first returns. *)
Section ForDirnsDeeper.
Variables call1 call2 : GridPt -> SearchState -> Outcome (bool * SearchState).
Variable pos : GridPt.
Variable st : SearchState.
Hypothesis call_restores : forall p s', call1 p st = Ok (false, s') -> s' = st.

Lemma for_dirns_deeper dirns r :
  (forall p r', call1 p st = Ok r' -> call2 p st = Ok r') ->
  for_dirns call1 pos dirns st = Ok r -> for_dirns call2 pos dirns st = Ok r.
Proof.
  intros Hsame. induction dirns as [|δ rest IH]; cbn [for_dirns]; [auto|].
  intros H. apply bind_Ok in H as ([b s] & Hc & H). cbn [fst snd] in H.
  rewrite (Hsame _ _ Hc). cbn [bind fst snd].
  destruct b; [exact H|]. rewrite (call_restores _ _ Hc) in *. exact (IH H).
Qed.

(** When every call returns or ends in [RecursionError], so does the
    loop. *)
Lemma for_dirns_outcome dirns :
  (forall p, (exists r, call1 p st = Ok r) \/ call1 p st = Raise RecursionError) ->
  (exists r, for_dirns call1 pos dirns st = Ok r) \/
  for_dirns call1 pos dirns st = Raise RecursionError.
Proof.
  intros Hout. induction dirns as [|δ rest IH]; cbn [for_dirns]; [eauto|].
  destruct (Hout (pos.1 + δ.1, pos.2 + δ.2)) as [([b s] & Hc) | Hc]; rewrite Hc;
    cbn [bind fst snd]; [|right; reflexivity].
  destruct b; [eauto|]. rewrite (call_restores _ _ Hc). exact IH.
Qed.

End ForDirnsDeeper.

(** ** The recursive search *)

Arguments for_dirns : simpl never.

Section Recursive.
Variable ix : Z -> Z -> option nat.
Hypothesis ix_lawful : lawful ix.
Variable end_pos : GridPt.

(** The body of [_recursive] on an array that agrees with its shape:
    the index checks of NumPy are passed. *)
Lemma recursive_unfold (d : nat) (pos : GridPt) (st : SearchState) :
  well_shaped (visited st) ->
  _recursive ix d pos end_pos st =
    let size := shape (visited st) in
    if negb (valid_pos pos size) then Ok (false, st) else
    if bool_decide (peek (visited st) pos = Some true) then Ok (false, st) else
    let st1 := mk_state (poke (visited st) pos true) (path st ++ [pos]) in
    if pt_eqb pos end_pos && (Z.of_nat (length (path st ++ [pos])) =? size.1 * size.2)
    then Ok (true, st1)
    else
      match d with
      | O => Raise RecursionError
      | S d' =>
          let* r := for_dirns (fun p s => _recursive ix d' p end_pos s) pos
                      _search_dirns st1 in
          if r.1 then Ok (true, r.2) else
          let* visited2 := setitem ix (visited r.2) pos false in
          let* path2 := list_pop (path r.2) in
          Ok (false, mk_state visited2 path2)
      end.
Proof.
  intros Hw. cbv zeta.
  destruct d as [|d']; simpl;
    (destruct (valid_pos pos (shape (visited st))) eqn:Hv; simpl; [|reflexivity]);
    destruct (getitem_valid ix _ _ ix_lawful Hw Hv) as (x & Hp & ->); simpl;
    rewrite Hp; destruct x; simpl; try reflexivity;
    rewrite (setitem_valid ix _ _ _ ix_lawful Hw Hv); reflexivity.
Qed.

(** A call that returns [False] has undone its own marks: the array and
    the path are those it was called with. *)
Lemma recursive_restores (d : nat) : forall pos st st',
  well_shaped (visited st) ->
  _recursive ix d pos end_pos st = Ok (false, st') -> st' = st.
Proof.
  induction d as [|d IH]; intros pos st st' Hw; rewrite recursive_unfold by exact Hw;
    cbv zeta;
    (destruct (valid_pos pos (shape (visited st))) eqn:Hv; simpl; [|congruence]);
    (destruct (bool_decide _) eqn:Hseen; [congruence|]);
    (destruct (pt_eqb pos end_pos && _); [discriminate|]); [discriminate|].
  apply bool_decide_eq_false in Hseen.
  intros H. apply bind_Ok in H as ([b s1] & Hfor & H). simpl in H.
  destruct b; [discriminate|].
  apply for_dirns_false in Hfor as [-> _].
  2:{ intros p s' Hc. apply IH in Hc; [exact Hc|]. simpl. apply well_shaped_poke, Hw. }
  simpl in H.
  rewrite setitem_valid in H;
    [| exact ix_lawful | apply well_shaped_poke, Hw | rewrite shape_poke; exact Hv].
  simpl in H. rewrite list_pop_snoc in H. simpl in H. injection H as <-.
  destruct (peek_valid _ _ Hw Hv) as [[|] Hx]; [contradiction|].
  rewrite poke_restore by exact Hx. destruct st; reflexivity.
Qed.

(** What a call returns it returns under every larger limit as well. *)
Lemma recursive_deeper (d : nat) : forall d' pos st r,
  well_shaped (visited st) -> (d <= d')%nat ->
  _recursive ix d pos end_pos st = Ok r -> _recursive ix d' pos end_pos st = Ok r.
Proof.
  induction d as [|d IH]; intros d' pos st r Hw Hd;
    rewrite (recursive_unfold d'), recursive_unfold by exact Hw; cbv zeta;
    (destruct (valid_pos pos (shape (visited st))) eqn:Hv; cbn [negb]; [|auto]);
    (destruct (bool_decide _) eqn:Hseen; [auto|]);
    (destruct (pt_eqb pos end_pos && _); [auto|]); [discriminate|].
  destruct d' as [|d']; [lia|].
  intros H. apply bind_Ok in H as ([b s1] & Hfor & H).
  assert (well_shaped (visited (mk_state (poke (visited st) pos true) (path st ++ [pos]))))
    as Hw1 by (apply well_shaped_poke, Hw).
  assert (forall p s', _recursive ix d p end_pos
            (mk_state (poke (visited st) pos true) (path st ++ [pos])) = Ok (false, s') ->
            s' = mk_state (poke (visited st) pos true) (path st ++ [pos])) as Hres.
  { intros p s' Hc. exact (recursive_restores d _ _ _ Hw1 Hc). }
  rewrite (for_dirns_deeper (fun p s => _recursive ix d p end_pos s)
             (fun p s => _recursive ix d' p end_pos s) pos _ Hres _search_dirns (b, s1));
    [exact H | | exact Hfor].
  intros p r' Hc. apply (IH d' p _ r' Hw1); [lia | exact Hc].
Qed.

(** A call on an array that agrees with its shape returns, or ends in
    [RecursionError]: it raises nothing else and is not cut off. *)
Lemma recursive_outcome (d : nat) : forall pos st,
  well_shaped (visited st) ->
  (exists r, _recursive ix d pos end_pos st = Ok r) \/
  _recursive ix d pos end_pos st = Raise RecursionError.
Proof.
  induction d as [|d IH]; intros pos st Hw;
    rewrite recursive_unfold by exact Hw; cbv zeta;
    (destruct (valid_pos pos (shape (visited st))) eqn:Hv; cbn [negb]; [|eauto]);
    (destruct (bool_decide _) eqn:Hseen; [eauto|]);
    (destruct (pt_eqb pos end_pos && _); [eauto|]); [right; reflexivity|].
  assert (well_shaped (visited (mk_state (poke (visited st) pos true) (path st ++ [pos]))))
    as Hw1 by (apply well_shaped_poke, Hw).
  assert (forall p s', _recursive ix d p end_pos
            (mk_state (poke (visited st) pos true) (path st ++ [pos])) = Ok (false, s') ->
            s' = mk_state (poke (visited st) pos true) (path st ++ [pos])) as Hres.
  { intros p s' Hc. exact (recursive_restores d _ _ _ Hw1 Hc). }
  destruct (for_dirns_outcome (fun p s => _recursive ix d p end_pos s) pos _ Hres
              _search_dirns) as [([b s1] & Hfor) | Hfor].
  { intros p. apply IH, Hw1. }
  - rewrite Hfor. cbn [bind fst snd]. destruct b; [eauto|].
    apply for_dirns_false in Hfor as [-> _]; [|exact Hres]. cbn [visited path].
    rewrite setitem_valid;
      [| exact ix_lawful | apply well_shaped_poke, Hw | rewrite shape_poke; exact Hv].
    cbn [bind]. rewrite list_pop_snoc. cbn [bind]. eauto.
  - rewrite Hfor. right. reflexivity.
Qed.

Variable size : GridPt.

(** A call that returns [True] has extended the path by a chain of free
    cells that starts at [pos], stops at [end_pos] and fills the grid. *)
Lemma recursive_sound (d : nat) : forall pos st st',
  search_inv size (visited st) (path st) ->
  _recursive ix d pos end_pos st = Ok (true, st') ->
  search_inv size (visited st') (path st') /\
  exists ext, path st' = path st ++ pos :: ext /\ chain (pos :: ext) /\
    last (pos :: ext) = Some end_pos /\
    Z.of_nat (length (path st')) = size.1 * size.2.
Proof.
  induction d as [|d IH]; intros pos st st' Hinv;
    pose proof (inv_shape _ _ _ Hinv) as Hs;
    pose proof (inv_well_shaped _ _ _ Hinv) as Hw;
    rewrite recursive_unfold by exact Hw; cbv zeta; rewrite Hs;
    (destruct (valid_pos pos size) eqn:Hv; simpl; [|congruence]);
    (destruct (bool_decide _) eqn:Hseen; [congruence|]);
    apply bool_decide_eq_false in Hseen;
    pose proof (search_inv_commit _ _ _ _ Hinv Hv Hseen) as Hinv1;
    (destruct (pt_eqb pos end_pos && _) eqn:Hdone;
     [ intros [= <-]; simpl; apply andb_true_iff in Hdone as [He Hn];
       apply pt_eqb_eq in He; apply Z.eqb_eq in Hn;
       split; [exact Hinv1|]; exists []; repeat split;
       [simpl; congruence | exact Hn] | ]); [discriminate|].
  intros H. apply bind_Ok in H as ([b s1] & Hfor & H). simpl in H.
  destruct b.
  - injection H as <-.
    apply for_dirns_true in Hfor as (δ & Hδ & Hc).
    2:{ intros p s' Hc. apply recursive_restores in Hc; [exact Hc|].
        simpl. apply well_shaped_poke, Hw. }
    apply IH in Hc as (Hinv' & ext & Hp & Hch & Hl & Hn); [|exact Hinv1].
    split; [exact Hinv'|]. simpl in Hp.
    exists ((pos.1 + δ.1, pos.2 + δ.2) :: ext). repeat split.
    + rewrite Hp, <- app_assoc. reflexivity.
    + apply unit_step_dirn, Hδ.
    + exact Hch.
    + rewrite last_cons_cons. exact Hl.
    + exact Hn.
  - apply bind_Ok in H as (? & _ & H). apply bind_Ok in H as (? & _ & H). discriminate.
Qed.

(** With a nested call left for every cell that is still free, the call
    returns. *)
Lemma recursive_total (d : nat) : forall pos st,
  search_inv size (visited st) (path st) ->
  size.1 * size.2 <= Z.of_nat (length (path st)) + Z.of_nat d ->
  exists r, _recursive ix d pos end_pos st = Ok r.
Proof.
  induction d as [|d IH]; intros pos st Hinv Hd;
    pose proof (inv_shape _ _ _ Hinv) as Hs;
    pose proof (inv_well_shaped _ _ _ Hinv) as Hw;
    rewrite recursive_unfold by exact Hw; cbv zeta; rewrite Hs;
    (destruct (valid_pos pos size) eqn:Hv; simpl; [|eauto]);
    (destruct (bool_decide _) eqn:Hseen; [eauto|]);
    apply bool_decide_eq_false in Hseen;
    pose proof (search_inv_commit _ _ _ _ Hinv Hv Hseen) as Hinv1;
    (destruct (pt_eqb pos end_pos && _) eqn:Hdone; [eauto|]).
  - exfalso.
    destruct (valid_pos_nonneg size pos Hv) as [H1 H2].
    pose proof (valid_cells_bound size _ H1 H2 (inv_nodup _ _ _ Hinv1)
                  (inv_valid _ _ _ Hinv1)) as Hb.
    rewrite length_app in Hb. simpl in Hb. lia.
  - assert (forall p s', _recursive ix d p end_pos
              (mk_state (poke (visited st) pos true) (path st ++ [pos])) = Ok (false, s') ->
              s' = mk_state (poke (visited st) pos true) (path st ++ [pos])) as Hres.
    { intros p s' Hc. apply recursive_restores in Hc; [exact Hc|].
      simpl. apply well_shaped_poke, Hw. }
    destruct (for_dirns_total (fun p s => _recursive ix d p end_pos s) pos _ Hres
                _search_dirns) as ([b s1] & Hfor).
    { intros p. apply IH; [exact Hinv1|]. simpl. rewrite length_app. simpl. lia. }
    rewrite Hfor. simpl. destruct b; [eauto|].
    apply for_dirns_false in Hfor as [-> _]; [|exact Hres]. simpl.
    rewrite setitem_valid;
      [| exact ix_lawful | apply well_shaped_poke, Hw | rewrite shape_poke; congruence].
    simpl. rewrite list_pop_snoc. simpl. eauto.
Qed.

(** A call that returns [False] has missed nothing: no sequence the
    search looks for begins with the path followed by [pos]. *)
Lemma recursive_complete (d : nat) : forall pos st st',
  search_inv size (visited st) (path st) ->
  _recursive ix d pos end_pos st = Ok (false, st') ->
  forall q, (path st ++ [pos]) `prefix_of` q -> ~ goal size end_pos q.
Proof.
  induction d as [|d IH]; intros pos st st' Hinv Hrun q [k ->] (Hlen & Hlast & Hnd & Hval & Hch);
    pose proof (inv_shape _ _ _ Hinv) as Hs;
    pose proof (inv_well_shaped _ _ _ Hinv) as Hw;
    rewrite recursive_unfold in Hrun by exact Hw; cbv zeta in Hrun; rewrite Hs in Hrun;
    (destruct (valid_pos pos size) eqn:Hv; simpl in Hrun;
     [| rewrite !Forall_app, Forall_singleton in Hval; destruct Hval as [[_ Hval] _];
        congruence ]);
    (destruct (bool_decide _) eqn:Hseen;
     [ apply bool_decide_eq_true in Hseen; apply (inv_marks _ _ _ Hinv) in Hseen; [|exact Hv];
       rewrite <- app_assoc in Hnd; apply NoDup_app in Hnd as (_ & Hnd & _);
       apply (Hnd pos Hseen); left | ]);
    apply bool_decide_eq_false in Hseen;
    pose proof (search_inv_commit _ _ _ _ Hinv Hv Hseen) as Hinv1;
    (destruct (pt_eqb pos end_pos && _) eqn:Hdone; [discriminate|]); [discriminate|].
  apply bind_Ok in Hrun as ([b s1] & Hfor & Hrun). simpl in Hrun.
  destruct b; [discriminate|].
  apply for_dirns_false in Hfor as [-> Hall].
  2:{ intros p s' Hc. apply recursive_restores in Hc; [exact Hc|].
      simpl. apply well_shaped_poke, Hw. }
  destruct k as [|x k].
  - rewrite app_nil_r in *. rewrite last_snoc in Hlast. injection Hlast as ->.
    apply andb_false_iff in Hdone as [Hdone | Hdone].
    + apply pt_eqb_neq in Hdone. congruence.
    + apply Z.eqb_neq in Hdone. congruence.
  - pose proof Hch as Hch'. rewrite <- app_assoc in Hch'.
    apply chain_app_r in Hch'. simpl in Hch'. destruct Hch' as [(δ & Hδ & ->) _].
    apply (IH _ (mk_state (poke (visited st) pos true) (path st ++ [pos])) _ Hinv1
             (Hall δ Hδ) ((path st ++ [pos]) ++ (pos.1 + δ.1, pos.2 + δ.2) :: k)).
    + exists k. simpl. rewrite <- !app_assoc. reflexivity.
    + repeat split; assumption.
Qed.

End Recursive.

(** ** Running the loop *)

Section Iterate.
Variable body : LoopState -> Outcome Ctl.

Lemma iterate_add (n m : nat) (s : LoopState) :
  (m <= n)%nat ->
  iterate n body s =
  (let* c := iterate m body s in
   match c with
   | Continue s' => iterate (n - m) body s'
   | Return p => Ok (Return p)
   end).
Proof.
  revert n s. induction m as [|m IH]; intros n s Hge; simpl.
  - rewrite Nat.sub_0_r. reflexivity.
  - destruct n as [|n]; [lia|]. simpl.
    destruct (body s) as [[s' | p] | e |]; simpl; try reflexivity.
    apply IH. lia.
Qed.

Lemma iterate_continue (n m : nat) (s s' : LoopState) :
  iterate n body s = Ok (Continue s') -> iterate (n + m) body s = iterate m body s'.
Proof.
  intros H. rewrite (iterate_add (n + m) n s) by lia.
  rewrite H. simpl. f_equal. lia.
Qed.

Lemma iterate_return (n m : nat) (s : LoopState) (p : list GridPt) :
  iterate n body s = Ok (Return p) -> (n <= m)%nat -> iterate m body s = Ok (Return p).
Proof.
  intros H Hle. rewrite (iterate_add m n s) by lia.
  rewrite H. reflexivity.
Qed.

Lemma iterate_one (s : LoopState) : iterate 1 body s = body s.
Proof. simpl. destruct (body s) as [[s' | p] | e |]; reflexivity. Qed.

Lemma iterate_pow2_iterate (k : nat) (s : LoopState) :
  iterate_pow2 k body s = iterate (2 ^ k) body s.
Proof.
  revert s. induction k as [|k IH]; intros s.
  - simpl iterate_pow2. rewrite <- iterate_one. reflexivity.
  - simpl iterate_pow2.
    assert (2 ^ S k = 2 ^ k + 2 ^ k)%nat as Hp by (rewrite Nat.pow_succ_r'; lia).
    rewrite (iterate_add (2 ^ S k) (2 ^ k) s) by lia.
    rewrite IH. destruct (iterate (2 ^ k) body s) as [[s' | p] | e |]; try reflexivity.
    cbv beta iota delta [bind]. rewrite IH. f_equal. lia.
Qed.

Lemma while_true_return (k n : nat) (s : LoopState) (p : list GridPt) :
  iterate n body s = Ok (Return p) -> (n <= 2 ^ k)%nat -> while_true k body s = Ok p.
Proof.
  intros H Hle. unfold while_true.
  rewrite iterate_pow2_iterate, (iterate_return n _ s p H Hle). reflexivity.
Qed.

End Iterate.

Lemma call_passes_bound (d : nat) : (call_passes d + 1 <= 4 ^ (d + 1))%nat.
Proof.
  induction d as [|d IH]; simpl; [lia|].
  rewrite Nat.add_0_r in *. simpl in IH. lia.
Qed.

(** ** One pass of the loop *)

Section Loop.
Variable ix : Z -> Z -> option nat.
Hypothesis ix_lawful : lawful ix.
Variables end_pos size : GridPt.

Local Abbreviation body := (loop_body ix end_pos size).

Lemma search_inv_last v p0 pos :
  search_inv size v (p0 ++ [pos]) ->
  shape v = size /\ well_shaped v /\ valid_pos pos size = true /\
  valid_pos pos (shape v) = true.
Proof.
  intros [Hs Hw Hval _ _]. rewrite Forall_app, Forall_singleton in Hval.
  destruct Hval as [_ Hv]. rewrite Hs. auto.
Qed.

Lemma dirn_index_bound (j : Z) (δ : GridPt) :
  0 <= j -> _search_dirns !! Z.to_nat j = Some δ ->
  (n_dirns <=? j) = false /\ list_getitem _search_dirns j = Ok δ.
Proof.
  intros Hj Hδ. apply lookup_lt_Some in Hδ as Hlt. simpl in Hlt.
  destruct (search_dirns_getitem j) as (δ' & Hg & Hl).
  - unfold n_dirns. simpl. lia.
  - split; [apply Z.leb_gt; unfold n_dirns; simpl; lia | congruence].
Qed.

(** At the top of the loop with the grid filled and the end reached. *)
Lemma loop_body_arrived p0 pos ds v :
  arrived size end_pos pos (p0 ++ [pos]) = true ->
  body (mk_loop (p0 ++ [pos]) ds v) = Ok (Return (p0 ++ [pos])).
Proof.
  intros Ha. unfold loop_body, arrived in *. simpl.
  rewrite list_getitem_last. simpl. rewrite Ha. reflexivity.
Qed.

(** All directions of the top cell are spent: it is unmarked and taken
    off both stacks. *)
Lemma loop_body_backtrack p0 pos ds j v :
  search_inv size v (p0 ++ [pos]) ->
  arrived size end_pos pos (p0 ++ [pos]) = false ->
  n_dirns <= j ->
  body (mk_loop (p0 ++ [pos]) (ds ++ [j]) v) =
    if list_is_empty p0 then Ok (Return [])
    else advance (mk_loop p0 ds (poke v pos false)).
Proof.
  intros Hinv Ha Hj. destruct (search_inv_last _ _ _ Hinv) as (Hs & Hw & _ & Hv).
  unfold loop_body, arrived in *. simpl.
  rewrite list_getitem_last. simpl. rewrite Ha.
  rewrite list_getitem_last. simpl.
  destruct (Z.leb_spec n_dirns j); [|lia].
  rewrite (setitem_valid ix _ _ _ ix_lawful Hw Hv). simpl.
  rewrite !list_pop_snoc. reflexivity.
Qed.

(** The neighbour in the current direction is off the grid or marked:
    the direction index moves on. *)
Lemma loop_body_reject p0 pos ds j δ v :
  search_inv size v (p0 ++ [pos]) ->
  arrived size end_pos pos (p0 ++ [pos]) = false ->
  0 <= j -> _search_dirns !! Z.to_nat j = Some δ ->
  valid_pos (pos.1 + δ.1, pos.2 + δ.2) size = false \/
    peek v (pos.1 + δ.1, pos.2 + δ.2) = Some true ->
  body (mk_loop (p0 ++ [pos]) (ds ++ [j]) v) =
    Ok (Continue (mk_loop (p0 ++ [pos]) (ds ++ [j + 1]) v)).
Proof.
  intros Hinv Ha Hj Hδ Hrej. destruct (search_inv_last _ _ _ Hinv) as (Hs & Hw & _ & _).
  destruct (dirn_index_bound j δ Hj Hδ) as [Hlt Hg].
  unfold loop_body, arrived in *. simpl.
  rewrite list_getitem_last. simpl. rewrite Ha.
  rewrite list_getitem_last. simpl. rewrite Hlt, Hg. simpl.
  assert (advance (mk_loop (p0 ++ [pos]) (ds ++ [j]) v)
          = Ok (Continue (mk_loop (p0 ++ [pos]) (ds ++ [j + 1]) v))) as Hadv.
  { unfold advance. simpl. rewrite list_getitem_last. simpl.
    rewrite list_setitem_last. reflexivity. }
  destruct (valid_pos (pos.1 + δ.1, pos.2 + δ.2) size) eqn:Hv; simpl; [|exact Hadv].
  destruct Hrej as [? | Hseen]; [discriminate|].
  rewrite <- Hs in Hv.
  destruct (getitem_valid ix _ _ ix_lawful Hw Hv) as (x & Hp & ->). simpl.
  assert (x = true) as -> by congruence. exact Hadv.
Qed.

(** The neighbour is a free cell of the grid: it is pushed and marked. *)
Lemma loop_body_push p0 pos ds j δ v :
  search_inv size v (p0 ++ [pos]) ->
  arrived size end_pos pos (p0 ++ [pos]) = false ->
  0 <= j -> _search_dirns !! Z.to_nat j = Some δ ->
  valid_pos (pos.1 + δ.1, pos.2 + δ.2) size = true ->
  peek v (pos.1 + δ.1, pos.2 + δ.2) <> Some true ->
  body (mk_loop (p0 ++ [pos]) (ds ++ [j]) v) =
    Ok (Continue (mk_loop ((p0 ++ [pos]) ++ [(pos.1 + δ.1, pos.2 + δ.2)])
                    ((ds ++ [j]) ++ [0])
                    (poke v (pos.1 + δ.1, pos.2 + δ.2) true))).
Proof.
  intros Hinv Ha Hj Hδ Hv Hfree. destruct (search_inv_last _ _ _ Hinv) as (Hs & Hw & _ & _).
  destruct (dirn_index_bound j δ Hj Hδ) as [Hlt Hg].
  unfold loop_body, arrived in *. simpl.
  rewrite list_getitem_last. simpl. rewrite Ha.
  rewrite list_getitem_last. simpl. rewrite Hlt, Hg. simpl. rewrite Hv. simpl.
  rewrite <- Hs in Hv.
  destruct (getitem_valid ix _ _ ix_lawful Hw Hv) as (x & Hp & ->). simpl.
  destruct x; [congruence|].
  rewrite (setitem_valid ix _ _ _ ix_lawful Hw Hv). reflexivity.
Qed.

(** ** The loop follows the recursion *)

(** What the loop does while the recursion runs the directions from the
    [jn]-th on. *)
Section Frame.
Variable d : nat.
(** What the loop does while the recursion makes one call from the top
    frame, for the neighbour in direction [j] of the top cell. *)
Hypothesis Hcall :
  forall p0 pos ds j δ v b st',
    search_inv size v (p0 ++ [pos]) ->
    arrived size end_pos pos (p0 ++ [pos]) = false ->
    0 <= j -> _search_dirns !! Z.to_nat j = Some δ ->
    _recursive ix d (pos.1 + δ.1, pos.2 + δ.2) end_pos (mk_state v (p0 ++ [pos]))
      = Ok (b, st') ->
    exists n, (n <= call_passes d)%nat /\
      iterate n body (mk_loop (p0 ++ [pos]) (ds ++ [j]) v) =
        Ok (if b then Return (path st')
            else Continue (mk_loop (p0 ++ [pos]) (ds ++ [j + 1]) v)).

Lemma simulates_frame (m : nat) :
  forall jn p0 pos ds v b st',
    (jn + m = 4)%nat ->
    search_inv size v (p0 ++ [pos]) ->
    arrived size end_pos pos (p0 ++ [pos]) = false ->
    for_dirns (fun p s => _recursive ix d p end_pos s) pos (drop jn _search_dirns)
      (mk_state v (p0 ++ [pos])) = Ok (b, st') ->
    exists n, (n <= m * call_passes d)%nat /\
      iterate n body (mk_loop (p0 ++ [pos]) (ds ++ [Z.of_nat jn]) v) =
        Ok (if b then Return (path st')
            else Continue (mk_loop (p0 ++ [pos]) (ds ++ [4]) v)).
Proof.
  induction m as [|m IH]; intros jn p0 pos ds v b st' Hjn Hinv Ha Hfor.
  - assert (jn = 4%nat) as -> by lia. cbn in Hfor. injection Hfor as <- <-.
    exists 0%nat. split; [lia | reflexivity].
  - destruct (lookup_lt_is_Some_2 _search_dirns jn) as [δ Hδ]; [simpl; lia|].
    rewrite (drop_S _ _ _ Hδ) in Hfor. cbn [for_dirns] in Hfor.
    apply bind_Ok in Hfor as ([b1 s1] & Hc & Hfor). cbn [fst snd] in Hfor.
    assert (_search_dirns !! Z.to_nat (Z.of_nat jn) = Some δ) as Hδ'
      by (rewrite Nat2Z.id; exact Hδ).
    destruct (Hcall p0 pos ds (Z.of_nat jn) δ v b1 s1 Hinv Ha ltac:(lia) Hδ' Hc)
      as (n1 & Hn1 & Hrun1).
    destruct b1.
    + injection Hfor as <- <-. exists n1. split; [lia | exact Hrun1].
    + apply recursive_restores in Hc as ->;
        [| exact ix_lawful | exact (inv_well_shaped _ _ _ Hinv)].
      destruct (IH (S jn) p0 pos ds v b st' ltac:(lia) Hinv Ha Hfor) as (n2 & Hn2 & Hrun2).
      exists (n1 + n2)%nat. split; [lia|].
      rewrite (iterate_continue _ _ _ _ _ Hrun1).
      replace (Z.of_nat jn + 1) with (Z.of_nat (S jn)) by lia. exact Hrun2.
Qed.

End Frame.

(** One call of the recursion from the top frame, for the neighbour in
    direction [j] of the top cell, is matched by passes of the loop: a
    call that returns [True] by the loop returning the same path, a call
    that returns [False] by the loop coming back to the frame with the
    next direction. *)
Lemma simulates_call (d : nat) :
  forall p0 pos ds j δ v b st',
    search_inv size v (p0 ++ [pos]) ->
    arrived size end_pos pos (p0 ++ [pos]) = false ->
    0 <= j -> _search_dirns !! Z.to_nat j = Some δ ->
    _recursive ix d (pos.1 + δ.1, pos.2 + δ.2) end_pos (mk_state v (p0 ++ [pos]))
      = Ok (b, st') ->
    exists n, (n <= call_passes d)%nat /\
      iterate n body (mk_loop (p0 ++ [pos]) (ds ++ [j]) v) =
        Ok (if b then Return (path st')
            else Continue (mk_loop (p0 ++ [pos]) (ds ++ [j + 1]) v)).
Proof.
  induction d as [|d IH]; intros p0 pos ds j δ v b st' Hinv Ha Hj Hδ Hrun;
    pose proof (inv_shape _ _ _ Hinv) as Hs;
    pose proof (inv_well_shaped _ _ _ Hinv) as Hw;
    rewrite recursive_unfold in Hrun by assumption; cbv zeta in Hrun;
    cbn [visited path] in Hrun; rewrite Hs in Hrun;
    (destruct (valid_pos (pos.1 + δ.1, pos.2 + δ.2) size) eqn:Hv; cbn [negb] in Hrun;
     [| injection Hrun as <- <-; exists 1%nat; split; [simpl; lia|];
        rewrite iterate_one; apply (loop_body_reject p0 pos ds j δ v); auto ]);
    (destruct (bool_decide _) eqn:Hseen;
     [ apply bool_decide_eq_true in Hseen; injection Hrun as <- <-; exists 1%nat;
       split; [simpl; lia|]; rewrite iterate_one;
       apply (loop_body_reject p0 pos ds j δ v); auto | ]);
    apply bool_decide_eq_false in Hseen;
    pose proof (search_inv_commit _ _ _ _ Hinv Hv Hseen) as Hinv1;
    pose proof (loop_body_push p0 pos ds j δ v Hinv Ha Hj Hδ Hv Hseen) as Hpush;
    rewrite <- iterate_one in Hpush;
    (destruct (pt_eqb (pos.1 + δ.1, pos.2 + δ.2) end_pos && _) eqn:Ha1;
     [ injection Hrun as <- <-; exists (1 + 1)%nat; split; [simpl; lia|];
       rewrite (iterate_continue _ 1 1 _ _ Hpush), iterate_one;
       apply loop_body_arrived; exact Ha1 | ]); [discriminate|].
  apply bind_Ok in Hrun as ([b1 s1] & Hfor & Hrun). cbn [fst snd] in Hrun.
  destruct (simulates_frame d IH 4 0 (p0 ++ [pos]) (pos.1 + δ.1, pos.2 + δ.2)
              (ds ++ [j]) (poke v (pos.1 + δ.1, pos.2 + δ.2) true) b1 s1
              eq_refl Hinv1 Ha1 Hfor) as (n & Hn & Hrun1).
  change (Z.of_nat 0) with 0 in Hrun1.
  destruct b1.
  - injection Hrun as <- <-. exists (1 + n)%nat. split; [simpl; lia|].
    rewrite (iterate_continue _ 1 n _ _ Hpush). exact Hrun1.
  - apply bind_Ok in Hrun as (v2 & _ & Hrun). apply bind_Ok in Hrun as (p2 & _ & Hrun).
    injection Hrun as <- <-.
    exists (1 + (n + 1))%nat. split; [simpl; lia|].
    rewrite (iterate_continue _ 1 (n + 1) _ _ Hpush).
    rewrite (iterate_continue _ n 1 _ _ Hrun1), iterate_one.
    rewrite loop_body_backtrack; [| exact Hinv1 | exact Ha1 | unfold n_dirns; simpl; lia].
    destruct (search_inv_unmarked _ _ _ _ Hinv Hv Hseen) as [Hfalse _].
    rewrite poke_restore by exact Hfalse.
    assert (list_is_empty (p0 ++ [pos]) = false) as -> by (destruct p0; reflexivity).
    unfold advance. cbn [path_dirn l_path l_visited].
    rewrite list_getitem_last. cbn [bind]. rewrite list_setitem_last. reflexivity.
Qed.

End Loop.

(** ** The two strategies on a valid request *)

Lemma hamiltonian_goal (size start_pos end_pos : GridPt) (q : list GridPt) :
  0 <= size.1 -> 0 <= size.2 ->
  hamiltonian size start_pos end_pos q ->
  goal size end_pos q /\ ([] ++ [start_pos]) `prefix_of` q.
Proof.
  intros H1 H2 (Hlen & Hhd & Hlast & Hnd & Hall & Hch). split.
  - repeat split; try assumption. apply cover_valid; assumption.
  - destruct q as [|x q]; [discriminate|]. injection Hhd as ->. exists q. reflexivity.
Qed.

Lemma loop_budget_enough (size : GridPt) (d n : nat) :
  Z.to_nat (size.1 * size.2) = S d -> (n <= 4 * call_passes d + 1)%nat ->
  (n <= 2 ^ loop_budget size)%nat.
Proof.
  intros HN Hn. unfold loop_budget. rewrite HN.
  rewrite Nat.pow_mul_r. change (2 ^ 2)%nat with 4%nat.
  pose proof (call_passes_bound d) as Hb.
  replace (S d + 1)%nat with (S (d + 1)) by lia. rewrite Nat.pow_succ_r'. lia.
Qed.

Section Solve.
Variable ix : Z -> Z -> option nat.
Hypothesis ix_lawful : lawful ix.
Variables start_pos end_pos size : GridPt.
Hypothesis start_valid : valid_pos start_pos size = true.
Hypothesis end_valid : valid_pos end_pos size = true.
Hypothesis start_not_end : start_pos <> end_pos.

Lemma grid_has_two_cells : 2 <= size.1 * size.2.
Proof.
  destruct (valid_pos_nonneg _ _ start_valid) as [H1 H2].
  apply (valid_cells_bound size [start_pos; end_pos] H1 H2).
  - apply NoDup_cons. split; [|apply NoDup_singleton].
    rewrite list_elem_of_singleton. exact start_not_end.
  - repeat constructor; assumption.
Qed.

(** The loop runs to its end, and so does the recursion when it may
    nest [rows * cols] calls; they give the same answer, which is a
    Hamiltonian path when there is one and the empty list otherwise.
    Under a smaller limit the recursion gives that answer or ends in
    [RecursionError]. *)
Lemma search_both :
  exists v0 answer,
    np_zeros size = Ok v0 /\
    (exists b st', _recursive ix (Z.to_nat (size.1 * size.2)) start_pos end_pos
                     (mk_state v0 []) = Ok (b, st') /\
                   answer = if b then path st' else []) /\
    (exists n, iterate n (loop_body ix end_pos size)
                 (mk_loop [start_pos] [0] (poke v0 start_pos true)) = Ok (Return answer)) /\
    (forall limit, (Z.to_nat (size.1 * size.2) <= limit)%nat ->
       solve_snake ix limit start_pos end_pos size "recursive" = Ok answer) /\
    (forall limit, solve_snake ix limit start_pos end_pos size "non-recursive" = Ok answer) /\
    (answer <> [] -> hamiltonian size start_pos end_pos answer) /\
    (answer = [] -> forall q, ~ hamiltonian size start_pos end_pos q) /\
    (forall limit,
       solve_snake ix limit start_pos end_pos size "recursive" = Ok answer \/
       solve_snake ix limit start_pos end_pos size "recursive" = Raise RecursionError).
Proof.
  destruct (valid_pos_nonneg _ _ start_valid) as [H1 H2].
  pose proof grid_has_two_cells as HN.
  destruct (np_full_ok size false H1 H2) as (v0 & Hz & Hs & Hw & Hpeek).
  change (np_full size false) with (np_zeros size) in Hz.
  pose proof (search_inv_zeros size v0 Hs Hw Hpeek) as Hinv0.
  destruct (Z.to_nat (size.1 * size.2)) as [|d] eqn:Hd; [lia|].
  assert (pt_eqb start_pos end_pos = false) as Hne by (apply pt_eqb_neq; exact start_not_end).
  assert (peek v0 start_pos <> Some true) as Hfree by (rewrite Hpeek by assumption; discriminate).
  pose proof (search_inv_commit _ _ _ _ Hinv0 start_valid Hfree) as Hinv1.
  assert (arrived size end_pos start_pos ([] ++ [start_pos]) = false) as Ha
    by (unfold arrived; rewrite Hne; reflexivity).
  destruct (recursive_total ix ix_lawful end_pos size (S d) start_pos (mk_state v0 []))
    as ([b st'] & Hrun); [exact Hinv0 | simpl; lia |].
  pose proof Hrun as Hrun'.
  rewrite recursive_unfold in Hrun' by assumption. cbv zeta in Hrun'.
  cbn [visited path] in Hrun'. rewrite Hs, start_valid in Hrun'. cbn [negb] in Hrun'.
  rewrite bool_decide_eq_false_2 in Hrun' by exact Hfree.
  rewrite Hne in Hrun'. cbn [andb] in Hrun'.
  apply bind_Ok in Hrun' as ([b1 s1] & Hfor & Hrun'). cbn [fst snd] in Hrun'.
  destruct (simulates_frame ix ix_lawful end_pos size d
              (simulates_call ix ix_lawful end_pos size d) 4 0 [] start_pos []
              (poke v0 start_pos true) b1 s1 eq_refl Hinv1 Ha Hfor) as (n & Hn & Hsim).
  change (Z.of_nat 0) with 0 in Hsim. cbn [app] in Hsim.
  (* the answer of the loop *)
  assert (exists m, (m <= 4 * call_passes d + 1)%nat /\
            iterate m (loop_body ix end_pos size)
              (mk_loop [start_pos] [0] (poke v0 start_pos true))
            = Ok (Return (if b then path st' else []))) as (m & Hm & Hloop).
  { destruct b1.
    - injection Hrun' as <- <-. exists n. split; [lia | exact Hsim].
    - apply bind_Ok in Hrun' as (v2 & _ & Hrun'). apply bind_Ok in Hrun' as (p2 & _ & Hrun').
      injection Hrun' as <- <-. exists (n + 1)%nat. split; [lia|].
      rewrite (iterate_continue _ n 1 _ _ Hsim), iterate_one.
      apply (loop_body_backtrack ix ix_lawful end_pos size [] start_pos [] 4
               (poke v0 start_pos true) Hinv1 Ha).
      unfold n_dirns. simpl. lia. }
  assert (forall limit,
            solve_snake ix limit start_pos end_pos size "recursive" =
              let* r := _recursive ix limit start_pos end_pos (mk_state v0 []) in
              Ok (if r.1 then path r.2 else [])) as Hsolve.
  { intros limit. unfold solve_snake. rewrite start_valid, end_valid, Hne. cbn [negb].
    change (String.eqb "recursive" "recursive") with true. cbv iota.
    rewrite Hz. reflexivity. }
  exists v0, (if b then path st' else []).
  split; [exact Hz|]. split; [eauto|]. split; [eauto|].
  split; [|split; [|split; [|split]]].
  - intros limit Hle. rewrite Hsolve.
    rewrite (recursive_deeper ix ix_lawful end_pos (S d) limit start_pos (mk_state v0 [])
               (b, st') Hw Hle Hrun).
    reflexivity.
  - intros limit.
    unfold solve_snake. rewrite start_valid, end_valid, Hne. cbn [negb].
    change (String.eqb "non-recursive" "recursive") with false.
    change (String.eqb "non-recursive" "non-recursive") with true. cbv iota.
    unfold _non_recursive. rewrite Hz. cbn [bind].
    rewrite setitem_valid; [| exact ix_lawful | exact Hw | rewrite Hs; exact start_valid].
    cbn [bind]. apply (while_true_return _ _ m); [exact Hloop|].
    apply (loop_budget_enough size d); assumption.
  - intros Hnonempty. destruct b; [|contradiction].
    destruct (recursive_sound ix ix_lawful end_pos size _ _ (mk_state v0 []) _ Hinv0 Hrun)
      as (Hinv' & ext & Hp & Hch & Hlast & Hlen).
    cbn [path app] in Hp. rewrite Hp in *.
    repeat split.
    + exact Hlen.
    + exact Hlast.
    + exact (inv_nodup _ _ _ Hinv').
    + apply valid_cells_full; try assumption.
      * exact (inv_nodup _ _ _ Hinv').
      * exact (inv_valid _ _ _ Hinv').
    + exact Hch.
  - intros Hempty q Hq. destruct b.
    + destruct (recursive_sound ix ix_lawful end_pos size _ _ (mk_state v0 []) _ Hinv0 Hrun)
        as (_ & ext & Hp & _). rewrite Hp in Hempty. discriminate.
    + destruct (hamiltonian_goal size start_pos end_pos q H1 H2 Hq) as [Hg Hpre].
      exact (recursive_complete ix ix_lawful end_pos size _ _ (mk_state v0 []) _ Hinv0 Hrun
               q Hpre Hg).
  - intros limit. rewrite Hsolve.
    destruct (recursive_outcome ix ix_lawful end_pos limit start_pos (mk_state v0 []) Hw)
      as [(r & Hr) | Hr]; [left | right; rewrite Hr; reflexivity].
    destruct (Nat.le_ge_cases limit (S d)) as [Hle | Hle].
    + rewrite (recursive_deeper ix ix_lawful end_pos limit (S d) start_pos
                 (mk_state v0 []) r Hw Hle Hr) in Hrun.
      injection Hrun as ->. rewrite Hr. reflexivity.
    + rewrite (recursive_deeper ix ix_lawful end_pos (S d) limit start_pos
                 (mk_state v0 []) (b, st') Hw Hle Hrun).
      reflexivity.
Qed.

End Solve.

(** * The entry point *)

Section Entry.
Variable ix : Z -> Z -> option nat.
Variables start_pos end_pos size : GridPt.
Hypothesis start_valid : valid_pos start_pos size = true.
Hypothesis end_valid : valid_pos end_pos size = true.
Hypothesis start_not_end : pt_eqb start_pos end_pos = false.

(** Past the three checks only the name of the method decides. *)
Lemma solve_snake_dispatch (limit : nat) (method : string) :
  solve_snake ix limit start_pos end_pos size method =
    if String.eqb method "recursive"
    then solve_snake ix limit start_pos end_pos size "recursive"
    else if String.eqb method "non-recursive"
    then solve_snake ix limit start_pos end_pos size "non-recursive"
    else Raise (ValueError (UnknownMethod method)).
Proof.
  unfold solve_snake. rewrite start_valid, end_valid, start_not_end. cbn [negb].
  destruct (String.eqb method "recursive"); [reflexivity|].
  change (String.eqb "non-recursive" "recursive") with false.
  change (String.eqb "non-recursive" "non-recursive") with true. cbv iota.
  reflexivity.
Qed.

Hypothesis ix_lawful : lawful ix.

(** A request that passes the checks has one answer.  The loop returns
    it; the recursion returns it when it may nest [rows * cols] calls,
    and under any limit returns it or ends in [RecursionError]; whatever
    list is returned under either method is the answer; any other method
    name is an exception. *)
Lemma solve_snake_answer :
  exists answer,
    (forall limit, solve_snake ix limit start_pos end_pos size "non-recursive" = Ok answer) /\
    (forall limit, (Z.to_nat (size.1 * size.2) <= limit)%nat ->
       solve_snake ix limit start_pos end_pos size "recursive" = Ok answer) /\
    (forall limit,
       solve_snake ix limit start_pos end_pos size "recursive" = Ok answer \/
       solve_snake ix limit start_pos end_pos size "recursive" = Raise RecursionError) /\
    (forall limit method p,
       solve_snake ix limit start_pos end_pos size method = Ok p -> p = answer) /\
    (answer <> [] -> hamiltonian size start_pos end_pos answer) /\
    (answer = [] -> forall q, ~ hamiltonian size start_pos end_pos q).
Proof.
  assert (start_pos <> end_pos) as Hne by (apply pt_eqb_neq; exact start_not_end).
  destruct (search_both ix ix_lawful start_pos end_pos size start_valid end_valid Hne)
    as (v0 & answer & _ & _ & _ & Hrec & Hloop & Hfound & Hnone & Hlim).
  exists answer. split; [exact Hloop|]. split; [exact Hrec|]. split; [exact Hlim|].
  split; [|split; assumption].
  intros limit method p. rewrite solve_snake_dispatch.
  destruct (String.eqb method "recursive").
  - destruct (Hlim limit) as [-> | ->]; [congruence | discriminate].
  - destruct (String.eqb method "non-recursive"); [|discriminate].
    rewrite Hloop. congruence.
Qed.

(** With room for [rows * cols] nested calls both methods return the
    answer. *)
Lemma solve_snake_deep (limit : nat) (method : string) (answer : list GridPt) :
  (Z.to_nat (size.1 * size.2) <= limit)%nat ->
  String.eqb method "recursive" || String.eqb method "non-recursive" = true ->
  solve_snake ix limit start_pos end_pos size "non-recursive" = Ok answer ->
  solve_snake ix limit start_pos end_pos size method = Ok answer.
Proof.
  intros Hle Hm Hloop.
  destruct solve_snake_answer as (answer' & Hl & Hr & _).
  rewrite Hl in Hloop. injection Hloop as <-.
  rewrite solve_snake_dispatch.
  destruct (String.eqb method "recursive"); [exact (Hr limit Hle)|].
  destruct (String.eqb method "non-recursive"); [apply Hl | discriminate].
Qed.

End Entry.

Example depth_bound_is_reached :
  _recursive np_index 3 (0, 0) (1, 0)
    (mk_state (mk_ndarray (2, 2) [[false; false]; [false; false]]) [])
  = Raise RecursionError /\
  _recursive np_index 4 (0, 0) (1, 0)
    (mk_state (mk_ndarray (2, 2) [[false; false]; [false; false]]) [])
  = Ok (true, mk_state (mk_ndarray (2, 2) [[true; true]; [true; true]])
                [(0, 0); (0, 1); (1, 1); (1, 0)]).
Proof. split; vm_compute; reflexivity. Qed.


(** ** The invariant of the loop *)

(** Unmarking the last cell and dropping it keeps the invariant. *)
Lemma search_inv_retract size v p0 pos :
  search_inv size v (p0 ++ [pos]) -> search_inv size (poke v pos false) p0.
Proof.
  intros [Hs Hw Hval Hnd Hm].
  apply Forall_app in Hval as [Hval Hv]. rewrite Forall_singleton in Hv.
  apply NoDup_app in Hnd as (Hnd & Hdis & _).
  assert (pos ∉ p0) as Hnotin by (intros Hin; apply (Hdis pos Hin); left).
  split.
  - rewrite shape_poke. exact Hs.
  - apply well_shaped_poke, Hw.
  - exact Hval.
  - exact Hnd.
  - intros c Hc. destruct (decide (c = pos)) as [-> | Hne].
    + rewrite peek_poke_eq by congruence. split; [discriminate | contradiction].
    + apply valid_pos_spec in Hv, Hc as Hc'.
      rewrite peek_poke_ne by (try lia; congruence).
      rewrite (Hm c Hc), elem_of_app, list_elem_of_singleton. tauto.
Qed.

Lemma snoc_cases {A : Type} (l : list A) : l <> [] -> exists l0 x, l = l0 ++ [x].
Proof.
  intros Hne. destruct (last l) as [x|] eqn:E.
  - apply last_Some in E as [l0 ->]. eauto.
  - apply last_None in E. contradiction.
Qed.

Section LoopInvariant.
Variables end_pos size : GridPt.

(** From a state at the top of the loop one pass has one result under
    every lawful index rule: no exception, and when the loop goes on, a
    state at the top of the loop again. *)
Lemma loop_body_step (s : LoopState) :
  loop_inv size s ->
  exists c,
    (forall ix, lawful ix -> loop_body ix end_pos size s = Ok c) /\
    (forall s', c = Continue s' -> loop_inv size s').
Proof.
  destruct s as [p ds v]. intros (Hinv & Hp & Hlen & Hds). cbn [l_path path_dirn l_visited] in *.
  destruct (snoc_cases p Hp) as (p0 & pos & ->).
  destruct (snoc_cases ds) as (ds0 & j & ->).
  { intros ->. rewrite length_app in Hlen. simpl in Hlen. lia. }
  rewrite !length_app in Hlen. simpl in Hlen.
  apply Forall_app in Hds as [Hds0 Hj]. rewrite Forall_singleton in Hj.
  destruct (arrived size end_pos pos (p0 ++ [pos])) eqn:Ha.
  { exists (Return (p0 ++ [pos])). split; [|discriminate].
    intros ix _. apply loop_body_arrived, Ha. }
  destruct (Z.le_gt_cases n_dirns j) as [Hbig | Hsmall].
  - (* backtrack *)
    destruct (decide (p0 = [])) as [-> | Hp0].
    + exists (Return []). split; [|discriminate].
      intros ix Hix. rewrite (loop_body_backtrack ix Hix end_pos size [] pos ds0 j v Hinv Ha Hbig).
      reflexivity.
    + destruct (snoc_cases p0 Hp0) as (p1 & pos1 & ->).
      destruct (snoc_cases ds0) as (ds1 & j1 & ->).
      { intros ->. rewrite length_app in Hlen. simpl in Hlen. lia. }
      apply Forall_app in Hds0 as [Hds1 Hj1]. rewrite Forall_singleton in Hj1.
      exists (Continue (mk_loop (p1 ++ [pos1]) (ds1 ++ [j1 + 1]) (poke v pos false))). split.
      * intros ix Hix.
        rewrite (loop_body_backtrack ix Hix end_pos size _ pos _ j v Hinv Ha Hbig).
        assert (list_is_empty (p1 ++ [pos1]) = false) as -> by (destruct p1; reflexivity).
        unfold advance. cbn [path_dirn l_path l_visited].
        rewrite list_getitem_last. cbn [bind]. rewrite list_setitem_last. reflexivity.
      * intros s' [= <-]. split; [|split; [|split]]; cbn [l_path path_dirn l_visited].
        -- apply search_inv_retract, Hinv.
        -- destruct p1; discriminate.
        -- rewrite !length_app in *. simpl in *. lia.
        -- apply Forall_app. split; [exact Hds1|]. apply Forall_singleton. lia.
  - (* try the direction *)
    destruct (lookup_lt_is_Some_2 _search_dirns (Z.to_nat j)) as [δ Hδ].
    { unfold n_dirns in Hsmall. lia. }
    set (next_pos := (pos.1 + δ.1, pos.2 + δ.2)).
    destruct (valid_pos next_pos size) eqn:Hv;
      [destruct (decide (peek v next_pos = Some true)) as [Hseen | Hfree] |].
    + exists (Continue (mk_loop (p0 ++ [pos]) (ds0 ++ [j + 1]) v)). split.
      * intros ix Hix. apply (loop_body_reject ix Hix end_pos size p0 pos ds0 j δ v); auto.
      * intros s' [= <-]. split; [|split; [|split]]; cbn [l_path path_dirn l_visited].
        -- exact Hinv.
        -- exact Hp.
        -- rewrite !length_app. simpl. lia.
        -- apply Forall_app. split; [exact Hds0|]. apply Forall_singleton. lia.
    + exists (Continue (mk_loop ((p0 ++ [pos]) ++ [next_pos]) ((ds0 ++ [j]) ++ [0])
                          (poke v next_pos true))). split.
      * intros ix Hix. apply (loop_body_push ix Hix end_pos size p0 pos ds0 j δ v); auto.
      * intros s' [= <-]. split; [|split; [|split]]; cbn [l_path path_dirn l_visited].
        -- apply search_inv_commit; assumption.
        -- destruct (p0 ++ [pos]); discriminate.
        -- rewrite !length_app. simpl. lia.
        -- apply Forall_app. split; [|apply Forall_singleton; lia].
           apply Forall_app. split; [exact Hds0 | apply Forall_singleton; exact Hj].
    + exists (Continue (mk_loop (p0 ++ [pos]) (ds0 ++ [j + 1]) v)). split.
      * intros ix Hix. apply (loop_body_reject ix Hix end_pos size p0 pos ds0 j δ v); auto.
      * intros s' [= <-]. split; [|split; [|split]]; cbn [l_path path_dirn l_visited].
        -- exact Hinv.
        -- exact Hp.
        -- rewrite !length_app. simpl. lia.
        -- apply Forall_app. split; [exact Hds0|]. apply Forall_singleton. lia.
Qed.

(** After any number of passes: one result under every lawful rule. *)
Lemma iterate_step (n : nat) : forall s,
  loop_inv size s ->
  exists c,
    (forall ix, lawful ix -> iterate n (loop_body ix end_pos size) s = Ok c) /\
    (forall s', c = Continue s' -> loop_inv size s').
Proof.
  induction n as [|n IH]; intros s Hinv.
  - exists (Continue s). split; [reflexivity|]. intros s' [= <-]. exact Hinv.
  - destruct (loop_body_step s Hinv) as (c & Hc & Hnext).
    destruct c as [s1 | p].
    + destruct (IH s1 (Hnext s1 eq_refl)) as (c' & Hc' & Hnext').
      exists c'. split; [|exact Hnext'].
      intros ix Hix. simpl. rewrite (Hc ix Hix). simpl. apply Hc', Hix.
    + exists (Return p). split; [|discriminate].
      intros ix Hix. simpl. rewrite (Hc ix Hix). reflexivity.
Qed.

End LoopInvariant.

(** The state in which [_non_recursive] enters its loop. *)
Lemma loop_inv_initial (size start_pos : GridPt) (v0 : ndarray bool) :
  valid_pos start_pos size = true ->
  np_zeros size = Ok v0 ->
  loop_inv size (mk_loop [start_pos] [0] (poke v0 start_pos true)).
Proof.
  intros Hs Hz. destruct (valid_pos_nonneg _ _ Hs) as [H1 H2].
  destruct (np_full_ok size false H1 H2) as (v & Hv & Hshape & Hw & Hpeek).
  unfold np_zeros in Hz. rewrite Hv in Hz. injection Hz as ->.
  split; [|split; [discriminate | split; [reflexivity | repeat constructor; lia]]].
  cbn [l_visited l_path]. change [start_pos] with ([] ++ [start_pos]).
  apply search_inv_commit; [| exact Hs | rewrite Hpeek by exact Hs; discriminate].
  apply search_inv_zeros; assumption.
Qed.

(** ** The index rule does not matter *)

Section IndexRules.
Variables ix1 ix2 : Z -> Z -> option nat.
Hypothesis ix1_lawful : lawful ix1.
Hypothesis ix2_lawful : lawful ix2.
Variable end_pos : GridPt.

(** On an array that agrees with its shape a call reads and writes inside
    the bounds only: two lawful index rules give the same run. *)
Lemma recursive_ix_indep (d : nat) : forall pos st,
  well_shaped (visited st) ->
  _recursive ix1 d pos end_pos st = _recursive ix2 d pos end_pos st.
Proof.
  induction d as [|d IH]; intros pos st Hw;
    rewrite (recursive_unfold ix1), (recursive_unfold ix2) by assumption;
    [reflexivity|]. cbv zeta.
  destruct (valid_pos pos (shape (visited st))) eqn:Hv; [|reflexivity]. cbn [negb].
  destruct (bool_decide _); [reflexivity|].
  destruct (pt_eqb pos end_pos && _); [reflexivity|].
  assert (well_shaped (visited (mk_state (poke (visited st) pos true) (path st ++ [pos]))))
    as Hw1 by (apply well_shaped_poke, Hw).
  rewrite (for_dirns_ext (fun p s => _recursive ix1 d p end_pos s)
             (fun p s => _recursive ix2 d p end_pos s)).
  2:{ intros p. apply IH, Hw1. }
  2:{ intros p s' Hc. exact (recursive_restores ix1 ix1_lawful end_pos d _ _ _ Hw1 Hc). }
  destruct (for_dirns _ pos _search_dirns _) as [[b s] | e |] eqn:Hfor;
    cbn [bind fst snd]; try reflexivity.
  destruct b; [reflexivity|].
  apply for_dirns_false in Hfor as [-> _].
  2:{ intros p s' Hc. exact (recursive_restores ix2 ix2_lawful end_pos d _ _ _ Hw1 Hc). }
  cbn [visited path].
  rewrite !setitem_valid; try assumption; try (rewrite shape_poke; exact Hv);
    try (apply well_shaped_poke, Hw).
  reflexivity.
Qed.

(** And no call ends with an exception other than [RecursionError]. *)
Lemma recursive_no_raise (d : nat) (pos : GridPt) (st : SearchState) (e : Exn) :
  well_shaped (visited st) ->
  _recursive ix1 d pos end_pos st = Raise e -> e = RecursionError.
Proof.
  intros Hw He.
  destruct (recursive_outcome ix1 ix1_lawful end_pos d pos st Hw) as [(r & Hr) | Hr];
    congruence.
Qed.

(** The same for [solve_snake] on any request. *)
Lemma solve_snake_ix_indep (limit : nat) (start_pos size : GridPt) (method : string) :
  solve_snake ix1 limit start_pos end_pos size method
  = solve_snake ix2 limit start_pos end_pos size method.
Proof.
  destruct (valid_pos start_pos size) eqn:Hs;
    [| unfold solve_snake; rewrite Hs; reflexivity].
  destruct (valid_pos end_pos size) eqn:He;
    [| unfold solve_snake; rewrite Hs, He; reflexivity].
  destruct (pt_eqb start_pos end_pos) eqn:Hne;
    [unfold solve_snake; rewrite Hs, He, Hne; reflexivity |].
  rewrite (solve_snake_dispatch ix1), (solve_snake_dispatch ix2) by assumption.
  destruct (String.eqb method "recursive").
  - unfold solve_snake. rewrite Hs, He, Hne. cbn [negb].
    change (String.eqb "recursive" "recursive") with true. cbv iota.
    destruct (valid_pos_nonneg _ _ Hs) as [H1 H2].
    destruct (np_full_ok size false H1 H2) as (v & Hv & _ & Hw & _).
    unfold np_zeros. rewrite Hv. cbn [bind].
    rewrite recursive_ix_indep by exact Hw. reflexivity.
  - destruct (String.eqb method "non-recursive"); [|reflexivity].
    destruct (solve_snake_answer ix1 start_pos end_pos size Hs He Hne ix1_lawful)
      as (a1 & Hl1 & Hr1 & _).
    destruct (solve_snake_answer ix2 start_pos end_pos size Hs He Hne ix2_lawful)
      as (a2 & Hl2 & Hr2 & _).
    rewrite Hl1, Hl2. f_equal.
    specialize (Hr1 _ (Nat.le_refl _)). specialize (Hr2 _ (Nat.le_refl _)).
    unfold solve_snake in Hr1, Hr2. rewrite Hs, He, Hne in Hr1, Hr2. cbn [negb] in Hr1, Hr2.
    change (String.eqb "recursive" "recursive") with true in Hr1, Hr2. cbv iota in Hr1, Hr2.
    destruct (valid_pos_nonneg _ _ Hs) as [H1 H2].
    destruct (np_full_ok size false H1 H2) as (v & Hv & _ & Hw & _).
    unfold np_zeros in Hr1, Hr2. rewrite Hv in Hr1, Hr2. cbn [bind] in Hr1, Hr2.
    rewrite recursive_ix_indep in Hr1 by exact Hw. congruence.
Qed.

End IndexRules.

Lemma solve_snake_no_index_error ix (limit : nat) (start_pos end_pos size : GridPt)
    (method : string) :
  lawful ix -> solve_snake ix limit start_pos end_pos size method <> Raise IndexError.
Proof.
  intros Hix.
  destruct (valid_pos start_pos size) eqn:Hs;
    [| unfold solve_snake; rewrite Hs; discriminate].
  destruct (valid_pos end_pos size) eqn:He;
    [| unfold solve_snake; rewrite Hs, He; discriminate].
  destruct (pt_eqb start_pos end_pos) eqn:Hne;
    [unfold solve_snake; rewrite Hs, He, Hne; discriminate |].
  destruct (solve_snake_answer ix start_pos end_pos size Hs He Hne Hix)
    as (a & Hl & _ & Hlim & _).
  rewrite solve_snake_dispatch by assumption.
  destruct (String.eqb method "recursive").
  - destruct (Hlim limit) as [-> | ->]; discriminate.
  - destruct (String.eqb method "non-recursive"); [|discriminate].
    rewrite Hl. discriminate.
Qed.

(** What [solve_snake] returns it returns under every larger limit. *)
Lemma solve_snake_deeper ix (limit limit' : nat) (start_pos end_pos size : GridPt)
    (method : string) (p : list GridPt) :
  lawful ix -> (limit <= limit')%nat ->
  solve_snake ix limit start_pos end_pos size method = Ok p ->
  solve_snake ix limit' start_pos end_pos size method = Ok p.
Proof.
  intros Hix Hle. unfold solve_snake.
  destruct (valid_pos start_pos size) eqn:Hs; [|discriminate].
  destruct (valid_pos end_pos size) eqn:He; [|discriminate].
  destruct (pt_eqb start_pos end_pos) eqn:Hne; [discriminate|]. cbn [negb].
  destruct (String.eqb method "recursive"); [|auto].
  destruct (valid_pos_nonneg _ _ Hs) as [H1 H2].
  destruct (np_full_ok size false H1 H2) as (v & Hv & _ & Hw & _).
  unfold np_zeros. rewrite Hv. cbn [bind].
  intros H. apply bind_Ok in H as (r & Hr & H).
  rewrite (recursive_deeper ix Hix end_pos limit limit' start_pos (mk_state v []) r Hw Hle Hr).
  exact H.
Qed.

(** ** The observed run *)

Lemma search_inv_marks_agree size v p : search_inv size v p -> marks_agree size v p.
Proof.
  intros Hinv c. split.
  - intros [Hc Hm]. apply (inv_marks _ _ _ Hinv c Hc), Hm.
  - intros Hin. pose proof (inv_valid _ _ _ Hinv) as Hval.
    rewrite Forall_forall in Hval. split; [auto|].
    apply (inv_marks _ _ _ Hinv c); auto.
Qed.

(** The array is fixed by the path: two arrays that both satisfy the
    invariant with one path are equal. *)
Lemma ndarray_ext {A : Type} (a b : ndarray A) :
  shape a = shape b -> well_shaped a -> well_shaped b ->
  (forall pos, valid_pos pos (shape a) = true -> peek a pos = peek b pos) ->
  a = b.
Proof.
  destruct a as [[rows cols] ia], b as [sb ib]. cbn [shape]. intros <- [Hla Hra] [Hlb Hrb] Hpeek.
  cbn [shape items fst snd] in *. f_equal. apply list_eq. intros i.
  destruct (decide (i < Z.to_nat rows)%nat) as [Hi | Hi].
  - destruct (lookup_lt_is_Some_2 ia i) as [ra Ha]; [lia|].
    destruct (lookup_lt_is_Some_2 ib i) as [rb Hb]; [lia|].
    rewrite Ha, Hb. f_equal. apply list_eq. intros j.
    rewrite Forall_forall in Hra, Hrb.
    assert (length ra = Z.to_nat cols) as Hlra by (apply Hra, list_elem_of_lookup; eauto).
    assert (length rb = Z.to_nat cols) as Hlrb by (apply Hrb, list_elem_of_lookup; eauto).
    destruct (decide (j < Z.to_nat cols)%nat) as [Hj | Hj].
    + specialize (Hpeek (Z.of_nat i, Z.of_nat j)). unfold peek in Hpeek.
      cbn [items fst snd] in Hpeek. rewrite !Nat2Z.id, Ha, Hb in Hpeek.
      apply Hpeek, valid_pos_spec. cbn [fst snd]. lia.
    + rewrite !lookup_ge_None_2 by lia. reflexivity.
  - rewrite !lookup_ge_None_2 by lia. reflexivity.
Qed.

Lemma search_inv_determines size v v' p :
  search_inv size v p -> search_inv size v' p -> v = v'.
Proof.
  intros [Hs Hw _ _ Hm] [Hs' Hw' _ _ Hm'].
  apply ndarray_ext; try assumption; [congruence|].
  rewrite Hs. intros pos Hv.
  specialize (Hm pos Hv). specialize (Hm' pos Hv).
  destruct (peek_valid v pos Hw) as [x Hx]; [congruence|].
  destruct (peek_valid v' pos Hw') as [x' Hx']; [congruence|].
  rewrite Hx, Hx' in *. f_equal.
  destruct x, x'; try reflexivity.
  - assert (Some false = Some true) by (apply Hm', Hm; reflexivity). discriminate.
  - assert (Some false = Some true) by (apply Hm, Hm'; reflexivity). discriminate.
Qed.

Section ObservedDirns.
Variable call_obs :
  GridPt -> SearchState -> list SearchState * Outcome (bool * SearchState).
Variable call : GridPt -> SearchState -> Outcome (bool * SearchState).
Variable pos : GridPt.
Hypothesis call_erase : forall p s, (call_obs p s).2 = call p s.

Lemma for_dirns_obs_erase dirns : forall st,
  (for_dirns_obs call_obs pos dirns st).2 = for_dirns call pos dirns st.
Proof.
  induction dirns as [|δ rest IH]; intros st; [reflexivity|].
  cbn [for_dirns_obs]. cbv zeta.
  change (for_dirns call pos (δ :: rest) st)
    with (let* r := call (pos.1 + δ.1, pos.2 + δ.2) st in
          if r.1 then Ok (true, r.2) else for_dirns call pos rest r.2).
  rewrite <- call_erase.
  destruct (call_obs (pos.1 + δ.1, pos.2 + δ.2) st).2 as [[b s] | e |];
    cbn [bind fst snd]; try reflexivity.
  destruct b; [reflexivity|]. apply IH.
Qed.

Variable P : SearchState -> Prop.
Variable st : SearchState.
Hypothesis call_restores : forall p s', call p st = Ok (false, s') -> s' = st.
Hypothesis call_seen : forall p, Forall P (call_obs p st).1.

Lemma for_dirns_obs_seen dirns : Forall P (for_dirns_obs call_obs pos dirns st).1.
Proof.
  induction dirns as [|δ rest IH]; [constructor|].
  cbn [for_dirns_obs]. cbv zeta.
  pose proof (call_seen (pos.1 + δ.1, pos.2 + δ.2)) as Hseen.
  pose proof (call_erase (pos.1 + δ.1, pos.2 + δ.2) st) as Herase.
  destruct (call_obs (pos.1 + δ.1, pos.2 + δ.2) st) as [log [[b s] | e |]];
    cbn [fst snd] in *; try exact Hseen.
  destruct b; [exact Hseen|].
  rewrite (call_restores _ _ (eq_sym Herase)).
  cbn [fst]. apply Forall_app. split; [exact Hseen | exact IH].
Qed.

End ObservedDirns.

Section Observed.
Variable ix : Z -> Z -> option nat.
Variable end_pos : GridPt.

(** The observed search runs as the search does. *)
Lemma recursive_obs_erase (d : nat) : forall pos st,
  (_recursive_obs ix d pos end_pos st).2 = _recursive ix d pos end_pos st.
Proof.
  induction d as [|d IH]; intros pos st; cbn [_recursive_obs _recursive]; cbv zeta;
    cbn [snd];
    (destruct (negb (valid_pos pos (shape (visited st)))); [reflexivity|]);
    (destruct (getitem ix (visited st) pos) as [[|] | e |]; cbn [bind]; try reflexivity);
    (destruct (setitem ix (visited st) pos true) as [v1 | e |]; cbn [bind]; try reflexivity);
    (destruct (pt_eqb pos end_pos && _); [reflexivity|]); [reflexivity|].
  cbn [snd].
  rewrite (for_dirns_obs_erase _ (fun p s => _recursive ix d p end_pos s)); [reflexivity|].
  intros p s. apply IH.
Qed.

Hypothesis ix_lawful : lawful ix.
Variable size : GridPt.

(** Whatever is seen at the entry or at the return of a call satisfies
    the invariant of the search. *)
Lemma recursive_obs_inv (d : nat) : forall pos st,
  search_inv size (visited st) (path st) ->
  Forall (fun s => search_inv size (visited s) (path s))
    (_recursive_obs ix d pos end_pos st).1.
Proof.
  induction d as [|d IH]; intros pos st Hinv;
    pose proof (inv_shape _ _ _ Hinv) as Hs;
    pose proof (inv_well_shaped _ _ _ Hinv) as Hw;
    [ pose proof (recursive_obs_erase 0 pos st) as Herase
    | pose proof (recursive_obs_erase (S d) pos st) as Herase ];
    revert Herase; cbn [_recursive_obs]; cbv zeta; cbn [fst snd];
    (destruct (valid_pos pos (shape (visited st))) eqn:Hv; cbn [negb fst snd exit_of app];
     [| intros _; apply Forall_cons; split; [|apply Forall_singleton]; exact Hinv]);
    destruct (getitem_valid ix _ _ ix_lawful Hw Hv) as (x & Hx & ->);
    (destruct x; cbn [fst snd exit_of app];
     [intros _; apply Forall_cons; split; [|apply Forall_singleton]; exact Hinv|]);
    rewrite (setitem_valid ix _ _ _ ix_lawful Hw Hv);
    rewrite Hs in Hv;
    assert (peek (visited st) pos <> Some true) as Hfree by congruence;
    pose proof (search_inv_commit _ _ _ _ Hinv Hv Hfree) as Hinv1;
    (destruct (pt_eqb pos end_pos && _) eqn:Hdone; cbn [fst snd exit_of app];
     [intros _; apply Forall_cons; split; [exact Hinv | apply Forall_singleton; exact Hinv1]|]);
    intros Herase; apply Forall_cons; (split; [exact Hinv|]);
    [apply Forall_nil; exact I|].
  apply Forall_app. split.
  - apply (for_dirns_obs_seen _ (fun p s => _recursive ix d p end_pos s)).
    + intros p s. apply recursive_obs_erase.
    + intros p s' Hc. apply (recursive_restores ix ix_lawful end_pos d) in Hc; [exact Hc|].
      exact (inv_well_shaped _ _ _ Hinv1).
    + intros p. apply IH. exact Hinv1.
  - rewrite Herase.
    destruct (_recursive ix (S d) pos end_pos st) as [[b s] | e |] eqn:Hrun;
      cbn [exit_of]; try (apply Forall_nil; exact I).
    apply Forall_singleton. cbn [snd]. destruct b.
    + apply (recursive_sound ix ix_lawful end_pos size (S d) pos st s Hinv Hrun).
    + apply (recursive_restores ix ix_lawful end_pos (S d)) in Hrun as ->; assumption.
Qed.

End Observed.

(** The two index rules do differ outside the bounds: NumPy reads -1 as
    the last offset, the checking rule refuses it. *)
Example np_index_wraps :
  getitem np_index (mk_ndarray (2, 2) [[false; false]; [true; true]]) (-1, 0) = Ok true /\
  getitem strict_index (mk_ndarray (2, 2) [[false; false]; [true; true]]) (-1, 0)
    = Raise IndexError.
Proof. split; reflexivity. Qed.

(** ** Counting characters *)

Lemma count_occ_insert (l : list char) (i : nat) (old y x : char) :
  l !! i = Some old ->
  (count_occ N.eq_dec (<[i := y]> l) x + (if N.eq_dec old x then 1 else 0)
   = count_occ N.eq_dec l x + (if N.eq_dec y x then 1 else 0))%nat.
Proof.
  revert i. induction l as [|a l IH]; intros i; [rewrite lookup_nil; discriminate|].
  destruct i as [|i]; simpl.
  - intros [= ->]. destruct (N.eq_dec y x), (N.eq_dec old x); lia.
  - intros Hi. specialize (IH i Hi). destruct (N.eq_dec a x); lia.
Qed.

Lemma count_occ_concat_insert (ll : list (list char)) (r : nat) (row row' : list char)
    (x : char) :
  ll !! r = Some row ->
  (count_occ N.eq_dec (concat (<[r := row']> ll)) x + count_occ N.eq_dec row x
   = count_occ N.eq_dec (concat ll) x + count_occ N.eq_dec row' x)%nat.
Proof.
  revert r. induction ll as [|a ll IH]; intros r; [rewrite lookup_nil; discriminate|].
  destruct r as [|r]; simpl.
  - intros [= ->]. rewrite !count_occ_app. lia.
  - intros Hr. specialize (IH r Hr). rewrite !count_occ_app. lia.
Qed.

Lemma count_char_poke (g : ndarray char) (p : Z * Z) (old y x : char) :
  peek g p = Some old ->
  (count_char x (items (poke g p y)) + (if N.eq_dec old x then 1 else 0)
   = count_char x (items g) + (if N.eq_dec y x then 1 else 0))%nat.
Proof.
  unfold peek, poke, count_char.
  destruct (items g !! Z.to_nat p.1) as [row|] eqn:Hrow; [|discriminate].
  intros Hold. cbn [items].
  pose proof (count_occ_concat_insert (items g) _ row (<[Z.to_nat p.2 := y]> row) x Hrow).
  pose proof (count_occ_insert row _ old y x Hold). lia.
Qed.

Lemma count_char_peek (g : ndarray char) (p : Z * Z) (x : char) :
  peek g p = Some x -> (0 < count_char x (items g))%nat.
Proof.
  unfold peek, count_char.
  destruct (items g !! Z.to_nat p.1) as [row|] eqn:Hrow; [|discriminate].
  intros Hx. apply count_occ_In, in_concat. exists row.
  split; apply list_elem_of_In, list_elem_of_lookup; eauto.
Qed.

(** ** The empty character grid *)

Lemma set_strided_well_shaped {A : Type} (a : ndarray A) rs cs (x : A) :
  well_shaped a -> well_shaped (set_strided a rs cs x).
Proof.
  intros [Hlen Hrows]. split; cbn [set_strided items shape].
  - rewrite length_imap. exact Hlen.
  - apply Forall_forall. intros row Hrow.
    apply elem_of_lookup_imap in Hrow as (r & row0 & -> & Hr).
    rewrite Forall_forall in Hrows.
    assert (length row0 = Z.to_nat (shape a).2) as Hl
      by (apply Hrows, list_elem_of_lookup; eauto).
    destruct (_ =? _)%nat; [rewrite length_imap|]; exact Hl.
Qed.

Lemma set_strided_chars {A : Type} (a : ndarray A) rs cs (x y : A) :
  In y (concat (items (set_strided a rs cs x))) -> y = x \/ In y (concat (items a)).
Proof.
  cbn [set_strided items]. intros Hin. apply in_concat in Hin as (row & Hrow & Hy).
  apply list_elem_of_In, elem_of_lookup_imap in Hrow as (r & row0 & -> & Hr).
  assert (y = x \/ In y row0) as [-> | Hy0].
  { destruct (_ =? _)%nat; [|right; exact Hy].
    apply list_elem_of_In, elem_of_lookup_imap in Hy as (c & y0 & -> & Hc).
    destruct (_ =? _)%nat; [left; reflexivity|].
    right. apply list_elem_of_In, list_elem_of_lookup. eauto. }
  - left. reflexivity.
  - right. apply in_concat. exists row0. split; [|exact Hy0].
    apply list_elem_of_In, list_elem_of_lookup. eauto.
Qed.

Lemma np_full_chars {A : Type} (size : Z * Z) (x y : A) (a : ndarray A) :
  np_full size x = Ok a -> In y (concat (items a)) -> y = x.
Proof.
  unfold np_full. destruct (_ || _); [discriminate|]. intros [= <-]. cbn [items].
  intros Hin. apply in_concat in Hin as (row & Hrow & Hy).
  apply list_elem_of_In, elem_of_replicate in Hrow as [-> _].
  apply list_elem_of_In, elem_of_replicate in Hy as [-> _]. reflexivity.
Qed.

(** ** Drawing on the character grid *)

Lemma chr_distinct :
  chr_space <> chr_S /\ chr_space <> chr_E /\ chr_point <> chr_S /\ chr_point <> chr_E /\
  chr_S <> chr_E /\
  chr_down <> chr_S /\ chr_down <> chr_E /\ chr_up <> chr_S /\ chr_up <> chr_E /\
  chr_right <> chr_S /\ chr_right <> chr_E /\ chr_left <> chr_S /\ chr_left <> chr_E.
Proof. repeat split; discriminate. Qed.

Section Drawing.
Variable chrs_size : Z * Z.

Lemma poke_on_lattice (g : ndarray char) (q : Z * Z) (y : char) :
  drawn_inv chrs_size g -> valid_pos q chrs_size = true -> on_lattice q ->
  drawn_inv chrs_size (poke g q y).
Proof.
  intros (Hs & Hw & Hlat) Hq Hon. split; [|split].
  - rewrite shape_poke. exact Hs.
  - apply well_shaped_poke, Hw.
  - intros p Hp Hpeek. destruct (decide (p = q)) as [-> | Hne]; [exact Hon|].
    apply valid_pos_spec in Hq as Hq', Hp as Hp'.
    rewrite peek_poke_ne in Hpeek by (try lia; congruence).
    apply Hlat; assumption.
Qed.

(** Writing a character that is neither 'S' nor 'E' off the lattice
    changes nothing on the lattice and no count of 'S' or 'E'. *)
Lemma poke_off_lattice (g : ndarray char) (q : Z * Z) (y : char) :
  drawn_inv chrs_size g -> valid_pos q chrs_size = true -> ~ on_lattice q ->
  y <> chr_S -> y <> chr_E ->
  drawn_inv chrs_size (poke g q y) /\
  (forall p, valid_pos p chrs_size = true -> on_lattice p ->
     peek (poke g q y) p = peek g p) /\
  count_char chr_S (items (poke g q y)) = count_char chr_S (items g) /\
  count_char chr_E (items (poke g q y)) = count_char chr_E (items g).
Proof.
  intros (Hs & Hw & Hlat) Hq Hoff HyS HyE.
  assert (valid_pos q (shape g) = true) as Hq' by congruence.
  destruct (peek_valid g q Hw Hq') as [old Hold].
  assert (old <> chr_S) as HoS by (intros ->; apply Hoff, Hlat; auto).
  assert (old <> chr_E) as HoE by (intros ->; apply Hoff, Hlat; auto).
  split; [|split; [|split]].
  - split; [|split].
    + rewrite shape_poke. exact Hs.
    + apply well_shaped_poke, Hw.
    + intros p Hp Hpeek. destruct (decide (p = q)) as [-> | Hne].
      * rewrite peek_poke_eq in Hpeek by assumption.
        destruct Hpeek as [[= ->] | [= ->]]; contradiction.
      * apply valid_pos_spec in Hq as Hq'', Hp as Hp'.
        rewrite peek_poke_ne in Hpeek by (try lia; congruence).
        apply Hlat; assumption.
  - intros p Hp Hon. apply valid_pos_spec in Hq as Hq'', Hp as Hp'.
    apply peek_poke_ne; try lia. intros ->. contradiction.
  - pose proof (count_char_poke g q old y chr_S Hold) as Hc.
    destruct (N.eq_dec old chr_S), (N.eq_dec y chr_S); try contradiction. lia.
  - pose proof (count_char_poke g q old y chr_E Hold) as Hc.
    destruct (N.eq_dec old chr_E), (N.eq_dec y chr_E); try contradiction. lia.
Qed.

End Drawing.

Section Render.
Variable ix : Z -> Z -> option nat.
Hypothesis ix_lawful : lawful ix.
Variable size : GridPt.

Local Abbreviation chrs_size := (2 * size.1 - 1, 4 * size.2 - 3).

(** One step of the path between cells of the grid: its arrow, if any,
    is written off the lattice. *)
Lemma write_arrow_spec (g : ndarray char) (r1 c1 r2 c2 : Z) :
  valid_pos (r1, c1) size = true -> valid_pos (r2, c2) size = true ->
  drawn_inv chrs_size g ->
  exists g',
    write_arrow ix g (r2 - r1, c2 - c1) (r1 * 2 + (r2 - r1), c1 * 4 + (c2 - c1) * 2) = Ok g' /\
    drawn_inv chrs_size g' /\
    (forall p, valid_pos p chrs_size = true -> on_lattice p -> peek g' p = peek g p) /\
    count_char chr_S (items g') = count_char chr_S (items g) /\
    count_char chr_E (items g') = count_char chr_E (items g).
Proof.
  intros Hv1 Hv2 Hinv. apply valid_pos_spec in Hv1, Hv2. cbn [fst snd] in Hv1, Hv2.
  assert (forall y, y <> chr_S -> y <> chr_E ->
            (r2 - r1 = 1 /\ c2 - c1 = 0) \/ (r2 - r1 = -1 /\ c2 - c1 = 0) \/
            (r2 - r1 = 0 /\ c2 - c1 = 1) \/ (r2 - r1 = 0 /\ c2 - c1 = -1) ->
            exists g',
              setitem ix g (r1 * 2 + (r2 - r1), c1 * 4 + (c2 - c1) * 2) y = Ok g' /\
              drawn_inv chrs_size g' /\
              (forall p, valid_pos p chrs_size = true -> on_lattice p ->
                 peek g' p = peek g p) /\
              count_char chr_S (items g') = count_char chr_S (items g) /\
              count_char chr_E (items g') = count_char chr_E (items g)) as Hwrite.
  { intros y HyS HyE Hδ.
    assert (valid_pos (r1 * 2 + (r2 - r1), c1 * 4 + (c2 - c1) * 2) chrs_size = true) as Hq
      by (apply valid_pos_spec; cbn [fst snd]; lia).
    assert (~ on_lattice (r1 * 2 + (r2 - r1), c1 * 4 + (c2 - c1) * 2)) as Hoff
      by (unfold on_lattice; cbn [fst snd]; Z.to_euclidean_division_equations; lia).
    destruct Hinv as (Hs & Hw & Hlat).
    eexists. split.
    - apply setitem_valid; [exact ix_lawful | exact Hw | rewrite Hs; exact Hq].
    - apply poke_off_lattice; try assumption. split; [|split]; assumption. }
  assert (exists g', Ok g = Ok g' /\ drawn_inv chrs_size g' /\
            (forall p, valid_pos p chrs_size = true -> on_lattice p ->
               peek g' p = peek g p) /\
            count_char chr_S (items g') = count_char chr_S (items g) /\
            count_char chr_E (items g') = count_char chr_E (items g)) as Hkeep
    by (exists g; auto).
  pose proof chr_distinct as Hchr.
  destruct (r2 - r1) as [|[?|?|]|[?|?|]] eqn:Hr;
    destruct (c2 - c1) as [|[?|?|]|[?|?|]] eqn:Hc;
    cbn [write_arrow]; try exact Hkeep;
    apply Hwrite; try tauto; clear Hchr; lia.
Qed.

Lemma draw_steps_spec (steps : list (GridPt * GridPt)) : forall g,
  Forall (fun s => valid_pos s.1 size = true /\ valid_pos s.2 size = true) steps ->
  drawn_inv chrs_size g ->
  exists g',
    draw_steps ix g steps = Ok g' /\
    drawn_inv chrs_size g' /\
    (forall p, valid_pos p chrs_size = true -> on_lattice p -> peek g' p = peek g p) /\
    count_char chr_S (items g') = count_char chr_S (items g) /\
    count_char chr_E (items g') = count_char chr_E (items g).
Proof.
  induction steps as [|[[r1 c1] [r2 c2]] rest IH]; intros g Hsteps Hinv.
  - exists g. auto.
  - apply Forall_cons in Hsteps as [[Hv1 Hv2] Hrest]. cbn [fst snd] in Hv1, Hv2.
    destruct (write_arrow_spec g r1 c1 r2 c2 Hv1 Hv2 Hinv)
      as (g1 & Hw & Hinv1 & Hlat1 & HS1 & HE1).
    destruct (IH g1 Hrest Hinv1) as (g' & Hd & Hinv' & Hlat' & HS' & HE').
    exists g'. split; [|split; [exact Hinv' | split; [|split; congruence]]].
    + cbn [draw_steps fst snd]. rewrite Hw. exact Hd.
    + intros p Hp Hon. rewrite Hlat', Hlat1 by assumption. reflexivity.
Qed.

Lemma steps_valid (p : list GridPt) :
  Forall (fun c => valid_pos c size = true) p ->
  Forall (fun s => valid_pos s.1 size = true /\ valid_pos s.2 size = true)
    (zip p (tail p)).
Proof.
  intros Hval. rewrite Forall_forall in Hval. apply Forall_forall. intros [a b] Hin.
  split; cbn [fst snd]; apply Hval.
  - exact (elem_of_zip_l _ _ _ _ Hin).
  - apply elem_of_zip_r in Hin. destruct p; [exact Hin | right; exact Hin].
Qed.

(** The rendering of a path of grid cells. *)
Lemma print_path_spec (p : list GridPt) (s e : GridPt) :
  Forall (fun c => valid_pos c size = true) p ->
  head p = Some s -> last p = Some e ->
  exists chrs,
    print_path ix p size = Ok ([[]] ++ items chrs ++ [[]]) /\
    shape chrs = chrs_size /\ well_shaped chrs /\
    peek chrs (e.1 * 2, e.2 * 4) = Some chr_E /\
    (s <> e ->
     peek chrs (s.1 * 2, s.2 * 4) = Some chr_S /\
     count_char chr_S (items chrs) = 1%nat /\
     count_char chr_E (items chrs) = 1%nat).
Proof.
  intros Hval Hhd Hlast.
  assert (valid_pos s size = true) as Hs.
  { rewrite Forall_forall in Hval. apply Hval. destruct p; [discriminate|].
    injection Hhd as ->. left. }
  assert (valid_pos e size = true) as He.
  { rewrite Forall_forall in Hval. apply Hval, last_Some_elem_of, Hlast. }
  apply valid_pos_spec in Hs as Hs', He as He'.
  destruct (np_full_ok chrs_size chr_space) as (g0 & Hg0 & Hshape0 & Hw0 & _);
    [cbn [fst]; lia | cbn [snd]; lia |].
  set (g1 := set_strided g0 2 4 chr_point).
  assert (forall y, In y (concat (items g1)) -> y = chr_point \/ y = chr_space) as Hchars.
  { intros y Hy. apply set_strided_chars in Hy as [-> | Hy]; [left; reflexivity|].
    right. exact (np_full_chars _ _ _ _ Hg0 Hy). }
  assert (count_char chr_S (items g1) = 0%nat) as HS1.
  { apply count_occ_not_In. intros Hin. destruct (Hchars _ Hin); discriminate. }
  assert (count_char chr_E (items g1) = 0%nat) as HE1.
  { apply count_occ_not_In. intros Hin. destruct (Hchars _ Hin); discriminate. }
  assert (drawn_inv chrs_size g1) as Hinv1.
  { split; [exact Hshape0 | split; [apply set_strided_well_shaped, Hw0|]].
    intros q _ [Hq | Hq]; apply count_char_peek in Hq.
    - rewrite HS1 in Hq. inversion Hq.
    - rewrite HE1 in Hq. inversion Hq. }
  assert (valid_pos (s.1 * 2, s.2 * 4) chrs_size = true) as HSpos
    by (apply valid_pos_spec; cbn [fst snd]; lia).
  assert (valid_pos (e.1 * 2, e.2 * 4) chrs_size = true) as HEpos
    by (apply valid_pos_spec; cbn [fst snd]; lia).
  assert (on_lattice (s.1 * 2, s.2 * 4)) as HSon
    by (unfold on_lattice; cbn [fst snd]; rewrite !Z.mod_mul by lia; auto).
  assert (on_lattice (e.1 * 2, e.2 * 4)) as HEon
    by (unfold on_lattice; cbn [fst snd]; rewrite !Z.mod_mul by lia; auto).
  set (g2 := poke g1 (s.1 * 2, s.2 * 4) chr_S).
  set (g3 := poke g2 (e.1 * 2, e.2 * 4) chr_E).
  pose proof (poke_on_lattice chrs_size g1 _ chr_S Hinv1 HSpos HSon) as Hinv2.
  fold g2 in Hinv2.
  pose proof (poke_on_lattice chrs_size g2 _ chr_E Hinv2 HEpos HEon) as Hinv3.
  fold g3 in Hinv3.
  destruct (draw_steps_spec (zip p (tail p)) g3 (steps_valid p Hval) Hinv3)
    as (g4 & Hdraw & Hinv4 & Hlat4 & HS4 & HE4).
  exists g4.
  destruct Hinv1 as (Hsh1 & Hw1 & _). destruct Hinv2 as (Hsh2 & Hw2 & _).
  destruct Hinv4 as (Hsh4 & Hw4 & _).
  assert (peek g3 (e.1 * 2, e.2 * 4) = Some chr_E) as HpE
    by (apply peek_poke_eq; [exact Hw2 | rewrite Hsh2; exact HEpos]).
  split; [|split; [exact Hsh4 | split; [exact Hw4 | split]]].
  - unfold print_path. cbv zeta. rewrite Hg0. cbn [bind]. fold g1.
    assert (list_getitem p 0 = Ok s) as ->.
    { destruct p as [|a p']; [discriminate|]. injection Hhd as ->. reflexivity. }
    cbn [bind].
    rewrite (setitem_valid ix g1 _ chr_S ix_lawful Hw1) by (rewrite Hsh1; exact HSpos).
    cbn [bind]. fold g2.
    assert (list_getitem p (-1) = Ok e) as ->.
    { apply last_Some in Hlast as [p' ->]. apply list_getitem_last. }
    cbn [bind].
    rewrite (setitem_valid ix g2 _ chr_E ix_lawful Hw2) by (rewrite Hsh2; exact HEpos).
    cbn [bind]. fold g3. rewrite Hdraw. reflexivity.
  - rewrite Hlat4 by assumption. exact HpE.
  - intros Hne.
    assert ((s.1 * 2, s.2 * 4) <> (e.1 * 2, e.2 * 4)) as Hpos.
    { intros [= H1 H2]. apply Hne. destruct s, e. cbn [fst snd] in *. f_equal; lia. }
    assert (peek g2 (s.1 * 2, s.2 * 4) = Some chr_S) as HpS
      by (apply peek_poke_eq; [exact Hw1 | rewrite Hsh1; exact HSpos]).
    assert (valid_pos (s.1 * 2, s.2 * 4) (shape g1) = true) as HSpos1 by (rewrite Hsh1; exact HSpos).
    assert (valid_pos (e.1 * 2, e.2 * 4) (shape g1) = true) as HEpos1 by (rewrite Hsh1; exact HEpos).
    destruct (peek_valid g1 _ Hw1 HSpos1) as [o1 Ho1].
    destruct (peek_valid g1 _ Hw1 HEpos1) as [o2 Ho2].
    assert (peek g2 (e.1 * 2, e.2 * 4) = Some o2) as Ho2'.
    { unfold g2. rewrite peek_poke_ne; cbn [fst snd]; try lia; assumption. }
    pose proof (count_char_peek g1 _ _ Ho1) as Hc1.
    pose proof (count_char_peek g1 _ _ Ho2) as Hc2.
    pose proof (count_char_poke g1 _ o1 chr_S chr_S Ho1) as HcS2.
    pose proof (count_char_poke g1 _ o1 chr_S chr_E Ho1) as HcE2.
    pose proof (count_char_poke g2 _ o2 chr_E chr_S Ho2') as HcS3.
    pose proof (count_char_poke g2 _ o2 chr_E chr_E Ho2') as HcE3.
    fold g2 in HcS2, HcE2. fold g3 in HcS3, HcE3.
    assert (o1 <> chr_S) as Ho1S
      by (intros ->; rewrite HS1 in Hc1; inversion Hc1).
    assert (o2 <> chr_S) as Ho2S
      by (intros ->; rewrite HS1 in Hc2; inversion Hc2).
    assert (o1 <> chr_E) as Ho1E.
    { intros ->. pose proof (count_char_peek g1 _ _ Ho1) as Hc. rewrite HE1 in Hc. inversion Hc. }
    assert (o2 <> chr_E) as Ho2E.
    { intros ->. pose proof (count_char_peek g1 _ _ Ho2) as Hc. rewrite HE1 in Hc. inversion Hc. }
    clear Hc1 Hc2.
    destruct (N.eq_dec o1 chr_S) as [? | _]; [contradiction|].
    destruct (N.eq_dec o1 chr_E) as [? | _]; [contradiction|].
    destruct (N.eq_dec o2 chr_S) as [? | _]; [contradiction|].
    destruct (N.eq_dec o2 chr_E) as [? | _]; [contradiction|].
    destruct (N.eq_dec chr_S chr_S) as [_ | ?]; [|contradiction].
    destruct (N.eq_dec chr_E chr_E) as [_ | ?]; [|contradiction].
    destruct (N.eq_dec chr_S chr_E) as [? | _]; [discriminate|].
    destruct (N.eq_dec chr_E chr_S) as [? | _]; [discriminate|].
    rewrite HS1, HE1 in *.
    split; [|split; [rewrite HS4 | rewrite HE4]; clear -HcS2 HcE2 HcS3 HcE3; lia].
    rewrite Hlat4 by assumption. unfold g3.
    rewrite peek_poke_ne; cbn [fst snd]; try lia; [exact HpS|].
    intros Heq. apply Hpos. symmetry. exact Heq.
Qed.

End Render.

(** * The grid of one row *)

(** On a grid of one row the recursion walks from the left end to the
    right and nests one call more with every cell: the row shows how
    deeply [_recursive] nests. *)

Lemma for_dirns_cons (call : GridPt -> SearchState -> Outcome (bool * SearchState))
    (pos δ : GridPt) (rest : list GridPt) (st : SearchState) :
  for_dirns call pos (δ :: rest) st =
    (let* r := call (pos.1 + δ.1, pos.2 + δ.2) st in
     if r.1 then Ok (true, r.2) else for_dirns call pos rest r.2).
Proof. reflexivity. Qed.

Lemma chain_lookup (p : list GridPt) : forall i a b,
  chain p -> p !! i = Some a -> p !! S i = Some b -> unit_step a b.
Proof.
  induction p as [|x p IH]; intros i a b Hch Ha Hb; [discriminate|].
  destruct p as [|y p]; [discriminate|]. destruct Hch as [Hstep Hch].
  destruct i as [|i].
  - injection Ha as ->. injection Hb as ->. exact Hstep.
  - exact (IH i a b Hch Ha Hb).
Qed.

Lemma row_line_lookup (n : Z) (i : nat) :
  Z.of_nat i < n -> row_line n !! i = Some (0, Z.of_nat i).
Proof.
  intros Hi. unfold row_line. rewrite list_lookup_fmap, lookup_seqZ_lt by lia.
  reflexivity.
Qed.

Lemma row_line_length (n : Z) : 0 <= n -> Z.of_nat (length (row_line n)) = n.
Proof. intros Hn. unfold row_line. rewrite length_fmap, length_seqZ. lia. Qed.

Lemma chain_of_lookup (p : list GridPt) :
  (forall i a b, p !! i = Some a -> p !! S i = Some b -> unit_step a b) -> chain p.
Proof.
  induction p as [|x p IH]; intros H; [exact I|].
  destruct p as [|y p]; [exact I|]. split.
  - exact (H 0%nat x y eq_refl eq_refl).
  - apply IH. intros i a b Ha Hb. exact (H (S i) a b Ha Hb).
Qed.

Lemma row_line_hamiltonian (n : Z) :
  1 <= n -> hamiltonian (1, n) (0, 0) (0, n - 1) (row_line n).
Proof.
  intros Hn. pose proof (row_line_length n ltac:(lia)) as Hlen.
  split; [cbn [fst snd]; lia|]. split; [|split; [|split; [|split]]].
  - rewrite head_lookup. apply (row_line_lookup n 0). lia.
  - rewrite last_lookup, (row_line_lookup n) by lia. f_equal. f_equal. lia.
  - unfold row_line. apply NoDup_fmap_2; [|apply NoDup_seqZ].
    intros a b [= ->]. reflexivity.
  - intros [c1 c2] Hc. apply valid_pos_spec in Hc. cbn [fst snd] in Hc.
    unfold row_line. apply list_elem_of_fmap. exists c2. split.
    + f_equal. lia.
    + apply elem_of_seqZ. lia.
  - apply chain_of_lookup. intros i a b Ha Hb.
    apply lookup_lt_Some in Hb as Hi.
    rewrite (row_line_lookup n) in Ha by lia. rewrite (row_line_lookup n) in Hb by lia.
    injection Ha as <-. injection Hb as <-.
    exists (0, 1). split; [repeat constructor|]. cbn [fst snd]. f_equal. lia.
Qed.

(** In a grid of one row a Hamiltonian path from the left end runs along
    the row. *)
Lemma row_line_unique (n : Z) (e : GridPt) (q : list GridPt) :
  hamiltonian (1, n) (0, 0) e q -> q = row_line n.
Proof.
  intros (Hlen & Hhd & _ & Hnd & Hcov & Hch). cbn [fst snd] in Hlen.
  assert (Forall (fun c => valid_pos c (1, n) = true) q) as Hval.
  { apply cover_valid; cbn [fst snd]; [lia | lia | lia | exact Hcov]. }
  assert (forall i k : nat, (k <= i)%nat -> (i < length q)%nat ->
            q !! k = Some (0, Z.of_nat k)) as Hall.
  { induction i as [|i IH]; intros k Hk Hi.
    - assert (k = 0%nat) as -> by lia. rewrite <- head_lookup. exact Hhd.
    - destruct (decide (k = S i)) as [-> | Hne]; [|apply (IH k); lia].
      destruct (lookup_lt_is_Some_2 q (S i) Hi) as [b Hb].
      pose proof (IH i ltac:(lia) ltac:(lia)) as Ha.
      destruct (chain_lookup q i _ b Hch Ha Hb) as (δ & Hδ & ->).
      rewrite Forall_lookup in Hval. pose proof (Hval _ _ Hb) as Hv.
      apply valid_pos_spec in Hv. cbn [fst snd] in Hv.
      unfold _search_dirns in Hδ.
      repeat (apply elem_of_cons in Hδ as [-> | Hδ]); cbn [fst snd] in *; try lia.
      + rewrite Hb. f_equal. f_equal. lia.
      + exfalso. destruct i as [|i]; [lia|].
        pose proof (IH i ltac:(lia) ltac:(lia)) as Hprev.
        replace (Z.of_nat (S i) + -1) with (Z.of_nat i) in Hb by lia.
        pose proof (NoDup_lookup q _ _ _ Hnd Hprev Hb). lia.
      + apply elem_of_nil in Hδ. contradiction. }
  apply list_eq. intros i. destruct (decide (i < length q)%nat) as [Hi | Hi].
  - rewrite (Hall i i) by lia. rewrite row_line_lookup by lia. reflexivity.
  - rewrite !lookup_ge_None_2; [reflexivity | | lia].
    pose proof (row_line_length n ltac:(lia)). lia.
Qed.

Lemma row_line_snoc (k : Z) : 0 <= k -> row_line (k + 1) = row_line k ++ [(0, k)].
Proof.
  intros Hk. unfold row_line. rewrite seqZ_app by lia. rewrite fmap_app.
  rewrite (seqZ_cons (0 + k) 1), (seqZ_nil _ (Z.pred 1)) by lia. reflexivity.
Qed.

Lemma row_line_last (n : Z) : 1 <= n -> last (row_line n) = Some (0, n - 1).
Proof.
  intros Hn. replace n with ((n - 1) + 1) at 1 by lia.
  rewrite row_line_snoc by lia. apply last_snoc.
Qed.

Lemma row_line_cols (k : Z) (c : GridPt) : c ∈ row_line k -> c.2 < k.
Proof.
  unfold row_line. intros Hin. apply list_elem_of_fmap in Hin as (j & -> & Hj).
  apply elem_of_seqZ in Hj. cbn [snd]. lia.
Qed.

(** A call for a position off the grid returns [False] at once. *)
Lemma recursive_off_grid ix (d : nat) (pos end_pos : GridPt) (st : SearchState) :
  valid_pos pos (shape (visited st)) = false ->
  _recursive ix d pos end_pos st = Ok (false, st).
Proof. intros Hv. destruct d; cbn [_recursive]; rewrite Hv; reflexivity. Qed.

Section Row.
Variable ix : Z -> Z -> option nat.
Hypothesis ix_lawful : lawful ix.
Variable n : Z.
Variable end_pos : GridPt.

(** The call for the cell [(0, k)] with the cells to its left on the
    path: what the tests at its entry give. *)
Lemma row_call_entry (k : Z) (st : SearchState) :
  search_inv (1, n) (visited st) (path st) ->
  path st = row_line k -> 0 <= k < n ->
  valid_pos (0, k) (1, n) = true /\
  bool_decide (peek (visited st) (0, k) = Some true) = false /\
  search_inv (1, n) (poke (visited st) (0, k) true) (row_line (k + 1)) /\
  Z.of_nat (length (path st ++ [(0, k)])) = k + 1.
Proof.
  intros Hinv Hp Hk.
  assert (valid_pos (0, k) (1, n) = true) as Hv by (apply valid_pos_spec; cbn; lia).
  assert (peek (visited st) (0, k) <> Some true) as Hfree.
  { intros Hseen. apply (inv_marks _ _ _ Hinv) in Hseen; [|exact Hv].
    rewrite Hp in Hseen. apply row_line_cols in Hseen. cbn in Hseen. lia. }
  split; [exact Hv|]. split; [apply bool_decide_eq_false_2, Hfree|]. split.
  - rewrite row_line_snoc by lia. rewrite <- Hp. apply search_inv_commit; assumption.
  - rewrite Hp, <- row_line_snoc by lia. apply row_line_length. lia.
Qed.

(** With fewer nested calls allowed than cells remain to the right, the
    call ends in [RecursionError], wherever the end is. *)
Lemma row_raises (d : nat) : forall k st,
  search_inv (1, n) (visited st) (path st) ->
  path st = row_line k -> 0 <= k ->
  k + Z.of_nat d + 1 < n ->
  _recursive ix d (0, k) end_pos st = Raise RecursionError.
Proof.
  induction d as [|d IH]; intros k st Hinv Hp Hk Hd;
    destruct (row_call_entry k st Hinv Hp ltac:(lia)) as (Hv & Hfree & Hinv1 & Hlen);
    rewrite recursive_unfold by (exact ix_lawful || exact (inv_well_shaped _ _ _ Hinv));
    cbv zeta; rewrite (inv_shape _ _ _ Hinv), Hv, Hfree, Hlen; cbn [negb fst snd];
    (replace (k + 1 =? 1 * n) with false by (symmetry; apply Z.eqb_neq; lia));
    rewrite andb_false_r; [reflexivity|].
  unfold _search_dirns.
  do 2 (rewrite for_dirns_cons; cbv beta; cbn [fst snd];
        rewrite recursive_off_grid
          by (cbn [visited]; rewrite shape_poke, (inv_shape _ _ _ Hinv);
              apply not_true_iff_false; rewrite valid_pos_spec; cbn; lia);
        cbn [bind fst snd]).
  rewrite for_dirns_cons. cbv beta. cbn [fst snd]. change (0 + 0) with 0.
  rewrite (IH (k + 1)); [reflexivity | | | lia | lia].
  - cbn [visited path]. rewrite Hp, <- row_line_snoc by lia. exact Hinv1.
  - cbn [path]. rewrite Hp, row_line_snoc by lia. reflexivity.
Qed.

(** With a nested call allowed for every cell that remains to the right,
    the call for [(0, k)] returns [True] with the whole row as the path,
    when the end is the right end of the row. *)
Lemma row_returns (d : nat) : forall k st,
  end_pos = (0, n - 1) ->
  search_inv (1, n) (visited st) (path st) ->
  path st = row_line k -> 0 <= k < n ->
  n <= k + Z.of_nat d + 1 ->
  exists v, _recursive ix d (0, k) end_pos st = Ok (true, mk_state v (row_line n)).
Proof.
  induction d as [|d IH]; intros k st He Hinv Hp Hk Hd;
    destruct (row_call_entry k st Hinv Hp Hk) as (Hv & Hfree & Hinv1 & Hlen);
    rewrite recursive_unfold by (exact ix_lawful || exact (inv_well_shaped _ _ _ Hinv));
    cbv zeta; rewrite (inv_shape _ _ _ Hinv), Hv, Hfree, Hlen; cbn [negb fst snd];
    (destruct (decide (k = n - 1)) as [-> | Hne];
     [ replace (pt_eqb (0, n - 1) end_pos) with true
         by (symmetry; apply pt_eqb_eq; congruence);
       replace (n - 1 + 1 =? 1 * n) with true by (symmetry; apply Z.eqb_eq; lia);
       cbn [andb]; eexists; f_equal; f_equal; f_equal;
       rewrite Hp, <- row_line_snoc by lia; f_equal; lia | ]); [lia|].
  replace (k + 1 =? 1 * n) with false by (symmetry; apply Z.eqb_neq; lia).
  rewrite andb_false_r.
  unfold _search_dirns.
  do 2 (rewrite for_dirns_cons; cbv beta; cbn [fst snd];
        rewrite recursive_off_grid
          by (cbn [visited]; rewrite shape_poke, (inv_shape _ _ _ Hinv);
              apply not_true_iff_false; rewrite valid_pos_spec; cbn; lia);
        cbn [bind fst snd]).
  rewrite for_dirns_cons. cbv beta. cbn [fst snd]. change (0 + 0) with 0.
  destruct (IH (k + 1) (mk_state (poke (visited st) (0, k) true) (path st ++ [(0, k)])))
    as (v & Hrun); [exact He | | | lia | lia |].
  - cbn [visited path]. rewrite Hp, <- row_line_snoc by lia. exact Hinv1.
  - cbn [path]. rewrite Hp, row_line_snoc by lia. reflexivity.
  - rewrite Hrun. cbn [bind fst snd]. eauto.
Qed.

(** [solve_snake] on the row, from the left end, under the recursive
    method. *)
Lemma solve_row_unfold (limit : nat) :
  2 <= n -> valid_pos end_pos (1, n) = true -> pt_eqb (0, 0) end_pos = false ->
  exists v0,
    search_inv (1, n) v0 [] /\
    solve_snake ix limit (0, 0) end_pos (1, n) "recursive" =
      let* r := _recursive ix limit (0, 0) end_pos (mk_state v0 []) in
      Ok (if r.1 then path r.2 else []).
Proof.
  intros Hn He Hne.
  destruct (np_full_ok (1, n) false) as (v0 & Hz & Hs & Hw & Hpeek); [cbn; lia | cbn; lia |].
  exists v0. split; [apply search_inv_zeros; assumption|].
  assert (valid_pos (0, 0) (1, n) = true) as Hs0 by (apply valid_pos_spec; cbn; lia).
  unfold solve_snake. rewrite Hs0, He, Hne. cbn [negb].
  change (String.eqb "recursive" "recursive") with true. cbv iota.
  unfold np_zeros. rewrite Hz. reflexivity.
Qed.

Lemma solve_row_raises (limit : nat) :
  valid_pos end_pos (1, n) = true -> pt_eqb (0, 0) end_pos = false ->
  Z.of_nat limit + 1 < n ->
  solve_snake ix limit (0, 0) end_pos (1, n) "recursive" = Raise RecursionError.
Proof.
  intros He Hne Hlim.
  destruct (solve_row_unfold limit ltac:(lia) He Hne) as (v0 & Hinv & ->).
  rewrite (row_raises limit 0 (mk_state v0 [])); [reflexivity | exact Hinv | | lia | lia].
  reflexivity.
Qed.

Lemma solve_row_returns (limit : nat) :
  2 <= n -> end_pos = (0, n - 1) ->
  n <= Z.of_nat limit + 1 ->
  solve_snake ix limit (0, 0) end_pos (1, n) "recursive" = Ok (row_line n).
Proof.
  intros Hn He Hlim.
  assert (valid_pos end_pos (1, n) = true) as Hv
    by (rewrite He; apply valid_pos_spec; cbn; lia).
  assert (pt_eqb (0, 0) end_pos = false) as Hne
    by (rewrite He; apply pt_eqb_neq; intros [=]; lia).
  destruct (solve_row_unfold limit Hn Hv Hne) as (v0 & Hinv & ->).
  destruct (row_returns limit 0 (mk_state v0 []) He Hinv) as (v & ->);
    [reflexivity | lia | lia |].
  reflexivity.
Qed.

(** The loop crosses the row whatever the limit of the recursion. *)
Lemma solve_row_loop (limit : nat) :
  2 <= n -> end_pos = (0, n - 1) ->
  solve_snake ix limit (0, 0) end_pos (1, n) "non-recursive" = Ok (row_line n).
Proof.
  intros Hn He.
  assert (valid_pos (0, 0) (1, n) = true) as Hs by (apply valid_pos_spec; cbn; lia).
  assert (valid_pos end_pos (1, n) = true) as Hv
    by (rewrite He; apply valid_pos_spec; cbn; lia).
  assert (pt_eqb (0, 0) end_pos = false) as Hne
    by (rewrite He; apply pt_eqb_neq; intros [=]; lia).
  destruct (solve_snake_answer ix (0, 0) end_pos (1, n) Hs Hv Hne ix_lawful)
    as (answer & Hloop & _ & _ & Hret & _).
  rewrite Hloop. f_equal. symmetry.
  apply (Hret (Z.to_nat n) "recursive"%string).
  apply solve_row_returns; [exact Hn | exact He | lia].
Qed.

End Row.
(** * The claims *)

(** C1: on a valid request (start and end on the grid and different,
    which makes both dimensions positive) a non-empty list returned by
    [solve_snake], under either method and whatever the limit of the
    recursion, has [rows * cols] cells, begins
    with the start and ends with the end, holds every cell of the grid
    exactly once and nothing else, and moves by one unit step in one of
    the four directions between consecutive cells. *)
Theorem found_path_is_hamiltonian
    (limit : nat) (start_pos end_pos size : GridPt) (method : string) (p : list GridPt) :
  valid_pos start_pos size = true ->
  valid_pos end_pos size = true ->
  pt_eqb start_pos end_pos = false ->
  solve_snake np_index limit start_pos end_pos size method = Ok p ->
  p <> [] ->
  Z.of_nat (length p) = size.1 * size.2 /\
  head p = Some start_pos /\
  last p = Some end_pos /\
  NoDup p /\
  (forall c, valid_pos c size = true <-> c ∈ p) /\
  chain p.
Proof.
  intros Hs He Hne Hrun Hp.
  destruct (solve_snake_answer np_index start_pos end_pos size Hs He Hne np_index_lawful)
    as (answer & _ & _ & _ & Hret & Hfound & _).
  apply Hret in Hrun as <-. destruct (Hfound Hp) as (Hlen & Hhd & Hlast & Hnd & Hcov & Hch).
  repeat split; try assumption; [apply Hcov|].
  destruct (valid_pos_nonneg _ _ Hs) as [H1 H2].
  pose proof (cover_valid size p H1 H2 Hlen Hcov) as Hval.
  rewrite Forall_forall in Hval. apply Hval.
Qed.

Lemma found_path_is_hamiltonian_witness :
  Z.of_nat (length [(0, 0); (0, 1); (1, 1); (1, 0)]) = 2 * 2 /\
  chain [(0, 0); (0, 1); (1, 1); (1, 0)].
Proof.
  destruct (found_path_is_hamiltonian 4 (0, 0) (1, 0) (2, 2) "recursive"
              [(0, 0); (0, 1); (1, 1); (1, 0)]) as (Hlen & _ & _ & _ & _ & Hch).
  - reflexivity.
  - reflexivity.
  - reflexivity.
  - vm_compute. reflexivity.
  - discriminate.
  - split; [exact Hlen | exact Hch].
Defined.

(** C2, as the code has it.  On a valid request the non-recursive
    method returns a list, the same under every limit of the recursion.
    The recursive method returns that very list when the interpreter
    lets [rows * cols] calls nest below the first; under a smaller limit
    it returns that list or ends in [RecursionError].  So the two
    methods agree whenever both return, and only then. *)
Theorem strategies_agree (start_pos end_pos size : GridPt) :
  valid_pos start_pos size = true ->
  valid_pos end_pos size = true ->
  pt_eqb start_pos end_pos = false ->
  exists answer,
    (forall limit,
       solve_snake np_index limit start_pos end_pos size "non-recursive" = Ok answer) /\
    (forall limit, (Z.to_nat (size.1 * size.2) <= limit)%nat ->
       solve_snake np_index limit start_pos end_pos size "recursive" = Ok answer) /\
    (forall limit,
       solve_snake np_index limit start_pos end_pos size "recursive" = Ok answer \/
       solve_snake np_index limit start_pos end_pos size "recursive"
         = Raise RecursionError).
Proof.
  intros Hs He Hne.
  destruct (solve_snake_answer np_index start_pos end_pos size Hs He Hne np_index_lawful)
    as (answer & Hloop & Hrec & Hlim & _). exists answer.
  split; [exact Hloop|]. split; [exact Hrec | exact Hlim].
Qed.

Lemma strategies_agree_witness :
  exists answer,
    (forall limit,
       solve_snake np_index limit (0, 0) (2, 2) (3, 3) "non-recursive" = Ok answer) /\
    (forall limit, (Z.to_nat ((3, 3).1 * (3, 3).2)%Z <= limit)%nat ->
       solve_snake np_index limit (0, 0) (2, 2) (3, 3) "recursive" = Ok answer) /\
    (forall limit,
       solve_snake np_index limit (0, 0) (2, 2) (3, 3) "recursive" = Ok answer \/
       solve_snake np_index limit (0, 0) (2, 2) (3, 3) "recursive"
         = Raise RecursionError).
Proof.
  apply (strategies_agree (0, 0) (2, 2) (3, 3)); reflexivity.
Defined.

(** The claim C2 as it was stated fails on a long row.  On the grid of
    one row of 1000 cells, from the left end to the right end, the
    recursion needs 999 calls nested below the first.  An interpreter
    with [sys.getrecursionlimit() = 1000] grants fewer: the frames of
    [solve_snake] and of its caller and the frame of [valid_pos] count
    as well, which leaves 998 at the very most.  Under every such limit
    the recursive method ends in [RecursionError], while the
    non-recursive method returns the row. *)
Lemma recursion_limit_splits_the_strategies :
  (forall limit, (limit <= 998)%nat ->
     solve_snake np_index limit (0, 0) (0, 999) (1, 1000) "recursive"
       = Raise RecursionError) /\
  (forall limit,
     solve_snake np_index limit (0, 0) (0, 999) (1, 1000) "non-recursive"
       = Ok (row_line 1000)).
Proof.
  split.
  - intros limit Hl.
    apply (solve_row_raises np_index np_index_lawful 1000 (0, 999) limit);
      [reflexivity | reflexivity | lia].
  - intros limit.
    apply (solve_row_loop np_index np_index_lawful 1000 (0, 999) limit); [lia | reflexivity].
Qed.

(** C3: on a valid request, when [solve_snake] returns the empty list,
    under either method and whatever the limit of the recursion, the grid
    has no Hamiltonian path from the start to the end. *)
Theorem no_solution_is_exhaustive
    (limit : nat) (start_pos end_pos size : GridPt) (method : string) :
  valid_pos start_pos size = true ->
  valid_pos end_pos size = true ->
  pt_eqb start_pos end_pos = false ->
  solve_snake np_index limit start_pos end_pos size method = Ok [] ->
  forall q, ~ hamiltonian size start_pos end_pos q.
Proof.
  intros Hs He Hne Hrun.
  destruct (solve_snake_answer np_index start_pos end_pos size Hs He Hne np_index_lawful)
    as (answer & _ & _ & _ & Hret & _ & Hnone).
  apply Hret in Hrun. apply Hnone. congruence.
Qed.

Lemma no_solution_is_exhaustive_witness :
  solve_snake np_index 4 (0, 0) (1, 1) (2, 2) "recursive" = Ok [] /\
  (hamiltonian (2, 2) (0, 0) (1, 1) [(0, 0); (0, 1); (1, 0); (1, 1)] -> False).
Proof.
  assert (solve_snake np_index 4 (0, 0) (1, 1) (2, 2) "recursive" = Ok []) as Hrun
    by (vm_compute; reflexivity).
  split; [exact Hrun|].
  apply (no_solution_is_exhaustive 4 (0, 0) (1, 1) (2, 2) "recursive");
    [reflexivity | reflexivity | reflexivity | exact Hrun].
Defined.

(** C6, as the code has it.  On a valid request the loop of the
    non-recursive search reaches a [return] after finitely many passes,
    and the recursive search returns with at most [rows * cols] calls
    nested below the first one.  Whether it may nest them is for the
    interpreter to say: under any limit the recursive search returns or
    ends in [RecursionError], and [solve_snake] ends with a list, with
    the exception for an unknown method, or with [RecursionError]; with
    room for [rows * cols] nested calls [RecursionError] is excluded, and
    the non-recursive method returns a list in every case. *)
Theorem search_terminates (start_pos end_pos size : GridPt) :
  valid_pos start_pos size = true ->
  valid_pos end_pos size = true ->
  pt_eqb start_pos end_pos = false ->
  exists visited0,
    np_zeros size = Ok visited0 /\
    (exists found st,
       _recursive np_index (Z.to_nat (size.1 * size.2)) start_pos end_pos
         (mk_state visited0 []) = Ok (found, st)) /\
    (forall depth,
       (exists found st,
          _recursive np_index depth start_pos end_pos (mk_state visited0 [])
            = Ok (found, st)) \/
       _recursive np_index depth start_pos end_pos (mk_state visited0 [])
         = Raise RecursionError) /\
    (exists n p,
       iterate n (loop_body np_index end_pos size)
         (mk_loop [start_pos] [0] (poke visited0 start_pos true)) = Ok (Return p)) /\
    (forall limit,
       exists p, solve_snake np_index limit start_pos end_pos size "non-recursive" = Ok p) /\
    (forall limit, (Z.to_nat (size.1 * size.2) <= limit)%nat ->
       exists p, solve_snake np_index limit start_pos end_pos size "recursive" = Ok p) /\
    (forall limit method,
       (exists p, solve_snake np_index limit start_pos end_pos size method = Ok p) \/
       solve_snake np_index limit start_pos end_pos size method
         = Raise (ValueError (UnknownMethod method)) \/
       solve_snake np_index limit start_pos end_pos size method = Raise RecursionError).
Proof.
  intros Hs He Hne.
  assert (start_pos <> end_pos) as Hne' by (apply pt_eqb_neq; exact Hne).
  destruct (search_both np_index np_index_lawful start_pos end_pos size Hs He Hne')
    as (v0 & answer & Hz & (b & st & Hrec & _) & (n & Hloop) & Hdeep & Hl & _ & _ & Hlim).
  exists v0. split; [exact Hz|]. split; [eauto|]. split; [|split; [eauto|]].
  { intros depth.
    destruct (valid_pos_nonneg _ _ Hs) as [H1 H2].
    destruct (np_full_ok size false H1 H2) as (v & Hv & _ & Hw & _).
    unfold np_zeros in Hz. rewrite Hv in Hz. injection Hz as <-.
    destruct (recursive_outcome np_index np_index_lawful end_pos depth start_pos
                (mk_state v []) Hw) as [([found st1] & Hr) | Hr]; eauto. }
  split; [eauto|]. split; [eauto|].
  intros limit method. rewrite solve_snake_dispatch by assumption.
  destruct (String.eqb method "recursive").
  - destruct (Hlim limit) as [-> | ->]; eauto.
  - destruct (String.eqb method "non-recursive"); [|eauto].
    rewrite Hl. eauto.
Qed.

Lemma search_terminates_witness :
  exists visited0,
    np_zeros (2, 2) = Ok visited0 /\
    (exists found st,
       _recursive np_index (Z.to_nat ((2, 2).1 * (2, 2).2)) (0, 0) (1, 1)
         (mk_state visited0 []) = Ok (found, st)) /\
    (forall depth,
       (exists found st,
          _recursive np_index depth (0, 0) (1, 1) (mk_state visited0 [])
            = Ok (found, st)) \/
       _recursive np_index depth (0, 0) (1, 1) (mk_state visited0 [])
         = Raise RecursionError) /\
    (exists n p,
       iterate n (loop_body np_index (1, 1) (2, 2))
         (mk_loop [(0, 0)] [0] (poke visited0 (0, 0) true)) = Ok (Return p)) /\
    (forall limit,
       exists p, solve_snake np_index limit (0, 0) (1, 1) (2, 2) "non-recursive" = Ok p) /\
    (forall limit, (Z.to_nat ((2, 2).1 * (2, 2).2)%Z <= limit)%nat ->
       exists p, solve_snake np_index limit (0, 0) (1, 1) (2, 2) "recursive" = Ok p) /\
    (forall limit method,
       (exists p, solve_snake np_index limit (0, 0) (1, 1) (2, 2) method = Ok p) \/
       solve_snake np_index limit (0, 0) (1, 1) (2, 2) method
         = Raise (ValueError (UnknownMethod method)) \/
       solve_snake np_index limit (0, 0) (1, 1) (2, 2) method = Raise RecursionError).
Proof.
  apply (search_terminates (0, 0) (1, 1) (2, 2)); reflexivity.
Defined.

(** The claim C6 as it was stated fails where the grid has more cells
    than the interpreter has frames: the request below is valid, and
    under every limit that [sys.getrecursionlimit() = 1000] can leave
    the recursive search ends neither with a list nor with one of the
    exceptions of the checks, but with [RecursionError], raised 999
    cells into the row. *)
Lemma recursive_search_overflows :
  valid_pos (0, 0) (1, 1000) = true /\
  valid_pos (0, 999) (1, 1000) = true /\
  pt_eqb (0, 0) (0, 999) = false /\
  (forall limit, (limit <= 998)%nat ->
     (forall p, solve_snake np_index limit (0, 0) (0, 999) (1, 1000) "recursive" <> Ok p) /\
     (forall msg, solve_snake np_index limit (0, 0) (0, 999) (1, 1000) "recursive"
                  <> Raise (ValueError msg)) /\
     exists visited0,
       np_zeros (1, 1000) = Ok visited0 /\
       _recursive np_index limit (0, 0) (0, 999) (mk_state visited0 [])
         = Raise RecursionError).
Proof.
  split; [reflexivity|]. split; [reflexivity|]. split; [reflexivity|].
  intros limit Hl.
  pose proof (solve_row_raises np_index np_index_lawful 1000 (0, 999) limit
                eq_refl eq_refl ltac:(lia)) as Hraise.
  split; [intros p; rewrite Hraise; discriminate|].
  split; [intros msg; rewrite Hraise; discriminate|].
  destruct (np_full_ok (1, 1000) false) as (v0 & Hz & Hs & Hw & Hpeek);
    [cbn; lia | cbn; lia |].
  exists v0. split; [exact Hz|].
  apply (row_raises np_index np_index_lawful 1000 (0, 999) limit 0 (mk_state v0 []));
    [apply search_inv_zeros; assumption | reflexivity | lia | lia].
Qed.

(** C7: on the 1 x 4 grid from (0,0) to (0,3) both methods return the
    straight line (0,0), (0,1), (0,2), (0,3): the non-recursive method
    under every limit of the recursion, the recursive method as soon as
    the three calls it nests below the first are allowed. *)
Theorem straight_line_1x4 :
  (forall limit, (3 <= limit)%nat ->
     solve_snake np_index limit (0, 0) (0, 3) (1, 4) "recursive"
       = Ok [(0, 0); (0, 1); (0, 2); (0, 3)]) /\
  (forall limit,
     solve_snake np_index limit (0, 0) (0, 3) (1, 4) "non-recursive"
       = Ok [(0, 0); (0, 1); (0, 2); (0, 3)]).
Proof.
  split.
  - intros limit Hl.
    apply (solve_snake_deeper np_index 3 limit); [apply np_index_lawful | exact Hl |].
    vm_compute. reflexivity.
  - intros limit.
    apply (solve_snake_deeper np_index 0 limit); [apply np_index_lawful | lia |].
    vm_compute. reflexivity.
Qed.

Lemma straight_line_1x4_witness :
  solve_snake np_index 3 (0, 0) (0, 3) (1, 4) "recursive"
    = Ok [(0, 0); (0, 1); (0, 2); (0, 3)] /\
  solve_snake np_index 3 (0, 0) (0, 3) (1, 4) "non-recursive"
    = Ok [(0, 0); (0, 1); (0, 2); (0, 3)].
Proof.
  destruct straight_line_1x4 as [Hrec Hloop]. split.
  - apply Hrec. lia.
  - apply Hloop.
Defined.

(** C4, as the code has it.  [solve_snake] answers each violated
    precondition with an exception, decided by the checks alone
    (whatever the index rule of the arrays and the limit of the
    recursion): a start off the grid, an end off the grid, a start equal
    to the end, and, past these checks, a method name it does not know.
    A grid without rows or columns has no valid start, so it is refused
    as an invalid start, and an unknown method name is an exception in
    every case.  A valid request for which no Hamiltonian path exists is
    answered by the empty list under the non-recursive method, and under
    the recursive method when the interpreter lets [rows * cols] calls
    nest; under a smaller limit the recursive method returns the empty
    list or ends in [RecursionError], which is none of the exceptions of
    the checks. *)
Theorem precondition_errors_are_exceptions
    (ix : Z -> Z -> option nat) (limit : nat) (start_pos end_pos size : GridPt)
    (method : string) :
  (valid_pos start_pos size = false ->
   solve_snake ix limit start_pos end_pos size method
     = Raise (ValueError (InvalidStartPosition start_pos))) /\
  (valid_pos start_pos size = true -> valid_pos end_pos size = false ->
   solve_snake ix limit start_pos end_pos size method
     = Raise (ValueError (InvalidEndPosition end_pos))) /\
  (valid_pos start_pos size = true -> valid_pos end_pos size = true ->
   pt_eqb start_pos end_pos = true ->
   solve_snake ix limit start_pos end_pos size method = Raise (ValueError StartEqualsEnd)) /\
  (valid_pos start_pos size = true -> valid_pos end_pos size = true ->
   pt_eqb start_pos end_pos = false ->
   String.eqb method "recursive" = false -> String.eqb method "non-recursive" = false ->
   solve_snake ix limit start_pos end_pos size method
     = Raise (ValueError (UnknownMethod method))) /\
  (size.1 <= 0 \/ size.2 <= 0 ->
   solve_snake ix limit start_pos end_pos size method
     = Raise (ValueError (InvalidStartPosition start_pos))) /\
  (String.eqb method "recursive" = false -> String.eqb method "non-recursive" = false ->
   exists msg, solve_snake ix limit start_pos end_pos size method = Raise (ValueError msg)) /\
  (valid_pos start_pos size = true -> valid_pos end_pos size = true ->
   pt_eqb start_pos end_pos = false ->
   (forall q, ~ hamiltonian size start_pos end_pos q) ->
   solve_snake np_index limit start_pos end_pos size "non-recursive" = Ok [] /\
   ((Z.to_nat (size.1 * size.2) <= limit)%nat ->
    solve_snake np_index limit start_pos end_pos size "recursive" = Ok []) /\
   (solve_snake np_index limit start_pos end_pos size "recursive" = Ok [] \/
    solve_snake np_index limit start_pos end_pos size "recursive" = Raise RecursionError)).
Proof.
  split; [|split; [|split; [|split; [|split; [|split]]]]].
  - intros Hs. unfold solve_snake. rewrite Hs. reflexivity.
  - intros Hs He. unfold solve_snake. rewrite Hs, He. reflexivity.
  - intros Hs He Heq. unfold solve_snake. rewrite Hs, He, Heq. reflexivity.
  - intros Hs He Hne Hm1 Hm2. rewrite solve_snake_dispatch by assumption.
    rewrite Hm1, Hm2. reflexivity.
  - intros Hsize. unfold solve_snake.
    destruct (valid_pos start_pos size) eqn:Hs; [|reflexivity].
    apply valid_pos_spec in Hs. lia.
  - intros Hm1 Hm2. unfold solve_snake.
    destruct (valid_pos start_pos size); [|eauto].
    destruct (valid_pos end_pos size); [|eauto].
    destruct (pt_eqb start_pos end_pos); [eauto|].
    rewrite Hm1, Hm2. eauto.
  - intros Hs He Hne Hnone.
    destruct (solve_snake_answer np_index start_pos end_pos size Hs He Hne np_index_lawful)
      as (answer & Hloop & Hrec & Hlim & _ & Hfound & _).
    assert (answer = []) as ->.
    { destruct answer as [|c answer]; [reflexivity|].
      exfalso. apply (Hnone (c :: answer)), Hfound. discriminate. }
    split; [apply Hloop|]. split; [apply Hrec | apply Hlim].
Qed.

Lemma precondition_errors_are_exceptions_witness :
  solve_snake np_index 25 (5, 0) (0, 3) (5, 5) "recursive"
    = Raise (ValueError (InvalidStartPosition (5, 0))) /\
  solve_snake np_index 25 (0, 0) (0, 5) (5, 5) "recursive"
    = Raise (ValueError (InvalidEndPosition (0, 5))) /\
  solve_snake np_index 25 (0, 0) (0, 0) (1, 1) "recursive"
    = Raise (ValueError StartEqualsEnd) /\
  solve_snake np_index 25 (0, 0) (0, 3) (5, 5) "fastest"
    = Raise (ValueError (UnknownMethod "fastest")).
Proof.
  split; [|split; [|split]].
  - destruct (precondition_errors_are_exceptions np_index 25 (5, 0) (0, 3) (5, 5) "recursive")
      as (H & _). apply H. reflexivity.
  - destruct (precondition_errors_are_exceptions np_index 25 (0, 0) (0, 5) (5, 5) "recursive")
      as (_ & H & _). apply H; reflexivity.
  - destruct (precondition_errors_are_exceptions np_index 25 (0, 0) (0, 0) (1, 1) "recursive")
      as (_ & _ & H & _). apply H; reflexivity.
  - destruct (precondition_errors_are_exceptions np_index 25 (0, 0) (0, 3) (5, 5) "fastest")
      as (_ & _ & _ & H & _). apply H; reflexivity.
Defined.

(** The claim C4 as it was stated fails in its last part.  On the grid
    of one row of 1001 cells no Hamiltonian path leads from (0,0) to
    (0,999), and the non-recursive method says so with the empty list;
    the recursive method walks 999 cells into the row before it could
    say so, which no limit that [sys.getrecursionlimit() = 1000] leaves
    allows: the valid request without solution ends in an exception. *)
Lemma unsolvable_request_raises :
  (forall q, hamiltonian (1, 1001) (0, 0) (0, 999) q -> False) /\
  (forall limit,
     solve_snake np_index limit (0, 0) (0, 999) (1, 1001) "non-recursive" = Ok []) /\
  (forall limit, (limit <= 998)%nat ->
     solve_snake np_index limit (0, 0) (0, 999) (1, 1001) "recursive"
       = Raise RecursionError).
Proof.
  assert (forall q, hamiltonian (1, 1001) (0, 0) (0, 999) q -> False) as Hnone.
  { intros q Hq. pose proof (row_line_unique 1001 (0, 999) q Hq) as ->.
    destruct Hq as (_ & _ & Hlast & _).
    rewrite row_line_last in Hlast by lia. discriminate. }
  split; [exact Hnone|]. split.
  - intros limit.
    destruct (solve_snake_answer np_index (0, 0) (0, 999) (1, 1001)
                eq_refl eq_refl eq_refl np_index_lawful)
      as (answer & Hloop & _ & _ & _ & Hfound & _).
    rewrite Hloop. f_equal. destruct answer as [|c answer]; [reflexivity|].
    exfalso. apply (Hnone (c :: answer)), Hfound. discriminate.
  - intros limit Hl.
    apply (solve_row_raises np_index np_index_lawful 1001 (0, 999) limit);
      [reflexivity | reflexivity | lia].
Qed.

(** C5: between the steps of a search the array marks exactly the cells
    of the path.  For the recursive search the observation points are the
    entry and the return of every call, under whatever limit the search
    runs and whether it returns or not: every state seen there has
    [visited[c] == True] exactly for the cells [c] on the path, and a call
    that returns [False] hands back the array and the path it was given.
    For the non-recursive search the observation point is the top of the
    loop: every state reached there has the same property, and two such
    states with the same path have the same array, so that a backtrack
    brings back exactly the array the parent frame saw. *)
Theorem visited_marks_the_path (start_pos end_pos size : GridPt) :
  valid_pos start_pos size = true ->
  exists visited0,
    np_zeros size = Ok visited0 /\
    (forall depth,
       (_recursive_obs np_index depth start_pos end_pos (mk_state visited0 [])).2
       = _recursive np_index depth start_pos end_pos (mk_state visited0 [])) /\
    (forall depth s,
       s ∈ (_recursive_obs np_index depth start_pos end_pos (mk_state visited0 [])).1 ->
       marks_agree size (visited s) (path s)) /\
    (forall d pos st st',
       well_shaped (visited st) ->
       _recursive np_index d pos end_pos st = Ok (false, st') -> st' = st) /\
    (forall n s,
       iterate n (loop_body np_index end_pos size)
         (mk_loop [start_pos] [0] (poke visited0 start_pos true)) = Ok (Continue s) ->
       marks_agree size (l_visited s) (l_path s)) /\
    (forall n m s s',
       iterate n (loop_body np_index end_pos size)
         (mk_loop [start_pos] [0] (poke visited0 start_pos true)) = Ok (Continue s) ->
       iterate m (loop_body np_index end_pos size)
         (mk_loop [start_pos] [0] (poke visited0 start_pos true)) = Ok (Continue s') ->
       l_path s = l_path s' -> l_visited s = l_visited s').
Proof.
  intros Hs. destruct (valid_pos_nonneg _ _ Hs) as [H1 H2].
  destruct (np_full_ok size false H1 H2) as (v0 & Hz & Hshape & Hw & Hpeek).
  change (np_full size false) with (np_zeros size) in Hz.
  pose proof (search_inv_zeros size v0 Hshape Hw Hpeek) as Hinv0.
  pose proof (loop_inv_initial size start_pos v0 Hs Hz) as Hinit.
  assert (forall n s,
            iterate n (loop_body np_index end_pos size)
              (mk_loop [start_pos] [0] (poke v0 start_pos true)) = Ok (Continue s) ->
            loop_inv size s) as Hreach.
  { intros n s Hrun.
    destruct (iterate_step end_pos size n _ Hinit) as (c & Hc & Hnext).
    rewrite (Hc np_index np_index_lawful) in Hrun. injection Hrun as ->.
    apply Hnext. reflexivity. }
  exists v0. split; [exact Hz|]. split; [intros depth; apply recursive_obs_erase|].
  split; [|split; [|split]].
  - intros depth s Hin. apply search_inv_marks_agree.
    pose proof (recursive_obs_inv np_index end_pos np_index_lawful size
                  depth start_pos (mk_state v0 []) Hinv0) as Hall.
    rewrite Forall_forall in Hall. apply Hall, Hin.
  - intros d pos st st'. apply recursive_restores, np_index_lawful.
  - intros n s Hrun. apply search_inv_marks_agree. apply (Hreach n s Hrun).
  - intros n m s s' Hn Hm Hpath.
    destruct (Hreach n s Hn) as [Hinv _]. destruct (Hreach m s' Hm) as [Hinv' _].
    rewrite <- Hpath in Hinv'. exact (search_inv_determines _ _ _ _ Hinv Hinv').
Qed.

Lemma visited_marks_the_path_witness :
  exists visited0,
    np_zeros (2, 2) = Ok visited0 /\
    (forall depth,
       (_recursive_obs np_index depth (0, 0) (1, 1) (mk_state visited0 [])).2
       = _recursive np_index depth (0, 0) (1, 1) (mk_state visited0 [])) /\
    (forall depth s,
       s ∈ (_recursive_obs np_index depth (0, 0) (1, 1) (mk_state visited0 [])).1 ->
       marks_agree (2, 2) (visited s) (path s)) /\
    (forall d pos st st',
       well_shaped (visited st) ->
       _recursive np_index d pos (1, 1) st = Ok (false, st') -> st' = st) /\
    (forall n s,
       iterate n (loop_body np_index (1, 1) (2, 2))
         (mk_loop [(0, 0)] [0] (poke visited0 (0, 0) true)) = Ok (Continue s) ->
       marks_agree (2, 2) (l_visited s) (l_path s)) /\
    (forall n m s s',
       iterate n (loop_body np_index (1, 1) (2, 2))
         (mk_loop [(0, 0)] [0] (poke visited0 (0, 0) true)) = Ok (Continue s) ->
       iterate m (loop_body np_index (1, 1) (2, 2))
         (mk_loop [(0, 0)] [0] (poke visited0 (0, 0) true)) = Ok (Continue s') ->
       l_path s = l_path s' -> l_visited s = l_visited s').
Proof.
  apply (visited_marks_the_path (0, 0) (1, 1) (2, 2)). reflexivity.
Defined.

(** C10: the array of marks is read and written inside its bounds only.
    Under NumPy's index rule and under the rule that refuses every index
    outside [0, n), [solve_snake] gives the same outcome on every request
    and under every limit of the recursion, and never an [IndexError]; a
    call of [_recursive] for any candidate position, on or off the grid,
    on an array that agrees with its shape runs the same under both
    rules and raises nothing, unless it is [RecursionError] for the
    depth of the calls; and a pass of the loop from any state at its top
    runs the same under both rules and raises nothing.  So no access
    wraps around from a negative index and none fails. *)
Theorem visited_indexed_within_bounds :
  (forall limit start_pos end_pos size method,
     solve_snake np_index limit start_pos end_pos size method
     = solve_snake strict_index limit start_pos end_pos size method /\
     solve_snake np_index limit start_pos end_pos size method <> Raise IndexError) /\
  (forall d pos end_pos st,
     well_shaped (visited st) ->
     _recursive np_index d pos end_pos st = _recursive strict_index d pos end_pos st /\
     forall e, _recursive np_index d pos end_pos st = Raise e -> e = RecursionError) /\
  (forall end_pos size s,
     loop_inv size s ->
     exists c,
       loop_body np_index end_pos size s = Ok c /\
       loop_body strict_index end_pos size s = Ok c).
Proof.
  split; [|split].
  - intros limit start_pos end_pos size method. split.
    + apply solve_snake_ix_indep; [apply np_index_lawful | apply strict_index_lawful].
    + apply solve_snake_no_index_error, np_index_lawful.
  - intros d pos end_pos st Hw. split.
    + apply recursive_ix_indep; [apply np_index_lawful | apply strict_index_lawful | exact Hw].
    + intros e. apply recursive_no_raise; [apply np_index_lawful | exact Hw].
  - intros end_pos size s Hinv.
    destruct (loop_body_step end_pos size s Hinv) as (c & Hc & _).
    exists c. split; apply Hc; [apply np_index_lawful | apply strict_index_lawful].
Qed.

(** C8: for a non-empty path of cells of a [rows] x [cols] grid whose
    first and last cells differ (every path [solve_snake] finds is one),
    [print_path] prints an empty line, the character grid, and an empty
    line; the grid has [2 * rows - 1] lines of [4 * cols - 3] characters
    each, holds 'S' exactly once, at the place of the first cell, and 'E'
    exactly once, at the place of the last cell. *)
Theorem rendered_grid_dimensions (p : list GridPt) (size start_pos end_pos : GridPt) :
  Forall (fun c => valid_pos c size = true) p ->
  head p = Some start_pos ->
  last p = Some end_pos ->
  pt_eqb start_pos end_pos = false ->
  exists grid,
    print_path np_index p size = Ok ([[]] ++ grid ++ [[]]) /\
    Z.of_nat (length grid) = 2 * size.1 - 1 /\
    Forall (fun line => Z.of_nat (length line) = 4 * size.2 - 3) grid /\
    count_char chr_S grid = 1%nat /\
    count_char chr_E grid = 1%nat /\
    peek (mk_ndarray (2 * size.1 - 1, 4 * size.2 - 3) grid)
      (start_pos.1 * 2, start_pos.2 * 4) = Some chr_S /\
    peek (mk_ndarray (2 * size.1 - 1, 4 * size.2 - 3) grid)
      (end_pos.1 * 2, end_pos.2 * 4) = Some chr_E.
Proof.
  intros Hval Hhd Hlast Hne. apply pt_eqb_neq in Hne.
  destruct (print_path_spec np_index np_index_lawful size p start_pos end_pos Hval Hhd Hlast)
    as (chrs & Hprint & Hshape & [Hlen Hrows] & HE & Hrest).
  destruct (Hrest Hne) as (HS & HcS & HcE).
  assert (valid_pos start_pos size = true) as Hs.
  { rewrite Forall_forall in Hval. apply Hval. destruct p; [discriminate|].
    injection Hhd as ->. left. }
  apply valid_pos_spec in Hs.
  exists (items chrs). rewrite Hshape in Hlen, Hrows. cbn [fst snd] in Hlen, Hrows.
  split; [exact Hprint|]. split; [lia|]. split.
  - eapply Forall_impl; [exact Hrows|]. cbv beta. intros line Hline. lia.
  - repeat split; assumption.
Qed.

Lemma rendered_grid_dimensions_witness :
  exists grid,
    print_path np_index [(0, 0); (0, 1); (1, 1); (1, 0)] (2, 2) = Ok ([[]] ++ grid ++ [[]]) /\
    Z.of_nat (length grid) = 2 * (2, 2).1 - 1 /\
    Forall (fun line => Z.of_nat (length line) = 4 * (2, 2).2 - 3) grid /\
    count_char chr_S grid = 1%nat /\
    count_char chr_E grid = 1%nat /\
    peek (mk_ndarray (2 * (2, 2).1 - 1, 4 * (2, 2).2 - 3) grid)
      ((0, 0).1 * 2, (0, 0).2 * 4) = Some chr_S /\
    peek (mk_ndarray (2 * (2, 2).1 - 1, 4 * (2, 2).2 - 3) grid)
      ((1, 0).1 * 2, (1, 0).2 * 4) = Some chr_E.
Proof.
  apply (rendered_grid_dimensions [(0, 0); (0, 1); (1, 1); (1, 0)] (2, 2) (0, 0) (1, 0)).
  - repeat constructor.
  - reflexivity.
  - reflexivity.
  - reflexivity.
Defined.

(** C9, as the code has it: [print_path] raises nothing on a non-empty
    path of cells of the grid, and on the empty path it raises
    [IndexError] (at [path[0]]) whenever the grid has a row and a column;
    [main] calls it for non-empty paths only. *)
Theorem renderer_errors (size : GridPt) :
  (forall p, p <> [] -> Forall (fun c => valid_pos c size = true) p ->
     exists lines, print_path np_index p size = Ok lines) /\
  (1 <= size.1 -> 1 <= size.2 -> print_path np_index [] size = Raise IndexError).
Proof.
  split.
  - intros p Hp Hval.
    destruct (head p) as [s|] eqn:Hhd; [|destruct p; [contradiction | discriminate]].
    destruct (last p) as [e|] eqn:Hlast; [|apply last_None in Hlast; contradiction].
    destruct (print_path_spec np_index np_index_lawful size p s e Hval Hhd Hlast)
      as (chrs & Hprint & _). eauto.
  - intros H1 H2. unfold print_path. cbv zeta.
    destruct (np_full_ok (2 * size.1 - 1, 4 * size.2 - 3) chr_space)
      as (g0 & -> & _); [cbn [fst]; lia | cbn [snd]; lia |].
    reflexivity.
Qed.

Lemma renderer_errors_witness :
  (exists lines, print_path np_index [(0, 0)] (1, 1) = Ok lines) /\
  print_path np_index [] (1, 1) = Raise IndexError.
Proof.
  destruct (renderer_errors (1, 1)) as [Hok Hempty]. split.
  - apply Hok; [discriminate | repeat constructor].
  - apply Hempty; cbn [fst snd]; lia.
Defined.

(** The claim C9 as it was stated fails on the empty path: [print_path]
    does not render nothing or an empty grid there, it raises. *)
Lemma empty_path_raises : print_path np_index [] (2, 2) = Raise IndexError.
Proof. vm_compute. reflexivity. Qed.

Lemma visited_indexed_within_bounds_witness :
  (solve_snake np_index 4 (0, 0) (1, 0) (2, 2) "recursive"
   = solve_snake strict_index 4 (0, 0) (1, 0) (2, 2) "recursive" /\
   solve_snake np_index 4 (0, 0) (1, 0) (2, 2) "recursive" <> Raise IndexError) /\
  (_recursive np_index 4 (-1, 0) (1, 0)
     (mk_state (mk_ndarray (2, 2) [[true; false]; [false; false]]) [(0, 0)])
   = _recursive strict_index 4 (-1, 0) (1, 0)
       (mk_state (mk_ndarray (2, 2) [[true; false]; [false; false]]) [(0, 0)])).
Proof.
  destruct visited_indexed_within_bounds as (Hsolve & Hrec & _). split.
  - apply Hsolve.
  - apply Hrec. split; [reflexivity | repeat constructor].
Defined.

(** * Further properties of the code *)

(** ** Chains, colours and reversal *)

Lemma unit_step_parity (a b : GridPt) :
  unit_step a b -> (b.1 + b.2 = a.1 + a.2 + 1) \/ (b.1 + b.2 = a.1 + a.2 - 1).
Proof.
  intros (δ & Hδ & ->). cbn [fst snd]. unfold _search_dirns in Hδ.
  repeat (apply elem_of_cons in Hδ as [-> | Hδ]); cbn [fst snd]; try lia.
  apply elem_of_nil in Hδ. contradiction.
Qed.

Lemma unit_step_sym (a b : GridPt) : unit_step a b -> unit_step b a.
Proof.
  intros (δ & Hδ & ->). unfold _search_dirns in Hδ.
  repeat (apply elem_of_cons in Hδ as [-> | Hδ]); cbn [fst snd].
  - exists (-1, 0). split; [unfold _search_dirns; repeat constructor|].
    destruct a; cbn [fst snd]; f_equal; lia.
  - exists (1, 0). split; [unfold _search_dirns; repeat constructor|].
    destruct a; cbn [fst snd]; f_equal; lia.
  - exists (0, -1). split; [unfold _search_dirns; repeat constructor|].
    destruct a; cbn [fst snd]; f_equal; lia.
  - exists (0, 1). split; [unfold _search_dirns; repeat constructor|].
    destruct a; cbn [fst snd]; f_equal; lia.
  - apply elem_of_nil in Hδ. contradiction.
Qed.

(** Along a chain the sum of the coordinates changes its parity at every
    step. *)
Lemma chain_parity (p : list GridPt) : forall s e,
  chain p -> head p = Some s -> last p = Some e ->
  exists k, (e.1 + e.2) - (s.1 + s.2) - (Z.of_nat (length p) - 1) = 2 * k.
Proof.
  induction p as [|a p IH]; intros s e Hch Hhd Hlast; [discriminate|].
  injection Hhd as ->. destruct p as [|b p].
  - injection Hlast as ->. exists 0. simpl. lia.
  - destruct Hch as [Hstep Hch]. rewrite last_cons_cons in Hlast.
    destruct (IH b e Hch eq_refl Hlast) as (k & Hk).
    apply unit_step_parity in Hstep.
    cbn [length] in *. destruct Hstep; [exists k | exists (k - 1)]; lia.
Qed.

Lemma chain_snoc (l : list GridPt) (b a : GridPt) :
  chain (l ++ [b]) -> unit_step b a -> chain ((l ++ [b]) ++ [a]).
Proof.
  induction l as [|x l IH]; intros Hch Hstep.
  - simpl. auto.
  - destruct l as [|y l].
    + simpl in *. destruct Hch as [Hxb _]. auto.
    + simpl in *. destruct Hch as [Hxy Hch]. split; [exact Hxy|]. apply IH; assumption.
Qed.

Lemma chain_reverse (p : list GridPt) : chain p -> chain (reverse p).
Proof.
  induction p as [|a p IH]; intros Hch; [exact I|].
  rewrite reverse_cons. destruct p as [|b p]; [exact I|].
  destruct Hch as [Hstep Hch]. specialize (IH Hch).
  rewrite reverse_cons in *. apply chain_snoc; [exact IH | apply unit_step_sym, Hstep].
Qed.

Lemma hamiltonian_reverse (size s e : GridPt) (q : list GridPt) :
  hamiltonian size s e q -> hamiltonian size e s (reverse q).
Proof.
  intros (Hlen & Hhd & Hlast & Hnd & Hcov & Hch). repeat split.
  - rewrite length_reverse. exact Hlen.
  - rewrite head_reverse. exact Hlast.
  - rewrite last_reverse. exact Hhd.
  - rewrite reverse_Permutation. exact Hnd.
  - intros c Hc. apply elem_of_reverse, Hcov, Hc.
  - apply chain_reverse, Hch.
Qed.

(** ** What [solve_snake] decides *)

Section Decides.
Variables start_pos end_pos size : GridPt.
Hypothesis start_valid : valid_pos start_pos size = true.
Hypothesis end_valid : valid_pos end_pos size = true.
Hypothesis start_not_end : pt_eqb start_pos end_pos = false.

(** With room for the method, a list is returned. *)
Lemma solve_snake_returns (limit : nat) (method : string) :
  String.eqb method "recursive" || String.eqb method "non-recursive" = true ->
  room_for limit size method ->
  exists p, solve_snake np_index limit start_pos end_pos size method = Ok p.
Proof.
  intros Hm Hroom.
  destruct (solve_snake_answer np_index start_pos end_pos size start_valid end_valid
              start_not_end np_index_lawful) as (answer & Hloop & Hrec & _).
  exists answer. rewrite solve_snake_dispatch by assumption.
  destruct (String.eqb method "recursive") eqn:Hr; [exact (Hrec limit (Hroom Hr))|].
  cbn [orb] in Hm. rewrite Hm. apply Hloop.
Qed.

(** The returned list is empty exactly when there is no Hamiltonian
    path. *)
Lemma solve_snake_returned_empty (limit : nat) (method : string) (p : list GridPt) :
  solve_snake np_index limit start_pos end_pos size method = Ok p ->
  p = [] <-> (forall q, ~ hamiltonian size start_pos end_pos q).
Proof.
  intros Hrun.
  destruct (solve_snake_answer np_index start_pos end_pos size start_valid end_valid
              start_not_end np_index_lawful) as (answer & _ & _ & _ & Hret & Hfound & Hnone).
  apply Hret in Hrun as ->. split; [exact Hnone|].
  intros Hno. destruct answer as [|c answer]; [reflexivity|].
  exfalso. apply (Hno (c :: answer)), Hfound. discriminate.
Qed.

Lemma solve_snake_empty_iff (limit : nat) (method : string) :
  String.eqb method "recursive" || String.eqb method "non-recursive" = true ->
  room_for limit size method ->
  solve_snake np_index limit start_pos end_pos size method = Ok [] <->
  (forall q, ~ hamiltonian size start_pos end_pos q).
Proof.
  intros Hm Hroom. split.
  - intros Hrun. apply (solve_snake_returned_empty limit method [] Hrun). reflexivity.
  - intros Hno. destruct (solve_snake_returns limit method Hm Hroom) as (p & Hrun).
    rewrite Hrun. f_equal. apply (solve_snake_returned_empty limit method p Hrun), Hno.
Qed.

End Decides.

(** X1: on a valid request [solve_snake] decides whether the grid has a
    Hamiltonian path from the start to the end.  Whatever list it
    returns, under either method and any limit of the recursion, is
    non-empty exactly when such a path exists; and it does return a list
    when the limit has room for the method: always under the
    non-recursive method, and under the recursive method when
    [rows * cols] calls may nest. *)
Theorem solve_snake_decides
    (limit : nat) (start_pos end_pos size : GridPt) (method : string) :
  valid_pos start_pos size = true ->
  valid_pos end_pos size = true ->
  pt_eqb start_pos end_pos = false ->
  String.eqb method "recursive" || String.eqb method "non-recursive" = true ->
  (forall p, solve_snake np_index limit start_pos end_pos size method = Ok p ->
     (p <> [] <-> exists q, hamiltonian size start_pos end_pos q)) /\
  (room_for limit size method ->
   exists p, solve_snake np_index limit start_pos end_pos size method = Ok p).
Proof.
  intros Hs He Hne Hm. split.
  - intros p Hrun.
    destruct (solve_snake_answer np_index start_pos end_pos size Hs He Hne np_index_lawful)
      as (answer & _ & _ & _ & Hret & Hfound & Hnone).
    apply Hret in Hrun as ->. split.
    + intros Hp. exists answer. apply Hfound, Hp.
    + intros (q & Hq) ->. exact (Hnone eq_refl q Hq).
  - apply solve_snake_returns; assumption.
Qed.

Lemma solve_snake_decides_witness :
  (forall p, solve_snake np_index 4 (0, 0) (1, 0) (2, 2) "recursive" = Ok p ->
     (p <> [] <-> exists q, hamiltonian (2, 2) (0, 0) (1, 0) q)) /\
  (room_for 4 (2, 2) "recursive" ->
   exists p, solve_snake np_index 4 (0, 0) (1, 0) (2, 2) "recursive" = Ok p).
Proof.
  apply (solve_snake_decides 4 (0, 0) (1, 0) (2, 2) "recursive"); reflexivity.
Defined.

(** X2: whether a path is found does not depend on the direction of
    travel: on a valid request [solve_snake] reports no solution from the
    start to the end exactly when it reports none from the end to the
    start, whichever of the two methods is used on either side, provided
    the limit of the recursion has room for the method on each side. *)
Theorem solvable_in_both_directions
    (limit limit' : nat) (start_pos end_pos size : GridPt) (method method' : string) :
  valid_pos start_pos size = true ->
  valid_pos end_pos size = true ->
  pt_eqb start_pos end_pos = false ->
  String.eqb method "recursive" || String.eqb method "non-recursive" = true ->
  String.eqb method' "recursive" || String.eqb method' "non-recursive" = true ->
  room_for limit size method ->
  room_for limit' size method' ->
  solve_snake np_index limit start_pos end_pos size method = Ok [] <->
  solve_snake np_index limit' end_pos start_pos size method' = Ok [].
Proof.
  intros Hs He Hne Hm Hm' Hroom Hroom'.
  assert (pt_eqb end_pos start_pos = false) as Hne'.
  { apply pt_eqb_neq. apply pt_eqb_neq in Hne. congruence. }
  rewrite (solve_snake_empty_iff start_pos end_pos size Hs He Hne limit method Hm Hroom).
  rewrite (solve_snake_empty_iff end_pos start_pos size He Hs Hne' limit' method' Hm' Hroom').
  split; intros Hno q Hq; apply (Hno (reverse q)), hamiltonian_reverse, Hq.
Qed.

Lemma solvable_in_both_directions_witness :
  solve_snake np_index 4 (0, 0) (1, 1) (2, 2) "recursive" = Ok [] <->
  solve_snake np_index 0 (1, 1) (0, 0) (2, 2) "non-recursive" = Ok [].
Proof.
  apply (solvable_in_both_directions 4 0 (0, 0) (1, 1) (2, 2));
    try reflexivity; intros Hr; [cbn; lia | discriminate Hr].
Defined.

(** X3: the colouring of the grid decides many requests at once.  When
    [start[0] + start[1] + end[0] + end[1] + rows * cols] is even, a valid
    request has no solution, and [solve_snake] returns the empty list
    under either method for which the limit of the recursion has room;
    the request of [main] (5 x 5, (0,0) to (0,3)) is one of these. *)
Theorem wrong_colour_has_no_solution
    (limit : nat) (start_pos end_pos size : GridPt) (method : string) :
  valid_pos start_pos size = true ->
  valid_pos end_pos size = true ->
  pt_eqb start_pos end_pos = false ->
  String.eqb method "recursive" || String.eqb method "non-recursive" = true ->
  room_for limit size method ->
  Z.even (start_pos.1 + start_pos.2 + end_pos.1 + end_pos.2 + size.1 * size.2) = true ->
  solve_snake np_index limit start_pos end_pos size method = Ok [].
Proof.
  intros Hs He Hne Hm Hroom Heven.
  apply (solve_snake_empty_iff start_pos end_pos size Hs He Hne limit method Hm Hroom).
  intros q (Hlen & Hhd & Hlast & _ & _ & Hch).
  destruct (chain_parity q start_pos end_pos Hch Hhd Hlast) as (k & Hk).
  apply Z.even_spec in Heven as (m & Hm2). lia.
Qed.

Lemma wrong_colour_has_no_solution_witness :
  solve_snake np_index 25 (0, 0) (0, 3) (5, 5) "recursive" = Ok [].
Proof.
  apply (wrong_colour_has_no_solution 25 (0, 0) (0, 3) (5, 5) "recursive");
    try reflexivity. intros _. cbn. lia.
Defined.

(** ** The character grid, place by place *)

Lemma write_arrow_arrow_of ix (g : ndarray char) (δ pos : Z * Z) :
  write_arrow ix g δ pos =
    match arrow_of δ with
    | Some y => setitem ix g pos y
    | None => Ok g
    end.
Proof.
  destruct δ as [a b].
  destruct a as [|[?|?|]|[?|?|]]; destruct b as [|[?|?|]|[?|?|]]; reflexivity.
Qed.

Lemma arrow_of_Some (δ : Z * Z) (y : char) :
  arrow_of δ = Some y ->
  δ = (1, 0) \/ δ = (-1, 0) \/ δ = (0, 1) \/ δ = (0, -1).
Proof.
  destruct δ as [a b].
  destruct a as [|[?|?|]|[?|?|]]; destruct b as [|[?|?|]|[?|?|]];
    cbn [arrow_of]; try discriminate; auto.
Qed.

Lemma symbol_pos_off_lattice (a b : GridPt) (y : char) :
  arrow_of (b.1 - a.1, b.2 - a.2) = Some y -> ~ on_lattice (symbol_pos a b).
Proof.
  intros Hy. apply arrow_of_Some in Hy.
  unfold on_lattice, symbol_pos. cbn [fst snd].
  destruct Hy as [[= H1 H2] | [[= H1 H2] | [[= H1 H2] | [= H1 H2]]]];
    rewrite H1, H2; Z.to_euclidean_division_equations; lia.
Qed.

(** Two steps that write at the same place join the same two points. *)
Lemma symbol_pos_inj (a b a' b' : GridPt) (y y' : char) :
  arrow_of (b.1 - a.1, b.2 - a.2) = Some y ->
  arrow_of (b'.1 - a'.1, b'.2 - a'.2) = Some y' ->
  symbol_pos a b = symbol_pos a' b' ->
  (a = a' /\ b = b') \/ (a = b' /\ b = a').
Proof.
  intros Hy Hy' Hpos. apply arrow_of_Some in Hy, Hy'.
  destruct a as [a1 a2], b as [b1 b2], a' as [c1 c2], b' as [d1 d2].
  unfold symbol_pos in Hpos. cbn [fst snd] in *. injection Hpos as Hp1 Hp2.
  destruct Hy as [[= H1 H2] | [[= H1 H2] | [[= H1 H2] | [= H1 H2]]]];
    destruct Hy' as [[= H3 H4] | [[= H3 H4] | [[= H3 H4] | [= H3 H4]]]];
    try lia;
    first [ left; split; f_equal; lia | right; split; f_equal; lia ].
Qed.

Lemma last_arrow_Some (steps : list (GridPt * GridPt)) (q : Z * Z) (y : char) :
  last_arrow steps q = Some y ->
  exists a b, (a, b) ∈ steps /\ symbol_pos a b = q /\
    arrow_of (b.1 - a.1, b.2 - a.2) = Some y.
Proof.
  induction steps as [|[a b] rest IH]; [discriminate|]. cbn [last_arrow].
  destruct (last_arrow rest q) as [y'|].
  - intros [= ->]. destruct (IH eq_refl) as (a' & b' & Hin & Hp & Ha).
    exists a', b'. split; [right; exact Hin | auto].
  - destruct (decide (symbol_pos a b = q)) as [Hq|]; [|discriminate].
    intros Ha. exists a, b. split; [left | auto].
Qed.

Lemma last_arrow_written (steps : list (GridPt * GridPt)) (a b : GridPt) (y : char) :
  (a, b) ∈ steps -> arrow_of (b.1 - a.1, b.2 - a.2) = Some y ->
  is_Some (last_arrow steps (symbol_pos a b)).
Proof.
  induction steps as [|[a' b'] rest IH]; intros Hin Hy.
  - apply elem_of_nil in Hin. contradiction.
  - cbn [last_arrow]. destruct (last_arrow rest (symbol_pos a b)) as [y'|] eqn:E; [eauto|].
    apply elem_of_cons in Hin as [[= <- <-] | Hin].
    + rewrite decide_True by reflexivity. rewrite Hy. eauto.
    + destruct (IH Hin Hy) as [? ?]. discriminate.
Qed.

Lemma peek_set_strided {A : Type} (g : ndarray A) (rs cs : nat) (x : A) (q : Z * Z) :
  peek (set_strided g rs cs x) q =
    match peek g q with
    | Some y =>
        Some (if (Z.to_nat q.1 mod rs =? 0)%nat && (Z.to_nat q.2 mod cs =? 0)%nat
              then x else y)
    | None => None
    end.
Proof.
  unfold peek, set_strided. cbn [items]. rewrite list_lookup_imap.
  destruct (items g !! Z.to_nat q.1) as [row|]; cbn [fmap option_fmap option_map]; [|reflexivity].
  destruct (Z.to_nat q.1 mod rs =? 0)%nat; cbn [andb].
  - rewrite list_lookup_imap. destruct (row !! Z.to_nat q.2); reflexivity.
  - destruct (row !! Z.to_nat q.2); reflexivity.
Qed.

Lemma lattice_test (q : Z * Z) :
  0 <= q.1 -> 0 <= q.2 ->
  ((Z.to_nat q.1 mod 2 =? 0)%nat && (Z.to_nat q.2 mod 4 =? 0)%nat = true <-> on_lattice q).
Proof.
  intros H1 H2. unfold on_lattice.
  rewrite andb_true_iff, !Nat.eqb_eq.
  change 4%nat with (Z.to_nat 4). change 2%nat with (Z.to_nat 2).
  rewrite <- !Z2Nat.inj_mod by lia.
  pose proof (Z.mod_pos_bound q.1 2). pose proof (Z.mod_pos_bound q.2 4). lia.
Qed.

Section Grid.
Variable ix : Z -> Z -> option nat.
Hypothesis ix_lawful : lawful ix.
Variable size : GridPt.

Local Abbreviation chrs_size := (2 * size.1 - 1, 4 * size.2 - 3).

Lemma symbol_pos_valid (a b : GridPt) (y : char) :
  valid_pos a size = true -> valid_pos b size = true ->
  arrow_of (b.1 - a.1, b.2 - a.2) = Some y ->
  valid_pos (symbol_pos a b) chrs_size = true.
Proof.
  intros Ha Hb Hy. apply arrow_of_Some in Hy.
  apply valid_pos_spec in Ha, Hb. apply valid_pos_spec.
  unfold symbol_pos. cbn [fst snd].
  destruct Hy as [[= H1 H2] | [[= H1 H2] | [[= H1 H2] | [= H1 H2]]]]; lia.
Qed.

(** After the loop over the steps every place holds the arrow of the last
    step that wrote there, or what it held before. *)
Lemma draw_steps_peek (steps : list (GridPt * GridPt)) : forall g,
  Forall (fun s => valid_pos s.1 size = true /\ valid_pos s.2 size = true) steps ->
  shape g = chrs_size -> well_shaped g ->
  exists g',
    draw_steps ix g steps = Ok g' /\ shape g' = chrs_size /\ well_shaped g' /\
    forall q, valid_pos q chrs_size = true ->
      peek g' q = match last_arrow steps q with
                  | Some y => Some y
                  | None => peek g q
                  end.
Proof.
  induction steps as [|[a b] rest IH]; intros g Hsteps Hs Hw.
  - exists g. auto.
  - apply Forall_cons in Hsteps as [[Ha Hb] Hrest]. cbn [fst snd] in Ha, Hb.
    cbn [draw_steps]. cbv zeta. rewrite write_arrow_arrow_of.
    destruct (arrow_of (b.1 - a.1, b.2 - a.2)) as [y|] eqn:Hy.
    + pose proof (symbol_pos_valid a b y Ha Hb Hy) as Hv.
      change (a.1 * 2 + (b.1 - a.1, b.2 - a.2).1, a.2 * 4 + (b.1 - a.1, b.2 - a.2).2 * 2)
        with (symbol_pos a b).
      rewrite setitem_valid by (try assumption; rewrite Hs; exact Hv). cbn [bind].
      destruct (IH (poke g (symbol_pos a b) y) Hrest) as (g' & Hd & Hs' & Hw' & Hpeek).
      { rewrite shape_poke. exact Hs. }
      { apply well_shaped_poke, Hw. }
      exists g'. split; [exact Hd | split; [exact Hs' | split; [exact Hw'|]]].
      intros q Hq. rewrite (Hpeek q Hq). cbn [last_arrow]. rewrite Hy.
      destruct (last_arrow rest q); [reflexivity|].
      destruct (decide (symbol_pos a b = q)) as [<- | Hne].
      * apply peek_poke_eq; [exact Hw | rewrite Hs; exact Hv].
      * apply valid_pos_spec in Hv, Hq. apply peek_poke_ne; try lia. exact Hne.
    + cbn [bind]. destruct (IH g Hrest Hs Hw) as (g' & Hd & Hs' & Hw' & Hpeek).
      exists g'. split; [exact Hd | split; [exact Hs' | split; [exact Hw'|]]].
      intros q Hq. rewrite (Hpeek q Hq). cbn [last_arrow]. rewrite Hy.
      destruct (last_arrow rest q); [reflexivity|].
      destruct (decide _); reflexivity.
Qed.

(** Every place of the printed grid: the arrow of the last step that
    wrote there; else 'E' at the last point, 'S' at the first, the circle
    at the other points of the lattice, a blank anywhere else. *)
Lemma print_path_grid (p : list GridPt) (s e : GridPt) :
  Forall (fun c => valid_pos c size = true) p ->
  head p = Some s -> last p = Some e ->
  exists chrs,
    print_path ix p size = Ok ([[]] ++ items chrs ++ [[]]) /\
    shape chrs = chrs_size /\ well_shaped chrs /\
    forall q, valid_pos q chrs_size = true ->
      peek chrs q =
        match last_arrow (zip p (tail p)) q with
        | Some y => Some y
        | None =>
            Some (if decide (q = (e.1 * 2, e.2 * 4)) then chr_E
                  else if decide (q = (s.1 * 2, s.2 * 4)) then chr_S
                  else if (Z.to_nat q.1 mod 2 =? 0)%nat && (Z.to_nat q.2 mod 4 =? 0)%nat
                       then chr_point else chr_space)
        end.
Proof.
  intros Hval Hhd Hlast.
  assert (valid_pos s size = true) as Hs.
  { rewrite Forall_forall in Hval. apply Hval. destruct p; [discriminate|].
    injection Hhd as ->. left. }
  assert (valid_pos e size = true) as He.
  { rewrite Forall_forall in Hval. apply Hval, last_Some_elem_of, Hlast. }
  apply valid_pos_spec in Hs as Hs', He as He'.
  destruct (np_full_ok chrs_size chr_space) as (g0 & Hg0 & Hshape0 & Hw0 & Hpeek0);
    [cbn [fst]; lia | cbn [snd]; lia |].
  set (g1 := set_strided g0 2 4 chr_point).
  assert (well_shaped g1) as Hw1 by (apply set_strided_well_shaped, Hw0).
  assert (shape g1 = chrs_size) as Hsh1 by exact Hshape0.
  assert (valid_pos (s.1 * 2, s.2 * 4) chrs_size = true) as HSpos
    by (apply valid_pos_spec; cbn [fst snd]; lia).
  assert (valid_pos (e.1 * 2, e.2 * 4) chrs_size = true) as HEpos
    by (apply valid_pos_spec; cbn [fst snd]; lia).
  set (g2 := poke g1 (s.1 * 2, s.2 * 4) chr_S).
  set (g3 := poke g2 (e.1 * 2, e.2 * 4) chr_E).
  assert (well_shaped g2) as Hw2 by (apply well_shaped_poke, Hw1).
  assert (shape g2 = chrs_size) as Hsh2 by (unfold g2; rewrite shape_poke; exact Hsh1).
  assert (well_shaped g3) as Hw3 by (apply well_shaped_poke, Hw2).
  assert (shape g3 = chrs_size) as Hsh3 by (unfold g3; rewrite shape_poke; exact Hsh2).
  destruct (draw_steps_peek (zip p (tail p)) g3 (steps_valid size p Hval) Hsh3 Hw3)
    as (g4 & Hdraw & Hsh4 & Hw4 & Hpeek4).
  exists g4. split; [|split; [exact Hsh4 | split; [exact Hw4|]]].
  - unfold print_path. cbv zeta. rewrite Hg0. cbn [bind]. fold g1.
    assert (list_getitem p 0 = Ok s) as ->.
    { destruct p as [|a p']; [discriminate|]. injection Hhd as ->. reflexivity. }
    cbn [bind].
    rewrite (setitem_valid ix g1 _ chr_S ix_lawful Hw1) by (rewrite Hsh1; exact HSpos).
    cbn [bind]. fold g2.
    assert (list_getitem p (-1) = Ok e) as ->.
    { apply last_Some in Hlast as [p' ->]. apply list_getitem_last. }
    cbn [bind].
    rewrite (setitem_valid ix g2 _ chr_E ix_lawful Hw2) by (rewrite Hsh2; exact HEpos).
    cbn [bind]. fold g3. rewrite Hdraw. reflexivity.
  - intros q Hq. rewrite (Hpeek4 q Hq).
    destruct (last_arrow (zip p (tail p)) q); [reflexivity|].
    apply valid_pos_spec in Hq as Hq', HSpos as HSpos', HEpos as HEpos'.
    cbn [fst snd] in HSpos', HEpos'.
    destruct (decide (q = (e.1 * 2, e.2 * 4))) as [-> | HqE].
    { apply peek_poke_eq; [exact Hw2 | rewrite Hsh2; exact HEpos]. }
    unfold g3. rewrite peek_poke_ne; cbn [fst snd]; try lia; [|congruence].
    destruct (decide (q = (s.1 * 2, s.2 * 4))) as [-> | HqS].
    { apply peek_poke_eq; [exact Hw1 | rewrite Hsh1; exact HSpos]. }
    unfold g2. rewrite peek_poke_ne; cbn [fst snd]; try lia; [|congruence].
    unfold g1. rewrite peek_set_strided, (Hpeek0 q Hq). reflexivity.
Qed.

End Grid.

Lemma zip_tail_lookup (p : list GridPt) (a b : GridPt) :
  (a, b) ∈ zip p (tail p) <-> exists i, p !! i = Some a /\ p !! S i = Some b.
Proof.
  rewrite list_elem_of_lookup. split.
  - intros (i & Hi). apply lookup_zip_Some in Hi as [Ha Hb].
    rewrite lookup_tail in Hb. eauto.
  - intros (i & Ha & Hb). exists i. apply lookup_zip_Some.
    rewrite lookup_tail. auto.
Qed.

Lemma unit_step_arrow (a b : GridPt) :
  unit_step a b -> is_Some (arrow_of (b.1 - a.1, b.2 - a.2)).
Proof.
  intros (δ & Hδ & ->). cbn [fst snd]. unfold _search_dirns in Hδ.
  repeat (apply elem_of_cons in Hδ as [-> | Hδ]); cbn [fst snd].
  - replace (a.1 + 1 - a.1) with 1 by lia. replace (a.2 + 0 - a.2) with 0 by lia. eauto.
  - replace (a.1 + -1 - a.1) with (-1) by lia. replace (a.2 + 0 - a.2) with 0 by lia. eauto.
  - replace (a.1 + 0 - a.1) with 0 by lia. replace (a.2 + 1 - a.2) with 1 by lia. eauto.
  - replace (a.1 + 0 - a.1) with 0 by lia. replace (a.2 + -1 - a.2) with (-1) by lia. eauto.
  - apply elem_of_nil in Hδ. contradiction.
Qed.

(** In a path without repeated cells the arrow of a step is not written
    over by a later step. *)
Lemma last_arrow_nodup (p : list GridPt) (i : nat) (a b : GridPt) (y : char) :
  NoDup p -> p !! i = Some a -> p !! S i = Some b ->
  arrow_of (b.1 - a.1, b.2 - a.2) = Some y ->
  last_arrow (zip p (tail p)) (symbol_pos a b) = Some y.
Proof.
  intros Hnd Ha Hb Hy.
  destruct (last_arrow_written (zip p (tail p)) a b y) as [y' Hy'];
    [apply zip_tail_lookup; eauto | exact Hy |].
  rewrite Hy'. f_equal.
  apply last_arrow_Some in Hy' as (a' & b' & Hin & Hpos & Harrow).
  apply zip_tail_lookup in Hin as (k & Ha' & Hb').
  destruct (symbol_pos_inj a' b' a b y' y Harrow Hy Hpos) as [[-> ->] | [-> ->]].
  - congruence.
  - pose proof (NoDup_lookup p k (S i) _ Hnd Ha' Hb).
    pose proof (NoDup_lookup p (S k) i _ Hnd Hb' Ha). lia.
Qed.

(** X4: in the rendering of a path of grid cells every cell of the grid
    other than the first and the last cell of the path is drawn as the
    circle, at row [2 * r] and column [4 * c] of the character grid,
    whether the path visits it or not: the arrows never cover a cell. *)
Theorem rendered_cells_are_circles (p : list GridPt) (size start_pos end_pos c : GridPt) :
  Forall (fun c => valid_pos c size = true) p ->
  head p = Some start_pos ->
  last p = Some end_pos ->
  valid_pos c size = true ->
  pt_eqb c start_pos = false ->
  pt_eqb c end_pos = false ->
  exists grid,
    print_path np_index p size = Ok ([[]] ++ grid ++ [[]]) /\
    peek (mk_ndarray (2 * size.1 - 1, 4 * size.2 - 3) grid) (c.1 * 2, c.2 * 4)
      = Some chr_point.
Proof.
  intros Hval Hhd Hlast Hc Hcs Hce. apply pt_eqb_neq in Hcs, Hce.
  destruct (print_path_grid np_index np_index_lawful size p start_pos end_pos Hval Hhd Hlast)
    as (chrs & Hprint & Hshape & Hw & Hpeek).
  exists (items chrs). split; [exact Hprint|].
  apply valid_pos_spec in Hc as Hc'.
  assert (valid_pos (c.1 * 2, c.2 * 4) (2 * size.1 - 1, 4 * size.2 - 3) = true) as Hq
    by (apply valid_pos_spec; cbn [fst snd]; lia).
  assert (on_lattice (c.1 * 2, c.2 * 4)) as Hon
    by (unfold on_lattice; cbn [fst snd]; rewrite !Z.mod_mul by lia; auto).
  change (peek chrs (c.1 * 2, c.2 * 4) = Some chr_point). rewrite (Hpeek _ Hq).
  destruct (last_arrow _ _) as [y|] eqn:Hy.
  { apply last_arrow_Some in Hy as (a & b & _ & Hpos & Harrow).
    apply symbol_pos_off_lattice in Harrow. rewrite Hpos in Harrow. contradiction. }
  f_equal.
  rewrite decide_False.
  2:{ intros [= H1 H2]. apply Hce. destruct c, end_pos. cbn [fst snd] in *. f_equal; lia. }
  rewrite decide_False.
  2:{ intros [= H1 H2]. apply Hcs. destruct c, start_pos. cbn [fst snd] in *. f_equal; lia. }
  destruct (_ && _) eqn:Hl; [reflexivity|].
  exfalso. apply not_true_iff_false in Hl. apply Hl, lattice_test; cbn [fst snd]; try lia.
  exact Hon.
Qed.

Lemma rendered_cells_are_circles_witness :
  exists grid,
    print_path np_index [(0, 0); (0, 1); (1, 1); (1, 0)] (2, 2) = Ok ([[]] ++ grid ++ [[]]) /\
    peek (mk_ndarray (2 * (2, 2).1 - 1, 4 * (2, 2).2 - 3) grid) ((1, 1).1 * 2, (1, 1).2 * 4)
      = Some chr_point.
Proof.
  apply (rendered_cells_are_circles [(0, 0); (0, 1); (1, 1); (1, 0)] (2, 2) (0, 0) (1, 0) (1, 1));
    try reflexivity.
  repeat constructor.
Defined.

(** X5: in the rendering of a path of grid cells without repeated cells,
    the arrow of every step that goes to a neighbouring cell stands
    between the two cells, at row [2 * r1 + dr] and column [4 * c1 + 2 * dc]:
    no later step writes over it. *)
Theorem rendered_steps_are_arrows
    (p : list GridPt) (size : GridPt) (i : nat) (a b : GridPt) (y : char) :
  Forall (fun c => valid_pos c size = true) p ->
  NoDup p ->
  p !! i = Some a ->
  p !! S i = Some b ->
  arrow_of (b.1 - a.1, b.2 - a.2) = Some y ->
  exists grid,
    print_path np_index p size = Ok ([[]] ++ grid ++ [[]]) /\
    peek (mk_ndarray (2 * size.1 - 1, 4 * size.2 - 3) grid)
      (a.1 * 2 + (b.1 - a.1), a.2 * 4 + (b.2 - a.2) * 2) = Some y.
Proof.
  intros Hval Hnd Ha Hb Hy.
  destruct (head p) as [s|] eqn:Hhd; [|destruct p; discriminate].
  destruct (last p) as [e|] eqn:Hlast; [|apply last_None in Hlast; subst; discriminate].
  destruct (print_path_grid np_index np_index_lawful size p s e Hval Hhd Hlast)
    as (chrs & Hprint & Hshape & Hw & Hpeek).
  exists (items chrs). split; [exact Hprint|].
  assert (valid_pos a size = true /\ valid_pos b size = true) as [Hva Hvb].
  { rewrite Forall_forall in Hval. split; apply Hval, list_elem_of_lookup; eauto. }
  pose proof (symbol_pos_valid size a b y Hva Hvb Hy) as Hq.
  change (peek chrs (symbol_pos a b) = Some y). rewrite (Hpeek _ Hq).
  rewrite (last_arrow_nodup p i a b y Hnd Ha Hb Hy). reflexivity.
Qed.

Lemma rendered_steps_are_arrows_witness :
  exists grid,
    print_path np_index [(0, 0); (0, 1); (1, 1); (1, 0)] (2, 2) = Ok ([[]] ++ grid ++ [[]]) /\
    peek (mk_ndarray (2 * (2, 2).1 - 1, 4 * (2, 2).2 - 3) grid)
      ((0, 1).1 * 2 + ((1, 1).1 - (0, 1).1), (0, 1).2 * 4 + ((1, 1).2 - (0, 1).2) * 2)
      = Some chr_down.
Proof.
  apply (rendered_steps_are_arrows [(0, 0); (0, 1); (1, 1); (1, 0)] (2, 2) 1 (0, 1) (1, 1)).
  - repeat constructor.
  - repeat (apply NoDup_cons_2;
              [ intros H; repeat (apply elem_of_cons in H as [H | H]; [discriminate H|]);
                apply elem_of_nil in H; exact H | ]).
    apply NoDup_nil_2.
  - reflexivity.
  - reflexivity.
  - reflexivity.
Defined.

(** X6: every place of the character grid that is neither the place of a
    cell nor the place between two consecutive cells of the path is left
    blank. *)
Theorem rendered_rest_is_blank (p : list GridPt) (size : GridPt) (q : Z * Z) :
  Forall (fun c => valid_pos c size = true) p ->
  p <> [] ->
  valid_pos q (2 * size.1 - 1, 4 * size.2 - 3) = true ->
  ~ on_lattice q ->
  (forall i a b, p !! i = Some a -> p !! S i = Some b ->
     (a.1 * 2 + (b.1 - a.1), a.2 * 4 + (b.2 - a.2) * 2) <> q) ->
  exists grid,
    print_path np_index p size = Ok ([[]] ++ grid ++ [[]]) /\
    peek (mk_ndarray (2 * size.1 - 1, 4 * size.2 - 3) grid) q = Some chr_space.
Proof.
  intros Hval Hp Hq Hoff Hfree.
  destruct (head p) as [s|] eqn:Hhd; [|destruct p; [contradiction | discriminate]].
  destruct (last p) as [e|] eqn:Hlast; [|apply last_None in Hlast; contradiction].
  destruct (print_path_grid np_index np_index_lawful size p s e Hval Hhd Hlast)
    as (chrs & Hprint & Hshape & Hw & Hpeek).
  exists (items chrs). split; [exact Hprint|].
  change (peek chrs q = Some chr_space). rewrite (Hpeek _ Hq).
  destruct (last_arrow _ _) as [y|] eqn:Hy.
  { apply last_arrow_Some in Hy as (a & b & Hin & Hpos & _).
    apply zip_tail_lookup in Hin as (i & Ha & Hb).
    exfalso. exact (Hfree i a b Ha Hb Hpos). }
  assert (valid_pos s size = true) as Hs.
  { rewrite Forall_forall in Hval. apply Hval. destruct p; [discriminate|].
    injection Hhd as ->. left. }
  assert (valid_pos e size = true) as He.
  { rewrite Forall_forall in Hval. apply Hval, last_Some_elem_of, Hlast. }
  apply valid_pos_spec in Hq as Hq'. cbn [fst snd] in Hq'. f_equal.
  rewrite decide_False.
  2:{ intros ->. apply Hoff. unfold on_lattice. cbn [fst snd].
      rewrite !Z.mod_mul by lia. auto. }
  rewrite decide_False.
  2:{ intros ->. apply Hoff. unfold on_lattice. cbn [fst snd].
      rewrite !Z.mod_mul by lia. auto. }
  destruct (_ && _) eqn:Hl; [|reflexivity].
  apply lattice_test in Hl; [contradiction | lia | lia].
Qed.

Lemma rendered_rest_is_blank_witness :
  exists grid,
    print_path np_index [(0, 0); (0, 1); (1, 1); (1, 0)] (2, 2) = Ok ([[]] ++ grid ++ [[]]) /\
    peek (mk_ndarray (2 * (2, 2).1 - 1, 4 * (2, 2).2 - 3) grid) (1, 0) = Some chr_space.
Proof.
  apply (rendered_rest_is_blank [(0, 0); (0, 1); (1, 1); (1, 0)] (2, 2) (1, 0)).
  - repeat constructor.
  - discriminate.
  - reflexivity.
  - unfold on_lattice. cbn [fst snd]. intros [H _]. discriminate H.
  - intros i a b Ha Hb.
    destruct i as [|[|[|i]]]; cbn in Ha, Hb; try discriminate;
      injection Ha as <-; injection Hb as <-; cbn [fst snd]; discriminate.
Defined.

(** X7: what [main] does with a found path works: a non-empty list
    returned by [solve_snake] on a valid request is rendered by
    [print_path] without an exception, with 'S' at the start, 'E' at the
    end, and between every two consecutive cells of the path the arrow
    that points from the first to the second. *)
Theorem found_path_is_drawn
    (limit : nat) (start_pos end_pos size : GridPt) (method : string) (p : list GridPt) :
  valid_pos start_pos size = true ->
  valid_pos end_pos size = true ->
  pt_eqb start_pos end_pos = false ->
  solve_snake np_index limit start_pos end_pos size method = Ok p ->
  p <> [] ->
  exists grid,
    print_path np_index p size = Ok ([[]] ++ grid ++ [[]]) /\
    peek (mk_ndarray (2 * size.1 - 1, 4 * size.2 - 3) grid)
      (start_pos.1 * 2, start_pos.2 * 4) = Some chr_S /\
    peek (mk_ndarray (2 * size.1 - 1, 4 * size.2 - 3) grid)
      (end_pos.1 * 2, end_pos.2 * 4) = Some chr_E /\
    forall i a b, p !! i = Some a -> p !! S i = Some b ->
      exists y, arrow_of (b.1 - a.1, b.2 - a.2) = Some y /\
        peek (mk_ndarray (2 * size.1 - 1, 4 * size.2 - 3) grid)
          (a.1 * 2 + (b.1 - a.1), a.2 * 4 + (b.2 - a.2) * 2) = Some y.
Proof.
  intros Hs He Hne Hrun Hp.
  destruct (solve_snake_answer np_index start_pos end_pos size Hs He Hne np_index_lawful)
    as (answer & _ & _ & _ & Hret & Hfound & _).
  apply Hret in Hrun as <-.
  destruct (Hfound Hp) as (Hlen & Hhd & Hlast & Hnd & Hcov & Hch).
  destruct (valid_pos_nonneg _ _ Hs) as [H1 H2].
  pose proof (cover_valid size p H1 H2 Hlen Hcov) as Hval.
  destruct (print_path_spec np_index np_index_lawful size p start_pos end_pos Hval Hhd Hlast)
    as (chrs & Hprint & _ & _ & HE & Hrest).
  apply pt_eqb_neq in Hne. destruct (Hrest Hne) as (HS & _).
  destruct (print_path_grid np_index np_index_lawful size p start_pos end_pos Hval Hhd Hlast)
    as (chrs' & Hprint' & _ & _ & Hpeek).
  rewrite Hprint in Hprint'. injection Hprint' as Hitems.
  apply app_inj_tail in Hitems as [Hitems _].
  exists (items chrs). split; [exact Hprint|]. split; [exact HS|]. split; [exact HE|].
  intros i a b Ha Hb.
  destruct (unit_step_arrow a b (chain_lookup p i a b Hch Ha Hb)) as [y Hy].
  exists y. split; [exact Hy|].
  assert (valid_pos a size = true /\ valid_pos b size = true) as [Hva Hvb].
  { rewrite Forall_forall in Hval. split; apply Hval, list_elem_of_lookup; eauto. }
  pose proof (symbol_pos_valid size a b y Hva Hvb Hy) as Hq.
  change (peek (mk_ndarray (2 * size.1 - 1, 4 * size.2 - 3) (items chrs)) (symbol_pos a b)
          = Some y).
  unfold peek at 1. cbn [items]. rewrite Hitems.
  change (peek chrs' (symbol_pos a b) = Some y).
  rewrite (Hpeek _ Hq), (last_arrow_nodup p i a b y Hnd Ha Hb Hy). reflexivity.
Qed.

Lemma found_path_is_drawn_witness :
  exists grid,
    print_path np_index [(0, 0); (0, 1); (1, 1); (1, 0)] (2, 2) = Ok ([[]] ++ grid ++ [[]]) /\
    peek (mk_ndarray (2 * (2, 2).1 - 1, 4 * (2, 2).2 - 3) grid)
      ((0, 0).1 * 2, (0, 0).2 * 4) = Some chr_S /\
    peek (mk_ndarray (2 * (2, 2).1 - 1, 4 * (2, 2).2 - 3) grid)
      ((1, 0).1 * 2, (1, 0).2 * 4) = Some chr_E /\
    forall i a b,
      [(0, 0); (0, 1); (1, 1); (1, 0)] !! i = Some a ->
      [(0, 0); (0, 1); (1, 1); (1, 0)] !! S i = Some b ->
      exists y, arrow_of (b.1 - a.1, b.2 - a.2) = Some y /\
        peek (mk_ndarray (2 * (2, 2).1 - 1, 4 * (2, 2).2 - 3) grid)
          (a.1 * 2 + (b.1 - a.1), a.2 * 4 + (b.2 - a.2) * 2) = Some y.
Proof.
  apply (found_path_is_drawn 4 (0, 0) (1, 0) (2, 2) "recursive").
  - reflexivity.
  - reflexivity.
  - reflexivity.
  - vm_compute. reflexivity.
  - discriminate.
Defined.

(** X8: the loop of the non-recursive method returns within
    [4 ^ (rows * cols + 1)] passes on every valid request, with the list
    that [solve_snake] returns under that method whatever the limit of
    the recursion. *)
Theorem loop_returns_within_bound (limit : nat) (start_pos end_pos size : GridPt) :
  valid_pos start_pos size = true ->
  valid_pos end_pos size = true ->
  pt_eqb start_pos end_pos = false ->
  exists visited0 answer,
    np_zeros size = Ok visited0 /\
    iterate (4 ^ (Z.to_nat (size.1 * size.2) + 1))
      (loop_body np_index end_pos size)
      (mk_loop [start_pos] [0] (poke visited0 start_pos true)) = Ok (Return answer) /\
    solve_snake np_index limit start_pos end_pos size "non-recursive" = Ok answer.
Proof.
  intros Hs He Hne. apply pt_eqb_neq in Hne as Hne'.
  destruct (search_both np_index np_index_lawful start_pos end_pos size Hs He Hne')
    as (v0 & answer & Hz & _ & _ & _ & Hloop & _).
  specialize (Hloop limit).
  exists v0, answer. split; [exact Hz|]. split; [|exact Hloop].
  unfold solve_snake in Hloop. rewrite Hs, He, Hne in Hloop. cbn [negb] in Hloop.
  change (String.eqb "non-recursive" "recursive") with false in Hloop.
  change (String.eqb "non-recursive" "non-recursive") with true in Hloop.
  cbv iota in Hloop. unfold _non_recursive in Hloop. rewrite Hz in Hloop.
  cbn [bind] in Hloop.
  destruct (valid_pos_nonneg _ _ Hs) as [H1 H2].
  destruct (np_full_ok size false H1 H2) as (v & Hv & Hshape & Hw & _).
  unfold np_zeros in Hz. rewrite Hv in Hz. injection Hz as <-.
  rewrite setitem_valid in Hloop;
    [| exact np_index_lawful | exact Hw | rewrite Hshape; exact Hs].
  cbn [bind] in Hloop. unfold while_true in Hloop.
  rewrite iterate_pow2_iterate in Hloop.
  unfold loop_budget in Hloop. rewrite Nat.pow_mul_r in Hloop.
  change (2 ^ 2)%nat with 4%nat in Hloop.
  destruct (iterate _ _ _) as [[s | r] | e |]; cbn [bind] in Hloop; try discriminate.
  injection Hloop as ->. reflexivity.
Qed.

Lemma loop_returns_within_bound_witness :
  exists visited0 answer,
    np_zeros (1, 2) = Ok visited0 /\
    iterate (4 ^ (Z.to_nat ((1, 2).1 * (1, 2).2) + 1))
      (loop_body np_index (0, 1) (1, 2))
      (mk_loop [(0, 0)] [0] (poke visited0 (0, 0) true)) = Ok (Return answer) /\
    solve_snake np_index 0 (0, 0) (0, 1) (1, 2) "non-recursive" = Ok answer.
Proof.
  apply (loop_returns_within_bound 0 (0, 0) (0, 1) (1, 2)); reflexivity.
Defined.

(** ** Indices outside the bounds *)

Lemma np_index_outside (n i : Z) : n <= i \/ i < - n -> np_index n i = None.
Proof.
  intros H. unfold np_index.
  destruct (Z.leb_spec 0 i), (Z.ltb_spec i n), (Z.leb_spec (- n) i), (Z.ltb_spec i 0);
    cbn [andb]; try reflexivity; lia.
Qed.

Lemma np_index_inside (n i : Z) :
  - n <= i < n ->
  exists r, np_index n i = Some r /\ (r < Z.to_nat n)%nat /\
    Z.of_nat r = if i <? 0 then n + i else i.
Proof.
  intros H. unfold np_index.
  destruct (Z.leb_spec 0 i), (Z.ltb_spec i n), (Z.leb_spec (- n) i), (Z.ltb_spec i 0);
    cbn [andb]; try lia; eexists; (split; [reflexivity|]); lia.
Qed.

Lemma setitem_outside {A : Type} (a : ndarray A) (pos : Z * Z) (x : A) :
  np_index (shape a).1 pos.1 = None \/ np_index (shape a).2 pos.2 = None ->
  setitem np_index a pos x = Raise IndexError.
Proof.
  intros [H | H]; unfold setitem; rewrite H; [reflexivity|].
  destruct (np_index (shape a).1 pos.1); reflexivity.
Qed.

(** An index in [-n, n) on either axis is taken, a negative one from the
    back. *)
Lemma setitem_wraps {A : Type} (a : ndarray A) (pos : Z * Z) (x : A) :
  well_shaped a ->
  - (shape a).1 <= pos.1 < (shape a).1 -> - (shape a).2 <= pos.2 < (shape a).2 ->
  setitem np_index a pos x =
    Ok (poke a (if pos.1 <? 0 then (shape a).1 + pos.1 else pos.1,
                if pos.2 <? 0 then (shape a).2 + pos.2 else pos.2) x).
Proof.
  intros [Hlen Hrows] H1 H2.
  destruct (np_index_inside _ _ H1) as (r & Hr & Hrlt & Hrz).
  destruct (np_index_inside _ _ H2) as (c & Hc & Hclt & Hcz).
  unfold setitem, poke. rewrite Hr, Hc. cbn [fst snd]. rewrite <- Hrz, <- Hcz, !Nat2Z.id.
  destruct (lookup_lt_is_Some_2 (items a) r) as [row Hrow]; [lia|]. rewrite Hrow.
  rewrite Forall_forall in Hrows.
  assert (length row = Z.to_nat (shape a).2) as Hl
    by (apply Hrows, list_elem_of_lookup; eauto).
  destruct (decide (c < length row)%nat); [reflexivity | lia].
Qed.

(** X9: [print_path] refuses a grid without rows or without columns with
    the [ValueError] of [np.full], whatever the path; and on a grid with
    rows and columns it raises [IndexError] as soon as the first cell of
    the path has a row [r] with [|r| >= rows] or a column [c] with
    [|c| >= cols]. *)
Theorem print_path_out_of_bounds (p : list GridPt) (size c : GridPt) :
  (size.1 <= 0 \/ size.2 <= 0 ->
   print_path np_index p size = Raise (ValueError NegativeDimensions)) /\
  (1 <= size.1 -> 1 <= size.2 -> head p = Some c ->
   size.1 <= Z.abs c.1 \/ size.2 <= Z.abs c.2 ->
   print_path np_index p size = Raise IndexError).
Proof.
  split.
  - intros Hsize. unfold print_path, np_full. cbv zeta. cbn [fst snd].
    assert ((2 * size.1 - 1 <? 0) || (4 * size.2 - 3 <? 0) = true) as ->; [|reflexivity].
    apply orb_true_iff. rewrite !Z.ltb_lt. lia.
  - intros H1 H2 Hhd Hout. unfold print_path. cbv zeta.
    destruct (np_full_ok (2 * size.1 - 1, 4 * size.2 - 3) chr_space)
      as (g0 & -> & Hshape & _); [cbn [fst]; lia | cbn [snd]; lia |].
    cbn [bind].
    assert (list_getitem p 0 = Ok c) as ->.
    { destruct p as [|a p']; [discriminate|]. injection Hhd as ->. reflexivity. }
    cbn [bind]. rewrite setitem_outside; [reflexivity|].
    cbn [set_strided shape fst snd]. rewrite Hshape. cbn [fst snd].
    destruct Hout as [Hr | Hc]; [left | right]; apply np_index_outside; lia.
Qed.

Lemma print_path_out_of_bounds_witness :
  print_path np_index [(0, 0)] (0, 3) = Raise (ValueError NegativeDimensions) /\
  print_path np_index [(-2, 0); (0, 0)] (2, 2) = Raise IndexError.
Proof.
  split.
  - apply (print_path_out_of_bounds [(0, 0)] (0, 3) (0, 0)). left. cbn [fst]. lia.
  - apply (print_path_out_of_bounds [(-2, 0); (0, 0)] (2, 2) (-2, 0)).
    + cbn [fst]. lia.
    + cbn [snd]. lia.
    + reflexivity.
    + left. cbn [fst]. lia.
Defined.

(** X10: [print_path] does not check the cells of the path against the
    grid, and NumPy's negative indices are within its reach: a path of
    one cell with row [r] and column [c], [-rows < r < rows] and
    [-cols < c < cols], is rendered without an exception, and a negative
    coordinate is drawn counted from the far edge of the character
    grid. *)
Theorem print_path_wraps_negative_cell (size c : GridPt) :
  - size.1 < c.1 < size.1 ->
  - size.2 < c.2 < size.2 ->
  exists grid,
    print_path np_index [c] size = Ok ([[]] ++ grid ++ [[]]) /\
    peek (mk_ndarray (2 * size.1 - 1, 4 * size.2 - 3) grid)
      (if c.1 <? 0 then 2 * size.1 - 1 + c.1 * 2 else c.1 * 2,
       if c.2 <? 0 then 4 * size.2 - 3 + c.2 * 4 else c.2 * 4) = Some chr_E.
Proof.
  intros H1 H2. unfold print_path. cbv zeta.
  destruct (np_full_ok (2 * size.1 - 1, 4 * size.2 - 3) chr_space)
    as (g0 & -> & Hshape & Hw0 & _); [cbn [fst]; lia | cbn [snd]; lia |].
  cbn [bind].
  set (g1 := set_strided g0 2 4 chr_point).
  assert (well_shaped g1) as Hw1 by (apply set_strided_well_shaped, Hw0).
  assert (shape g1 = (2 * size.1 - 1, 4 * size.2 - 3)) as Hsh1 by exact Hshape.
  change (list_getitem [c] 0) with (Ok c). change (list_getitem [c] (-1)) with (Ok c).
  cbn [bind].
  rewrite (setitem_wraps g1) by (try exact Hw1; rewrite Hsh1; cbn [fst snd]; lia).
  cbn [bind]. rewrite Hsh1. cbn [fst snd].
  set (q := (if c.1 * 2 <? 0 then 2 * size.1 - 1 + c.1 * 2 else c.1 * 2,
             if c.2 * 4 <? 0 then 4 * size.2 - 3 + c.2 * 4 else c.2 * 4)).
  set (g2 := poke g1 q chr_S).
  assert (well_shaped g2) as Hw2 by (apply well_shaped_poke, Hw1).
  assert (shape g2 = (2 * size.1 - 1, 4 * size.2 - 3)) as Hsh2
    by (unfold g2; rewrite shape_poke; exact Hsh1).
  rewrite (setitem_wraps g2) by (try exact Hw2; rewrite Hsh2; cbn [fst snd]; lia).
  cbn [bind]. rewrite Hsh2. cbn [fst snd]. fold q.
  eexists. split; [reflexivity|].
  assert ((c.1 * 2 <? 0) = (c.1 <? 0)) as Hn1
    by (destruct (Z.ltb_spec (c.1 * 2) 0), (Z.ltb_spec c.1 0); try reflexivity; lia).
  assert ((c.2 * 4 <? 0) = (c.2 <? 0)) as Hn2
    by (destruct (Z.ltb_spec (c.2 * 4) 0), (Z.ltb_spec c.2 0); try reflexivity; lia).
  rewrite <- Hn1, <- Hn2. fold q.
  change (peek (poke g2 q chr_E) q = Some chr_E).
  apply peek_poke_eq; [exact Hw2|]. rewrite Hsh2. apply valid_pos_spec.
  unfold q. cbn [fst snd].
  destruct (Z.ltb_spec (c.1 * 2) 0), (Z.ltb_spec (c.2 * 4) 0); lia.
Qed.

Lemma print_path_wraps_negative_cell_witness :
  exists grid,
    print_path np_index [(-1, 0)] (2, 2) = Ok ([[]] ++ grid ++ [[]]) /\
    peek (mk_ndarray (2 * (2, 2).1 - 1, 4 * (2, 2).2 - 3) grid)
      (if (-1, 0).1 <? 0 then 2 * (2, 2).1 - 1 + (-1, 0).1 * 2 else (-1, 0).1 * 2,
       if (-1, 0).2 <? 0 then 4 * (2, 2).2 - 3 + (-1, 0).2 * 4 else (-1, 0).2 * 4)
      = Some chr_E.
Proof.
  apply (print_path_wraps_negative_cell (2, 2) (-1, 0)); cbn [fst snd]; lia.
Defined.

(** X11: the two strategies agree only behind the checks of
    [solve_snake].  Called by itself with a start at or beyond the last
    row or column, [_non_recursive] marks the start without testing it
    and raises [IndexError], where [_recursive] tests it and returns
    [False] with the array and the path untouched. *)
Theorem strategies_differ_on_invalid_start (start_pos end_pos size : GridPt) :
  0 <= size.1 -> 0 <= size.2 ->
  size.1 <= start_pos.1 \/ size.2 <= start_pos.2 ->
  _non_recursive np_index start_pos end_pos size = Raise IndexError /\
  forall depth visited0,
    np_zeros size = Ok visited0 ->
    _recursive np_index depth start_pos end_pos (mk_state visited0 [])
      = Ok (false, mk_state visited0 []).
Proof.
  intros H1 H2 Hout.
  destruct (np_full_ok size false H1 H2) as (v0 & Hz & Hshape & Hw & _).
  change (np_full size false) with (np_zeros size) in Hz. split.
  - unfold _non_recursive. rewrite Hz. cbn [bind].
    rewrite setitem_outside; [reflexivity|]. rewrite Hshape.
    destruct Hout; [left | right]; apply np_index_outside; lia.
  - intros depth v Hv. rewrite Hz in Hv. injection Hv as <-.
    rewrite recursive_unfold by (exact np_index_lawful || exact Hw).
    cbv zeta. cbn [visited]. rewrite Hshape.
    assert (valid_pos start_pos size = false) as ->; [|reflexivity].
    apply not_true_iff_false. rewrite valid_pos_spec. lia.
Qed.

Lemma strategies_differ_on_invalid_start_witness :
  _non_recursive np_index (2, 0) (0, 1) (2, 2) = Raise IndexError /\
  forall depth visited0,
    np_zeros (2, 2) = Ok visited0 ->
    _recursive np_index depth (2, 0) (0, 1) (mk_state visited0 [])
      = Ok (false, mk_state visited0 []).
Proof.
  apply (strategies_differ_on_invalid_start (2, 0) (0, 1) (2, 2)); cbn [fst snd]; lia.
Defined.

(** ** The first path in the order of the directions *)

Lemma rank_in_hit (pre post : list GridPt) (δ a : GridPt) :
  (rank_in (pre ++ δ :: post) a (a.1 + δ.1, a.2 + δ.2)%Z <= length pre)%nat.
Proof.
  induction pre as [|δ' pre IH]; cbn [app rank_in length].
  - assert (pt_eqb (a.1 + δ.1, a.2 + δ.2) (a.1 + δ.1, a.2 + δ.2) = true) as ->
      by (apply pt_eqb_eq; reflexivity). lia.
  - destruct (pt_eqb _ _); lia.
Qed.

Lemma rank_in_miss (pre post : list GridPt) (δ a b : GridPt) :
  (forall δ', δ' ∈ pre ++ [δ] -> b <> (a.1 + δ'.1, a.2 + δ'.2)) ->
  (length pre < rank_in (pre ++ δ :: post) a b)%nat.
Proof.
  induction pre as [|δ' pre IH]; intros Hmiss; cbn [app rank_in length].
  - assert (pt_eqb b (a.1 + δ.1, a.2 + δ.2) = false) as ->; [|lia].
    apply pt_eqb_neq, Hmiss. left.
  - assert (pt_eqb b (a.1 + δ'.1, a.2 + δ'.2) = false) as ->.
    { apply pt_eqb_neq, Hmiss. left. }
    assert (length pre < rank_in (pre ++ δ :: post) a b)%nat; [|lia].
    apply IH. intros δ'' Hin. apply Hmiss. right. exact Hin.
Qed.

Section FirstDirn.
Variable call : GridPt -> SearchState -> Outcome (bool * SearchState).
Variable pos : GridPt.
Variable st : SearchState.
Hypothesis call_restores : forall p s', call p st = Ok (false, s') -> s' = st.

(** The loop over the directions is left at the first direction whose
    call succeeds: the calls before it have failed. *)
Lemma for_dirns_first (dirns : list GridPt) (st' : SearchState) :
  for_dirns call pos dirns st = Ok (true, st') ->
  exists pre δ post,
    dirns = pre ++ δ :: post /\
    call (pos.1 + δ.1, pos.2 + δ.2) st = Ok (true, st') /\
    forall δ', δ' ∈ pre -> call (pos.1 + δ'.1, pos.2 + δ'.2) st = Ok (false, st).
Proof.
  induction dirns as [|δ rest IH]; [discriminate|].
  rewrite for_dirns_cons.
  intros H. apply bind_Ok in H as ([b s] & Hc & H). cbn [fst snd] in H.
  destruct b.
  - injection H as <-. exists [], δ, rest. split; [reflexivity|]. split; [exact Hc|].
    intros δ' Hin. apply elem_of_nil in Hin. contradiction.
  - pose proof (call_restores _ _ Hc) as ->.
    destruct (IH H) as (pre & δ0 & post & -> & Hc0 & Hpre).
    exists (δ :: pre), δ0, post. split; [reflexivity|]. split; [exact Hc0|].
    intros δ' Hin. apply elem_of_cons in Hin as [-> | Hin]; auto.
Qed.

End FirstDirn.

Section First.
Variable ix : Z -> Z -> option nat.
Hypothesis ix_lawful : lawful ix.
Variables end_pos size : GridPt.

(** A call that returns [True] has found, among the sequences the search
    looks for that begin with the path followed by [pos], the first one
    in the order of the directions. *)
Lemma recursive_first (d : nat) : forall pos st st',
  search_inv size (visited st) (path st) ->
  _recursive ix d pos end_pos st = Ok (true, st') ->
  forall q, goal size end_pos q -> (path st ++ [pos]) `prefix_of` q ->
    q = path st' \/ tried_earlier (path st') q.
Proof.
  induction d as [|d IH]; intros pos st st' Hinv Hrun q Hgoal [k ->];
    pose proof Hgoal as (Hlen & Hlast & Hnd & Hval & Hch);
    pose proof (inv_shape _ _ _ Hinv) as Hs;
    pose proof (inv_well_shaped _ _ _ Hinv) as Hw;
    rewrite recursive_unfold in Hrun by assumption; cbv zeta in Hrun; rewrite Hs in Hrun;
    (destruct (valid_pos pos size) eqn:Hv; cbn [negb] in Hrun; [|discriminate]);
    (destruct (bool_decide _) eqn:Hseen; [discriminate|]);
    apply bool_decide_eq_false in Hseen;
    pose proof (search_inv_commit _ _ _ _ Hinv Hv Hseen) as Hinv1;
    (destruct (pt_eqb pos end_pos && _) eqn:Hdone;
     [ injection Hrun as <-; cbn [path]; left;
       apply andb_true_iff in Hdone as [_ Hn]; apply Z.eqb_eq in Hn;
       rewrite length_app in Hlen; destruct k; [apply app_nil_r|];
       cbn [length] in Hlen; lia | ]); [discriminate|].
  apply bind_Ok in Hrun as ([b s1] & Hfor & Hrun). cbn [fst snd] in Hrun.
  destruct b.
  2:{ apply bind_Ok in Hrun as (? & _ & Hrun). apply bind_Ok in Hrun as (? & _ & Hrun).
      discriminate. }
  injection Hrun as <-.
  assert (forall p s', _recursive ix d p end_pos
            (mk_state (poke (visited st) pos true) (path st ++ [pos])) = Ok (false, s') ->
            s' = mk_state (poke (visited st) pos true) (path st ++ [pos])) as Hres.
  { intros p s' Hc. apply recursive_restores in Hc; [exact Hc | exact ix_lawful |].
    cbn [visited]. apply well_shaped_poke, Hw. }
  apply (for_dirns_first (fun p s => _recursive ix d p end_pos s) pos _ Hres) in Hfor
    as (pre & δ & post & Hdirns & Hcall & Hfailed).
  destruct k as [|x k].
  - exfalso. rewrite app_nil_r in *. rewrite last_snoc in Hlast. injection Hlast as ->.
    apply andb_false_iff in Hdone as [Hdone | Hdone].
    + apply pt_eqb_neq in Hdone. congruence.
    + apply Z.eqb_neq in Hdone. congruence.
  - pose proof Hch as Hch'. rewrite <- app_assoc in Hch'.
    apply chain_app_r in Hch'. cbn [app] in Hch'. destruct Hch' as [(δx & Hδx & ->) _].
    set (x := (pos.1 + δx.1, pos.2 + δx.2)) in *.
    destruct (decide (x = (pos.1 + δ.1, pos.2 + δ.2))) as [Hx | Hx].
    + apply (IH _ (mk_state (poke (visited st) pos true) (path st ++ [pos])) _ Hinv1 Hcall);
        [exact Hgoal|].
      exists k. cbn [path]. rewrite Hx, <- !app_assoc. reflexivity.
    + destruct (decide (Exists (fun δ' => x = (pos.1 + δ'.1, pos.2 + δ'.2)) pre))
        as [Hex | Hnex].
      * exfalso. apply Exists_exists in Hex as (δ' & Hin & Hxδ).
        apply (recursive_complete ix ix_lawful end_pos size d _
                 (mk_state (poke (visited st) pos true) (path st ++ [pos])) _ Hinv1
                 (Hfailed δ' Hin) ((path st ++ [pos]) ++ x :: k)); [|exact Hgoal].
        exists k. cbn [path]. rewrite Hxδ, <- !app_assoc. reflexivity.
      * right.
        destruct (recursive_sound ix ix_lawful end_pos size d _
                    (mk_state (poke (visited st) pos true) (path st ++ [pos])) _ Hinv1 Hcall)
          as (_ & ext & Hp & _).
        cbn [path] in Hp.
        exists (path st), pos, (pos.1 + δ.1, pos.2 + δ.2), x, ext, k.
        split; [rewrite Hp, <- app_assoc; reflexivity|].
        split; [rewrite <- app_assoc; reflexivity|].
        unfold step_rank. rewrite Hdirns.
        pose proof (rank_in_hit pre post δ pos) as Hhit.
        assert (length pre < rank_in (pre ++ δ :: post) pos x)%nat as Hmiss; [|lia].
        apply rank_in_miss. intros δ' Hin.
        apply elem_of_app in Hin as [Hin | Hin].
        -- intros Hxδ. apply Hnex, Exists_exists. eauto.
        -- apply list_elem_of_singleton in Hin as ->. exact Hx.
Qed.

End First.

(** X12: first found wins, in the order of [_search_dirns].  On a valid
    request the path that [solve_snake] returns, under either method,
    and whatever the limit of the recursion, comes before every other
    Hamiltonian path from the start to the end:
    where the two part, the returned path takes the direction that
    stands earlier in [_search_dirns]. *)
Theorem returned_path_is_first
    (limit : nat) (start_pos end_pos size : GridPt) (method : string) (p q : list GridPt) :
  valid_pos start_pos size = true ->
  valid_pos end_pos size = true ->
  pt_eqb start_pos end_pos = false ->
  solve_snake np_index limit start_pos end_pos size method = Ok p ->
  hamiltonian size start_pos end_pos q ->
  q = p \/ tried_earlier p q.
Proof.
  intros Hs He Hne Hrun Hq. apply pt_eqb_neq in Hne as Hne'.
  destruct (search_both np_index np_index_lawful start_pos end_pos size Hs He Hne')
    as (v0 & answer & Hz & (b & st' & Hrec & Hans) & _ & _ & Hl & _ & Hnone & Hlim).
  rewrite (solve_snake_dispatch np_index start_pos end_pos size Hs He Hne) in Hrun.
  assert (p = answer) as ->.
  { destruct (String.eqb method "recursive").
    - destruct (Hlim limit) as [Hr | Hr]; rewrite Hr in Hrun; congruence.
    - rewrite Hl in Hrun.
      destruct (String.eqb method "non-recursive"); [congruence | discriminate]. }
  destruct b.
  2:{ exfalso. exact (Hnone Hans q Hq). }
  subst answer.
  destruct (valid_pos_nonneg _ _ Hs) as [H1 H2].
  destruct (np_full_ok size false H1 H2) as (v & Hv & Hshape & Hw & Hpeek).
  unfold np_zeros in Hz. rewrite Hv in Hz. injection Hz as <-.
  pose proof (search_inv_zeros size v Hshape Hw Hpeek) as Hinv0.
  destruct (hamiltonian_goal size start_pos end_pos q H1 H2 Hq) as [Hgoal Hpre].
  exact (recursive_first np_index np_index_lawful end_pos size _ start_pos
           (mk_state v []) st' Hinv0 Hrec q Hgoal Hpre).
Qed.

Lemma returned_path_is_first_witness :
  [(0, 0); (0, 1); (0, 2); (1, 2); (1, 1); (1, 0); (2, 0); (2, 1); (2, 2)] =
    [(0, 0); (1, 0); (2, 0); (2, 1); (1, 1); (0, 1); (0, 2); (1, 2); (2, 2)] \/
  tried_earlier
    [(0, 0); (1, 0); (2, 0); (2, 1); (1, 1); (0, 1); (0, 2); (1, 2); (2, 2)]
    [(0, 0); (0, 1); (0, 2); (1, 2); (1, 1); (1, 0); (2, 0); (2, 1); (2, 2)].
Proof.
  apply (returned_path_is_first 9 (0, 0) (2, 2) (3, 3) "recursive");
    [reflexivity | reflexivity | reflexivity | reflexivity |].
  split; [reflexivity|]. split; [reflexivity|]. split; [reflexivity|].
  split; [|split].
  - repeat (apply NoDup_cons_2;
      [intros H; repeat (apply elem_of_cons in H as [H|H]; [discriminate H|]);
       apply elem_of_nil in H; exact H |]).
    apply NoDup_nil_2.
  - apply valid_cells_full; [discriminate | discriminate | | | reflexivity].
    + repeat (apply NoDup_cons_2;
        [intros H; repeat (apply elem_of_cons in H as [H|H]; [discriminate H|]);
         apply elem_of_nil in H; exact H |]).
      apply NoDup_nil_2.
    + repeat (apply Forall_cons; split; [reflexivity|]). apply Forall_nil_2.
  - cbn [chain]. repeat split;
      first [ exists (1, 0); split; [repeat constructor | reflexivity]
            | exists (-1, 0); split; [repeat constructor | reflexivity]
            | exists (0, 1); split; [repeat constructor | reflexivity]
            | exists (0, -1); split; [repeat constructor | reflexivity] ].
Defined.

(** ** The stack of directions of the loop *)

Section Frames.
Variable ix : Z -> Z -> option nat.
Hypothesis ix_lawful : lawful ix.
Variables end_pos size : GridPt.

(** One pass of the loop that goes on keeps the stack of directions in
    step with the path. *)
Lemma loop_body_frames (s s' : LoopState) :
  loop_inv size s ->
  frames_encode (l_path s) (path_dirn s) ->
  loop_body ix end_pos size s = Ok (Continue s') ->
  frames_encode (l_path s') (path_dirn s').
Proof.
  destruct s as [p ds v]. intros (Hinv & Hp & Hlen & Hds) (_ & Htop & Hsteps).
  cbn [l_path path_dirn l_visited] in *.
  destruct (snoc_cases p Hp) as (p0 & pos & ->).
  destruct (snoc_cases ds) as (ds0 & j & ->).
  { intros ->. rewrite length_app in Hlen. simpl in Hlen. lia. }
  rewrite !length_app in Hlen. cbn [length] in Hlen.
  assert (length ds0 = length p0) as Hlen0 by lia.
  specialize (Htop j (last_snoc _ _)).
  destruct (arrived size end_pos pos (p0 ++ [pos])) eqn:Ha.
  { rewrite (loop_body_arrived ix end_pos size p0 pos _ v Ha). discriminate. }
  assert (forall j', 0 <= j' <= n_dirns ->
            frames_encode (p0 ++ [pos]) (ds0 ++ [j'])) as Hsame.
  { intros j' Hj'. split; [rewrite !length_app; cbn [length]; lia|]. split.
    - intros d Hd. rewrite last_snoc in Hd. injection Hd as <-. exact Hj'.
    - intros i a b d Ha' Hb' Hd'. apply (Hsteps i a b d Ha' Hb').
      apply lookup_lt_Some in Hb'. rewrite length_app in Hb'. cbn [length] in Hb'.
      rewrite lookup_app_l in Hd' by lia. rewrite lookup_app_l by lia. exact Hd'. }
  destruct (Z.le_gt_cases n_dirns j) as [Hbig | Hsmall].
  - rewrite (loop_body_backtrack ix ix_lawful end_pos size p0 pos ds0 j v Hinv Ha Hbig).
    destruct (decide (p0 = [])) as [-> | Hp0]; [discriminate|].
    destruct (snoc_cases p0 Hp0) as (p1 & pos1 & ->).
    destruct (snoc_cases ds0) as (ds1 & j1 & ->).
    { intros ->. rewrite length_app in Hlen0. simpl in Hlen0. lia. }
    rewrite !length_app in Hlen0. cbn [length] in Hlen0.
    assert (list_is_empty (p1 ++ [pos1]) = false) as -> by (destruct p1; reflexivity).
    unfold advance. cbn [path_dirn l_path l_visited].
    rewrite list_getitem_last. cbn [bind]. rewrite list_setitem_last. cbn [bind].
    intros [= <-]. cbn [l_path path_dirn].
    destruct (Hsteps (length p1) pos1 pos j1) as [Hj1 _].
    { rewrite lookup_app_l by (rewrite length_app; cbn [length]; lia).
      apply list_lookup_middle. reflexivity. }
    { apply list_lookup_middle. rewrite length_app. cbn [length]. lia. }
    { rewrite lookup_app_l by (rewrite length_app; cbn [length]; lia).
      apply list_lookup_middle. lia. }
    split; [rewrite !length_app; cbn [length]; lia|]. split.
    + intros d Hd. rewrite last_snoc in Hd. injection Hd as <-. lia.
    + intros i a b d Ha' Hb' Hd'.
      apply lookup_lt_Some in Hb' as Hi. rewrite length_app in Hi. cbn [length] in Hi.
      apply (Hsteps i a b d).
      * rewrite lookup_app_l by (rewrite length_app; cbn [length]; lia). exact Ha'.
      * rewrite lookup_app_l by (rewrite length_app; cbn [length]; lia). exact Hb'.
      * rewrite lookup_app_l in Hd' by lia.
        rewrite lookup_app_l by (rewrite length_app; cbn [length]; lia).
        rewrite lookup_app_l by lia. exact Hd'.
  - destruct (lookup_lt_is_Some_2 _search_dirns (Z.to_nat j)) as [δ Hδ].
    { unfold n_dirns in Hsmall. lia. }
    assert (0 <= j) as Hj by lia.
    set (next_pos := (pos.1 + δ.1, pos.2 + δ.2)).
    destruct (valid_pos next_pos size) eqn:Hv;
      [destruct (decide (peek v next_pos = Some true)) as [Hseen | Hfree] |].
    + rewrite (loop_body_reject ix ix_lawful end_pos size p0 pos ds0 j δ v) by auto.
      intros [= <-]. apply Hsame. lia.
    + rewrite (loop_body_push ix ix_lawful end_pos size p0 pos ds0 j δ v) by auto.
      intros [= <-]. cbn [l_path path_dirn].
      split; [rewrite !length_app; cbn [length]; lia|]. split.
      * intros d Hd. rewrite last_snoc in Hd. injection Hd as <-. unfold n_dirns. simpl. lia.
      * intros i a b d Ha' Hb' Hd'.
        apply lookup_lt_Some in Hb' as Hi. rewrite !length_app in Hi. cbn [length] in Hi.
        destruct (decide (i = length p0)) as [-> | Hne].
        -- rewrite lookup_app_l in Ha' by (rewrite length_app; cbn [length]; lia).
           rewrite list_lookup_middle in Ha' by reflexivity. injection Ha' as <-.
           rewrite list_lookup_middle in Hb' by (rewrite length_app; cbn [length]; lia).
           injection Hb' as <-.
           rewrite lookup_app_l in Hd' by (rewrite length_app; cbn [length]; lia).
           rewrite list_lookup_middle in Hd' by lia. injection Hd' as <-.
           split; [lia|]. exists δ. split; [|reflexivity].
           apply (dirn_index_bound j δ Hj Hδ).
        -- apply (Hsteps i a b d).
           ++ rewrite lookup_app_l in Ha' by (rewrite length_app; cbn [length]; lia). exact Ha'.
           ++ rewrite lookup_app_l in Hb' by (rewrite length_app; cbn [length]; lia). exact Hb'.
           ++ rewrite lookup_app_l in Hd' by (rewrite length_app; cbn [length]; lia). exact Hd'.
    + rewrite (loop_body_reject ix ix_lawful end_pos size p0 pos ds0 j δ v) by auto.
      intros [= <-]. apply Hsame. lia.
Qed.

(** After any number of passes that all go on. *)
Lemma iterate_frames (n : nat) : forall s s',
  loop_inv size s ->
  frames_encode (l_path s) (path_dirn s) ->
  iterate n (loop_body ix end_pos size) s = Ok (Continue s') ->
  frames_encode (l_path s') (path_dirn s').
Proof.
  induction n as [|n IH]; intros s s' Hinv Hfr Hrun.
  - injection Hrun as <-. exact Hfr.
  - cbn [iterate] in Hrun. apply bind_Ok in Hrun as (c & Hc & Hrun).
    destruct c as [s1 | r]; [|discriminate].
    apply (IH s1 s'); [| exact (loop_body_frames s s1 Hinv Hfr Hc) | exact Hrun].
    destruct (loop_body_step end_pos size s Hinv) as (c & Hc' & Hnext).
    apply Hnext. specialize (Hc' ix ix_lawful). congruence.
Qed.

End Frames.

(** X13: the two stacks of [_non_recursive] stay in step.  Whenever the
    loop is at its top, [path_dirn] is as long as [path]; for every cell
    of the path below the top, the index kept in [path_dirn] is a valid
    index into [_search_dirns], and the next cell of the path is the cell
    plus that direction; the index kept for the top cell lies between
    [0] and [n_dirns]. *)
Theorem path_dirn_encodes_path
    (start_pos end_pos size : GridPt) (visited0 : ndarray bool) (n : nat) (s : LoopState) :
  valid_pos start_pos size = true ->
  np_zeros size = Ok visited0 ->
  iterate n (loop_body np_index end_pos size)
    (mk_loop [start_pos] [0] (poke visited0 start_pos true)) = Ok (Continue s) ->
  frames_encode (l_path s) (path_dirn s).
Proof.
  intros Hs Hz Hrun.
  apply (iterate_frames np_index np_index_lawful end_pos size n _ s
           (loop_inv_initial size start_pos visited0 Hs Hz)); [|exact Hrun].
  cbn [l_path path_dirn]. split; [reflexivity|]. split.
  - intros d [= <-]. unfold n_dirns. simpl. lia.
  - intros i a b d _ Hb. destruct i; discriminate.
Qed.

Lemma path_dirn_encodes_path_witness :
  frames_encode [(0, 0); (1, 0); (1, 1); (0, 1)] [0; 2; 1; 0].
Proof.
  apply (path_dirn_encodes_path (0, 0) (0, 1) (2, 2)
           {| shape := (2, 2); items := [[false; false]; [false; false]] |} 6
           (mk_loop [(0, 0); (1, 0); (1, 1); (0, 1)] [0; 2; 1; 0]
              {| shape := (2, 2); items := [[true; true]; [true; true]] |}));
    reflexivity.
Defined.

(** ** The grid of one row *)

(** X14: a grid of one row is crossed in a straight line, and shows
    how deeply the recursion nests.  On the [1 x n] grid with [n >= 2],
    from the left end to the right end, the non-recursive method returns
    the cells of the row from left to right under every limit of the
    recursion; the recursive method returns them when [n - 1] calls may
    nest below the first, and ends in [RecursionError] otherwise.  From
    the right end to the left end both methods, given room, return the
    same cells from right to left. *)
Theorem single_row_is_straight_line (n : Z) :
  2 <= n ->
  (forall limit,
     solve_snake np_index limit (0, 0) (0, n - 1) (1, n) "non-recursive"
       = Ok (row_line n)) /\
  (forall limit, n - 1 <= Z.of_nat limit ->
     solve_snake np_index limit (0, 0) (0, n - 1) (1, n) "recursive"
       = Ok (row_line n)) /\
  (forall limit, Z.of_nat limit < n - 1 ->
     solve_snake np_index limit (0, 0) (0, n - 1) (1, n) "recursive"
       = Raise RecursionError) /\
  (forall limit method,
     String.eqb method "recursive" || String.eqb method "non-recursive" = true ->
     room_for limit (1, n) method ->
     solve_snake np_index limit (0, n - 1) (0, 0) (1, n) method
       = Ok (reverse (row_line n))).
Proof.
  intros Hn.
  assert (valid_pos (0, 0) (1, n) = true) as Hs by (apply valid_pos_spec; cbn; lia).
  assert (valid_pos (0, n - 1) (1, n) = true) as He by (apply valid_pos_spec; cbn; lia).
  assert (pt_eqb (0, 0) (0, n - 1) = false) as Hne by (apply pt_eqb_neq; intros [=]; lia).
  assert (pt_eqb (0, n - 1) (0, 0) = false) as Hne' by (apply pt_eqb_neq; intros [=]; lia).
  split; [|split; [|split]].
  - intros limit. apply solve_row_loop; [apply np_index_lawful | exact Hn | reflexivity].
  - intros limit Hl.
    apply solve_row_returns; [apply np_index_lawful | exact Hn | reflexivity | lia].
  - intros limit Hl.
    apply solve_row_raises; [apply np_index_lawful | exact He | exact Hne | lia].
  - intros limit method Hm Hroom.
    destruct (solve_snake_returns (0, n - 1) (0, 0) (1, n) He Hs Hne' limit method Hm Hroom)
      as (p & Hrun).
    rewrite Hrun. f_equal.
    destruct (solve_snake_answer np_index (0, n - 1) (0, 0) (1, n) He Hs Hne' np_index_lawful)
      as (answer & _ & _ & _ & Hret & Hfound & Hnone).
    apply Hret in Hrun as ->.
    pose proof (row_line_hamiltonian n ltac:(lia)) as Hline.
    assert (answer <> []) as Hans.
    { intros ->. exact (Hnone eq_refl _ (hamiltonian_reverse _ _ _ _ Hline)). }
    apply Hfound, hamiltonian_reverse, row_line_unique in Hans.
    rewrite <- Hans. symmetry. apply reverse_involutive.
Qed.

Lemma single_row_is_straight_line_witness :
  (forall limit,
     solve_snake np_index limit (0, 0) (0, 1000 - 1) (1, 1000) "non-recursive"
       = Ok (row_line 1000)) /\
  (forall limit, 1000 - 1 <= Z.of_nat limit ->
     solve_snake np_index limit (0, 0) (0, 1000 - 1) (1, 1000) "recursive"
       = Ok (row_line 1000)) /\
  (forall limit, Z.of_nat limit < 1000 - 1 ->
     solve_snake np_index limit (0, 0) (0, 1000 - 1) (1, 1000) "recursive"
       = Raise RecursionError) /\
  (forall limit method,
     String.eqb method "recursive" || String.eqb method "non-recursive" = true ->
     room_for limit (1, 1000) method ->
     solve_snake np_index limit (0, 1000 - 1) (0, 0) (1, 1000) method
       = Ok (reverse (row_line 1000))).
Proof.
  apply (single_row_is_straight_line 1000). lia.
Defined.
